(** * Hybrid search of the case7 server: a shallow embedding

    The development follows the classes [SearchService] and [VectorService]
    (services/search-service.ts and services/vector-service.ts, the two
    documents of src/unnamed/part_002), the class [CaseLoader]
    (services/case-loader.ts, the second document of src/src/server.ts) and
    the interfaces of types/case.ts (src/unnamed/part_003).

    Conventions of the embedding.
    - A JavaScript string is a list of code units; the code units are the
      256 values of [ascii], read as Latin-1, so that [toLowerCase], [trim]
      and the class [\s] are the ECMAScript ones on that range.
    - A JavaScript number that carries a score is a rational ([Q]): keyword
      scores are sums of 3, 2 and multiples of 0.5, which binary64 holds
      exactly, and the comparator [b.relevanceScore - a.relevanceScore] has
      the sign of the rational difference.  Lengths, counts and [limit] are
      natural numbers; [maxTokens], which its schema lets be fractional, is a
      rational.
    - Code that can throw is written in the [Completion] monad; [try_catch]
      is the [try { ... } catch { ... }] statement.
    - The services of the JavaScript runtime and of the network that the code
      calls ([RegExp] matching, the embeddings endpoint, the vector index) are
      parameters of the functions that use them. *)

From Stdlib Require Import String Ascii.
From Stdlib Require Import List Bool Arith Lia ZArith QArith Qround Lqa Permutation Sorted.
Import ListNotations.
Set Warnings "-register-all".
Close Scope Q_scope.
Open Scope nat_scope.
Open Scope list_scope.

(** ** Strings *)

Definition jsstring := list ascii.

Definition str (s : string) : jsstring := list_ascii_of_string s.
Arguments str s%_string.

(** ECMAScript [WhiteSpace] and [LineTerminator] code units below 256: the
    characters removed by [trim] and matched by [\s]. *)
Definition isWhiteSpace (c : ascii) : bool :=
  let n := nat_of_ascii c in
  ((9 <=? n) && (n <=? 13)) || (n =? 32) || (n =? 160).

(** The class [[.!?]] of [createExcerpt]. *)
Definition isSentenceEnd (c : ascii) : bool :=
  let n := nat_of_ascii c in
  (n =? 46) || (n =? 33) || (n =? 63).

Definition toLowerCase_unit (c : ascii) : ascii :=
  let n := nat_of_ascii c in
  if ((65 <=? n) && (n <=? 90))
     || ((192 <=? n) && (n <=? 222) && negb (n =? 215))
  then ascii_of_nat (n + 32)
  else c.

(** [s.toLowerCase()] *)
Definition toLowerCase (s : jsstring) : jsstring := map toLowerCase_unit s.

(** [s.split(/[class]+/)]: the pieces between maximal runs of separator
    characters; a separator run at either end leaves an empty piece there, and
    the empty string splits into one empty piece. *)
Fixpoint split (sep : ascii -> bool) (s : jsstring) : list jsstring :=
  match s with
  | [] => [[]]
  | c :: s' =>
      let rest := split sep s' in
      if sep c then
        match s' with
        | c' :: _ => if sep c' then rest else [] :: rest
        | [] => [] :: rest
        end
      else
        match rest with
        | piece :: pieces => (c :: piece) :: pieces
        | [] => [[c]]
        end
  end.

Fixpoint trimStart (s : jsstring) : jsstring :=
  match s with
  | c :: s' => if isWhiteSpace c then trimStart s' else s
  | [] => []
  end.

(** [s.trim()] *)
Definition trim (s : jsstring) : jsstring := rev (trimStart (rev (trimStart s))).

Fixpoint startsWith (s prefix : jsstring) {struct prefix} : bool :=
  match prefix, s with
  | [], _ => true
  | p :: prefix', c :: s' => Ascii.eqb p c && startsWith s' prefix'
  | _ :: _, [] => false
  end.

(** [s.includes(term)] *)
Fixpoint includes (s term : jsstring) : bool :=
  startsWith s term ||
  match s with
  | [] => false
  | _ :: s' => includes s' term
  end.

(** [parts.join(' ')] *)
Fixpoint join_space (parts : list jsstring) : jsstring :=
  match parts with
  | [] => []
  | [p] => p
  | p :: rest => p ++ " "%char :: join_space rest
  end.

(** ** The excerpt extractor: [SearchService.createExcerpt] *)

(** [query.toLowerCase().split(/\s+/)], no length filter. *)
Definition excerptTerms (query : jsstring) : list jsstring :=
  split isWhiteSpace (toLowerCase query).

(** [content.split(/[.!?]+/).map(s => s.trim()).filter(s => s.length > 0)] *)
Definition sentences (content : jsstring) : list jsstring :=
  filter (fun s => 0 <? length s) (map trim (split isSentenceEnd content)).

(** The [reduce] of the loop body: one for each query term, repeated terms
    included, that the lowercased sentence includes. *)
Definition sentenceScore (queryTerms : list jsstring) (sentence : jsstring) : nat :=
  let sentenceLower := toLowerCase sentence in
  fold_left (fun acc term => acc + (if includes sentenceLower term then 1 else 0))
    queryTerms 0.

(** The [for (const sentence of sentences)] loop with its two variables. *)
Fixpoint bestLoop (queryTerms : list jsstring) (rest : list jsstring)
  (bestSentence : jsstring) (bestScore : nat) : jsstring :=
  match rest with
  | [] => bestSentence
  | sentence :: rest' =>
      let score := sentenceScore queryTerms sentence in
      if bestScore <? score
      then bestLoop queryTerms rest' sentence score
      else bestLoop queryTerms rest' bestSentence bestScore
  end.

(** The value of [bestSentence] when the loop ends. *)
Definition chosenSentence (content query : jsstring) : jsstring :=
  let queryTerms := excerptTerms query in
  let ss := sentences content in
  bestLoop queryTerms ss (hd [] ss) 0.

(** [bestSentence.substring(0, maxLength - 3) + '...'] when the sentence is
    longer than [maxLength]; [substring] clamps a negative end to 0, which is
    the truncated subtraction of [nat]. *)
Definition truncateExcerpt (bestSentence : jsstring) (maxLength : nat) : jsstring :=
  if maxLength <? length bestSentence
  then firstn (maxLength - 3) bestSentence ++ str "..."
  else bestSentence.

Definition createExcerpt (content query : jsstring) (maxLength : nat) : jsstring :=
  truncateExcerpt (chosenSentence content query) maxLength.

(** The default value of the parameter [maxLength]. *)
Definition defaultMaxLength : nat := 200.

(** ** Exceptions *)

Inductive exn : Type :=
| SyntaxError (message : jsstring)
| Error (message : jsstring).

Inductive Completion (A : Type) : Type :=
| Return (a : A)
| Throw (e : exn).
Arguments Return {A} a.
Arguments Throw {A} e.

Definition bind {A B : Type} (c : Completion A) (k : A -> Completion B) : Completion B :=
  match c with
  | Return a => k a
  | Throw e => Throw e
  end.

Notation "x <- c ;; k" := (bind c (fun x => k))
  (at level 61, c at next level, right associativity).

(** [try { body } catch (error) { handler }] *)
Definition try_catch {A : Type} (body : Completion A) (handler : exn -> Completion A)
  : Completion A :=
  match body with
  | Return a => Return a
  | Throw e => handler e
  end.

(** [xs.map(f)] for a callback that can throw: the first exception ends the
    traversal. *)
Fixpoint mapM {A B : Type} (f : A -> Completion B) (xs : list A) : Completion (list B) :=
  match xs with
  | [] => Return []
  | x :: xs' =>
      y <- f x ;;
      ys <- mapM f xs' ;;
      Return (y :: ys)
  end.

(** [for (const x of xs) { acc = step(acc, x) }] for a body that can throw. *)
Fixpoint foldM {A B : Type} (step : B -> A -> Completion B) (xs : list A) (acc : B)
  : Completion B :=
  match xs with
  | [] => Return acc
  | x :: xs' =>
      acc' <- step acc x ;;
      foldM step xs' acc'
  end.

(** ** The data model of [types/case.ts] *)

Definition streq (a b : jsstring) : bool :=
  if list_eq_dec ascii_dec a b then true else false.

Module Case.
Record t : Type := mk {
  id : jsstring;
  title : jsstring;
  category : jsstring;
  tags : list jsstring;
  difficulty : jsstring;
  lastUpdated : jsstring;
  testedVersions : option (list (jsstring * jsstring));
  estimatedTime : option jsstring;
  prerequisites : option (list jsstring);
  content : jsstring;
  filePath : jsstring
}.
End Case.

Module CaseSearchResult.
Record t : Type := mk {
  id : jsstring;
  title : jsstring;
  category : jsstring;
  tags : list jsstring;
  relevanceScore : Q;
  excerpt : jsstring
}.
End CaseSearchResult.

Module Metadata.
Record t : Type := mk {
  title : jsstring;
  category : jsstring;
  tags : list jsstring
}.
End Metadata.

Module VectorSearchResult.
Record t : Type := mk {
  id : jsstring;
  score : Q;
  metadata : option Metadata.t
}.
End VectorSearchResult.

(** One entry of the answer of the vector index: [score] may be missing. *)
Module QueryResult.
Record t : Type := mk {
  id : jsstring;
  score : option Q;
  metadata : option Metadata.t
}.
End QueryResult.

(** The [options] argument of [searchCases]; [None] is [undefined]. *)
Module Options.
Record t : Type := mk {
  category : option jsstring;
  difficulty : option jsstring;
  limit : option nat
}.
End Options.

(** ** [Map<string, V>]: keys in insertion order *)

Definition JsMap (V : Type) : Type := list (jsstring * V).

Definition map_has {V : Type} (m : JsMap V) (k : jsstring) : bool :=
  existsb (fun e => streq (fst e) k) m.

Fixpoint map_get {V : Type} (m : JsMap V) (k : jsstring) : option V :=
  match m with
  | [] => None
  | (k', v) :: m' => if streq k' k then Some v else map_get m' k
  end.

(** [m.set(k, v)]: a key already present keeps its place and takes the new
    value; a new key goes to the end. *)
Fixpoint map_set {V : Type} (k : jsstring) (v : V) (m : JsMap V) : JsMap V :=
  match m with
  | [] => [(k, v)]
  | (k', v') :: m' => if streq k' k then (k, v) :: m' else (k', v') :: map_set k v m'
  end.

Definition map_size {V : Type} (m : JsMap V) : nat := length m.

(** [Array.from(m.keys())] *)
Definition keys {V : Type} (m : JsMap V) : list jsstring := map fst m.

(** [Array.from(m.values())] *)
Definition map_values {V : Type} (m : JsMap V) : list V := map snd m.

(** ** [Array.prototype.sort] with a comparator

    The sort is stable: [x] moves behind [y] only when [cmp x y > 0]. *)

Definition Qltb (x y : Q) : bool := negb (Qle_bool y x).

Fixpoint insertSorted {A : Type} (cmp : A -> A -> Q) (x : A) (l : list A) : list A :=
  match l with
  | [] => [x]
  | y :: l' => if Qltb 0 (cmp x y) then y :: insertSorted cmp x l' else x :: l
  end.

Definition js_sort {A : Type} (cmp : A -> A -> Q) (l : list A) : list A :=
  fold_right (insertSorted cmp) [] l.

(** [(a, b) => b.relevanceScore - a.relevanceScore] *)
Definition byRelevance (a b : CaseSearchResult.t) : Q :=
  (CaseSearchResult.relevanceScore b - CaseSearchResult.relevanceScore a)%Q.

(** ** The document store: [CaseLoader] *)

Module CaseLoader.

Definition t : Type := JsMap Case.t.

(** The last statement of [loadCase]: [this.cases.set(caseItem.id, caseItem)]. *)
Definition loadCase (cases : t) (caseItem : Case.t) : t :=
  map_set (Case.id caseItem) caseItem cases.

(** [loadAllCases] on the documents that parse and validate, in the order of
    the directory walk: [this.cases.clear()] and one [loadCase] each. *)
Definition loadAllCases (parsed : list Case.t) : t :=
  fold_left loadCase parsed [].

Definition getCase (cases : t) (id : jsstring) : option Case.t := map_get cases id.

Definition getAllCases (cases : t) : list Case.t := map_values cases.

End CaseLoader.

(** ** [VectorService] *)

Section VectorService.

(** [openai.embeddings.create]: the embedding of [response.data[0]], when
    there is one. *)
Variable embeddings_create : jsstring -> Completion (option (list Q)).

(** [index.query({vector, topK, includeMetadata: true})] *)
Variable index_query : list Q -> nat -> Completion (list QueryResult.t).

Definition generateEmbedding (text : jsstring) : Completion (list Q) :=
  try_catch
    (response <- embeddings_create text ;;
     Return (match response with Some embedding => embedding | None => [] end))
    (fun error => Throw error).

Definition searchSimilar (query : jsstring) (limit : nat)
  : Completion (list VectorSearchResult.t) :=
  try_catch
    (queryEmbedding <- generateEmbedding query ;;
     results <- index_query queryEmbedding limit ;;
     Return (map (fun result =>
                    VectorSearchResult.mk
                      (QueryResult.id result)
                      (match QueryResult.score result with Some s => s | None => 0%Q end)
                      (QueryResult.metadata result))
                 results))
    (fun _ => Return []).

End VectorService.

(** ** [SearchService] *)

Section SearchService.

(** [(text.match(new RegExp(term, 'g')) || []).length]: the number of matches
    found by the global scan, or the exception of the [RegExp] constructor. *)
Variable matchCount : jsstring -> jsstring -> Completion nat.

(** [this.vectorService.searchSimilar] *)
Variable vectorSearch : jsstring -> nat -> Completion (list VectorSearchResult.t).

(** [this.caseLoader] *)
Variable caseLoader : CaseLoader.t.

(** [query.toLowerCase().split(/\s+/).filter(term => term.length > 2)] *)
Definition queryTerms (query : jsstring) : list jsstring :=
  filter (fun term => 2 <? length term) (split isWhiteSpace (toLowerCase query)).

(** The template [`${title} ${tags.join(' ')} ${content}`], lowercased. *)
Definition searchText (caseItem : Case.t) : jsstring :=
  toLowerCase (Case.title caseItem ++ " "%char :: join_space (Case.tags caseItem)
               ++ " "%char :: Case.content caseItem).

(** One turn of [for (const term of queryTerms)]. *)
Definition scoreTerm (caseItem : Case.t) (score : Q) (term : jsstring) : Completion Q :=
  let score :=
    if includes (toLowerCase (Case.title caseItem)) term then (score + 3)%Q else score in
  let score :=
    if existsb (fun tag => includes (toLowerCase tag) term) (Case.tags caseItem)
    then (score + 2)%Q else score in
  contentMatches <- matchCount term (searchText caseItem) ;;
  Return (score + inject_Z (Z.of_nat contentMatches) * (1 # 2))%Q.

Definition keywordScore (terms : list jsstring) (caseItem : Case.t) : Completion Q :=
  foldM (scoreTerm caseItem) terms 0%Q.

(** The callback of [cases.map] in [performKeywordSearch]. *)
Definition scoreCase (query : jsstring) (terms : list jsstring) (caseItem : Case.t)
  : Completion CaseSearchResult.t :=
  score <- keywordScore terms caseItem ;;
  Return (CaseSearchResult.mk
            (Case.id caseItem) (Case.title caseItem) (Case.category caseItem)
            (Case.tags caseItem) score
            (createExcerpt (Case.content caseItem) query defaultMaxLength)).

Definition performKeywordSearch (cases : list Case.t) (query : jsstring)
  : Completion (list CaseSearchResult.t) :=
  let terms := queryTerms query in
  scored <- mapM (scoreCase query terms) cases ;;
  Return (js_sort byRelevance
            (filter (fun result => Qltb 0 (CaseSearchResult.relevanceScore result)) scored)).

(** A string option in a condition: [undefined] and the empty string are
    false. *)
Definition truthy (o : option jsstring) : bool :=
  match o with
  | Some (_ :: _) => true
  | _ => false
  end.

Definition filterBy (field : Case.t -> jsstring) (wanted : option jsstring)
  (cases : list Case.t) : list Case.t :=
  match wanted with
  | Some value =>
      if truthy wanted then filter (fun c => streq (field c) value) cases else cases
  | None => cases
  end.

(** Lines 25 to 35: the documents that pass both filters. *)
Definition filteredCases (options : Options.t) : list Case.t :=
  filterBy Case.difficulty (Options.difficulty options)
    (filterBy Case.category (Options.category options)
       (CaseLoader.getAllCases caseLoader)).

(** The object literal of the vector loop. *)
Definition vectorHit (query : jsstring) (caseItem : Case.t) (score : Q)
  : CaseSearchResult.t :=
  CaseSearchResult.mk
    (Case.id caseItem) (Case.title caseItem) (Case.category caseItem)
    (Case.tags caseItem) score
    (createExcerpt (Case.content caseItem) query defaultMaxLength).

(** One turn of [for (const vectorResult of vectorResults)]. *)
Definition vectorStep (filtered : list Case.t) (query : jsstring)
  (results : JsMap CaseSearchResult.t) (vectorResult : VectorSearchResult.t)
  : JsMap CaseSearchResult.t :=
  match find (fun c => streq (Case.id c) (VectorSearchResult.id vectorResult)) filtered with
  | Some caseItem =>
      map_set (Case.id caseItem)
        (vectorHit query caseItem (VectorSearchResult.score vectorResult)) results
  | None => results
  end.

Definition vectorLoop (filtered : list Case.t) (query : jsstring)
  (vectorResults : list VectorSearchResult.t) : JsMap CaseSearchResult.t :=
  fold_left (vectorStep filtered query) vectorResults [].

(** One turn of [for (const match of keywordMatches)]. *)
Definition keywordStep (limit : nat) (results : JsMap CaseSearchResult.t)
  (match_ : CaseSearchResult.t) : JsMap CaseSearchResult.t :=
  if map_size results <? limit
  then map_set (CaseSearchResult.id match_) match_ results
  else results.

Definition optionsLimit (options : Options.t) : nat :=
  match Options.limit options with
  | Some l => l
  | None => 5
  end.

(** The result mapping when the second loop ends, lines 23 to 62. *)
Definition resultMapping (query : jsstring) (options : Options.t)
  : Completion (JsMap CaseSearchResult.t) :=
  let limit := optionsLimit options in
  vectorResults <- vectorSearch query (limit * 2) ;;
  let filtered := filteredCases options in
  let results := vectorLoop filtered query vectorResults in
  keywordMatches <-
    performKeywordSearch
      (filter (fun c => negb (map_has results (Case.id c))) filtered) query ;;
  Return (fold_left (keywordStep limit) keywordMatches results).

Definition searchCases (query : jsstring) (options : Options.t)
  : Completion (list CaseSearchResult.t) :=
  let limit := optionsLimit options in
  try_catch
    (results <- resultMapping query options ;;
     Return (firstn limit (js_sort byRelevance (map_values results))))
    (fun _ => Return []).

End SearchService.

(** ** A reference [RegExp] engine for a fragment of the pattern language

    The functions above take the matching service as a parameter.  This module
    is an instance of it for the patterns written with pattern characters,
    [.], [|], capturing groups and the greedy quantifiers [*], [+] and [?]:
    the parser raises the early errors of that fragment (a quantifier with
    nothing to repeat, an unmatched [)], an unterminated group), and the
    matcher is the backtracking matcher of ECMAScript, continuation-passing,
    with the rule that an iteration of a quantifier that consumes nothing is
    rejected.  Escapes, classes, assertions, braces, lazy quantifiers and
    [(?...)] groups are outside the fragment; the instance answers them with
    the exception [Error], and no statement below evaluates it there. *)

Module RegExp.

Inductive node : Type :=
| Empty
| Char (c : ascii)
| Dot
| Seq (a b : node)
| Alt (a b : node)
| Star (a : node)
| Plus (a : node)
| Opt (a : node)
| Group (a : node).

Inductive parsed : Type :=
| Pattern (r : node)
| Invalid (message : jsstring)
| Unsupported.

(** The characters with a meaning of their own in a pattern. *)
Definition isSyntaxCharacter (c : ascii) : bool :=
  existsb (Ascii.eqb c) (str "\^$.*+?()[]{}|").

Definition isQuantifier (c : ascii) : bool :=
  existsb (Ascii.eqb c) (str "*+?").

(** A pattern leaves the fragment when it uses one of [\ ^ $ [ ] { }], a
    quantifier followed by [?], or a group that opens with [(?]. *)
Fixpoint outsideFragment (pattern : jsstring) : bool :=
  match pattern with
  | [] => false
  | c :: rest =>
      existsb (Ascii.eqb c) (str "\^$[]{}")
      || match rest with
         | "?"%char :: _ => isQuantifier c || Ascii.eqb c "("%char
         | _ => false
         end
      || outsideFragment rest
  end.

(** The parser's view of one open Disjunction: the alternatives already
    closed by [|] and the terms of the current one, both latest first, and
    whether the last term may take a quantifier. *)
Record frame : Type := mkFrame {
  alternatives : list node;
  terms : list node;
  quantifiable : bool
}.

Definition emptyFrame : frame := mkFrame [] [] false.

Definition seqOf (terms_rev : list node) : node :=
  fold_left (fun acc term => Seq term acc) terms_rev Empty.

Definition closeFrame (f : frame) : node :=
  fold_left (fun acc alternative => Alt alternative acc)
    (alternatives f) (seqOf (terms f)).

Definition pushAtom (f : frame) (atom : node) : frame :=
  mkFrame (alternatives f) (atom :: terms f) true.

Definition quantify (f : frame) (q : node -> node) : option frame :=
  match quantifiable f, terms f with
  | true, atom :: earlier => Some (mkFrame (alternatives f) (q atom :: earlier) false)
  | _, _ => None
  end.

(** The parser: one pass, the open groups on a stack. *)
Fixpoint parse (pattern : jsstring) (current : frame) (open : list frame) : parsed :=
  match pattern with
  | [] =>
      match open with
      | [] => Pattern (closeFrame current)
      | _ :: _ => Invalid (str "Unterminated group")
      end
  | c :: rest =>
      if Ascii.eqb c "("%char then parse rest emptyFrame (current :: open)
      else if Ascii.eqb c ")"%char then
        match open with
        | [] => Invalid (str "Unmatched ')'")
        | outer :: open' => parse rest (pushAtom outer (Group (closeFrame current))) open'
        end
      else if Ascii.eqb c "|"%char then
        parse rest (mkFrame (seqOf (terms current) :: alternatives current) [] false) open
      else if isQuantifier c then
        match quantify current
                (if Ascii.eqb c "*"%char then Star
                 else if Ascii.eqb c "+"%char then Plus else Opt) with
        | Some current' => parse rest current' open
        | None => Invalid (str "Nothing to repeat")
        end
      else if Ascii.eqb c "."%char then parse rest (pushAtom current Dot) open
      else parse rest (pushAtom current (Char c)) open
  end.

(** [new RegExp(pattern, 'g')] *)
Definition compile (pattern : jsstring) : parsed :=
  if outsideFragment pattern then Unsupported else parse pattern emptyFrame [].

(** Line terminators below 256: what [.] does not match. *)
Definition isLineTerminator (c : ascii) : bool :=
  let n := nat_of_ascii c in (n =? 10) || (n =? 13).

(** A matcher takes the rest of the input and a continuation, and answers
    with the rest of the input after the whole match, if there is one. *)
Definition Continuation : Type := jsstring -> option jsstring.
Definition Matcher : Type := jsstring -> Continuation -> option jsstring.

(** RepeatMatcher for [*]: as many iterations as possible first; an iteration
    that consumes nothing is rejected. *)
Fixpoint repeatMatcher (m : Matcher) (fuel : nat) (x : jsstring) (c : Continuation)
  : option jsstring :=
  match fuel with
  | 0 => c x
  | S fuel' =>
      match m x (fun y => if length y <? length x then repeatMatcher m fuel' y c else None) with
      | Some z => Some z
      | None => c x
      end
  end.

Fixpoint matcher (r : node) (x : jsstring) (c : Continuation) {struct r} : option jsstring :=
  match r with
  | Empty => c x
  | Char ch =>
      match x with
      | ch' :: x' => if Ascii.eqb ch ch' then c x' else None
      | [] => None
      end
  | Dot =>
      match x with
      | ch' :: x' => if isLineTerminator ch' then None else c x'
      | [] => None
      end
  | Seq a b => matcher a x (fun y => matcher b y c)
  | Alt a b =>
      match matcher a x c with
      | Some z => Some z
      | None => matcher b x c
      end
  | Star a => repeatMatcher (matcher a) (length x) x c
  | Plus a => matcher a x (fun y => repeatMatcher (matcher a) (length y) y c)
  | Opt a =>
      match matcher a x (fun y => if length y <? length x then c y else None) with
      | Some z => Some z
      | None => c x
      end
  | Group a => matcher a x c
  end.

(** The global scan of [String.prototype.match]: the next search starts
    where the last match ended, one code unit further after an empty match. *)
Fixpoint scan (r : node) (fuel : nat) (x : jsstring) : nat :=
  match fuel with
  | 0 => 0
  | S fuel' =>
      match matcher r x Some with
      | Some y =>
          if length y <? length x then S (scan r fuel' y)
          else match x with
               | [] => 1
               | _ :: x' => S (scan r fuel' x')
               end
      | None =>
          match x with
          | [] => 0
          | _ :: x' => scan r fuel' x'
          end
      end
  end.

(** The pattern of a term without syntax characters: its characters in a
    row. *)
Definition literalNode (term : jsstring) : node :=
  fold_right (fun c acc => Seq (Char c) acc) Empty term.

(** [(text.match(new RegExp(term, 'g')) || []).length] *)
Definition matchCount (term text : jsstring) : Completion nat :=
  match compile term with
  | Pattern r => Return (scan r (S (length text)) text)
  | Invalid message => Throw (SyntaxError message)
  | Unsupported => Throw (Error (str "pattern outside the fragment"))
  end.

End RegExp.

(** ** Documents and services for the closed examples *)

Module Fixture.

Definition docIn (category difficulty id title : string) (tags : list string)
  (content : string) : Case.t :=
  Case.mk (str id) (str title) (str category) (map str tags) (str difficulty)
    (str "2024-01-01") None None None (str content) (str "cases/doc.md").

Definition doc : string -> string -> list string -> string -> Case.t :=
  docIn "web" "beginner".

(** The two documents of the example of the specification. *)
Definition stripe : Case.t :=
  doc "a" "Stripe Checkout" ["stripe"; "web"]%string "Use Stripe for checkout. It is fast.".

Definition auth : Case.t :=
  docIn "backend" "advanced" "b" "Auth Setup" ["auth"]%string "Supabase handles auth.".

(** A document whose title holds three opening parentheses. *)
Definition parens : Case.t :=
  doc "p" "((( in shell scripts" ["shell"]%string "Quote them.".

Definition parsed : list Case.t := [stripe; auth].

Definition store : CaseLoader.t := CaseLoader.loadAllCases parsed.

(** A document whose content is four times the letter a. *)
Definition aaaa : Case.t := doc "x" "Notes" ["misc"]%string "aaaa".

(** A document that the pattern [ab?c] matches once, and the same document
    with the term ["ab?c"] appended to its content. *)
Definition abc : Case.t := doc "y" "Notes" ["misc"]%string "abc".

Definition abc_appended : Case.t := doc "y" "Notes" ["misc"]%string "abcab?c".

(** The embeddings endpoint is down. *)
Definition embeddings_down : jsstring -> Completion (option (list Q)) :=
  fun _ => Throw (Error (str "connect ECONNREFUSED")).

(** The embeddings endpoint answers; the index holds nothing. *)
Definition embeddings_up : jsstring -> Completion (option (list Q)) :=
  fun _ => Return (Some [1 # 2; 1 # 3]%Q).

Definition index_empty : list Q -> nat -> Completion (list QueryResult.t) :=
  fun _ _ => Return [].

(** The index answers with both documents, [b] first. *)
Definition index_both : list Q -> nat -> Completion (list QueryResult.t) :=
  fun _ topK =>
    Return (firstn topK [QueryResult.mk (str "b") (Some (9 # 10)%Q) None;
                         QueryResult.mk (str "a") (Some (3 # 4)%Q) None]).

Definition hit (id : string) (score : Q) : VectorSearchResult.t :=
  VectorSearchResult.mk (str id) score None.

(** The index answers with document [b] alone. *)
Definition index_auth : list Q -> nat -> Completion (list QueryResult.t) :=
  fun _ _ => Return [QueryResult.mk (str "b") (Some (9 # 10)%Q) None].

Definition noOptions : Options.t := Options.mk None None None.

Definition webOnly : Options.t := Options.mk (Some (str "web")) None None.

End Fixture.

(** The embedding call or the index query of [searchSimilar] fails. *)
Definition adapterFails (embeddings_create : jsstring -> Completion (option (list Q)))
  (index_query : list Q -> nat -> Completion (list QueryResult.t))
  (query : jsstring) (topK : nat) : Prop :=
  (exists e, embeddings_create query = Throw e)
  \/ (exists v e, generateEmbedding embeddings_create query = Return v
                  /\ index_query v topK = Throw e).

(** A document with more text at the end of its content. *)
Definition appendContent (c : Case.t) (more : jsstring) : Case.t :=
  Case.mk (Case.id c) (Case.title c) (Case.category c) (Case.tags c)
    (Case.difficulty c) (Case.lastUpdated c) (Case.testedVersions c)
    (Case.estimatedTime c) (Case.prerequisites c) (Case.content c ++ more)
    (Case.filePath c).

(** A document with another content. *)
Definition withContent (c : Case.t) (content : jsstring) : Case.t :=
  Case.mk (Case.id c) (Case.title c) (Case.category c) (Case.tags c)
    (Case.difficulty c) (Case.lastUpdated c) (Case.testedVersions c)
    (Case.estimatedTime c) (Case.prerequisites c) content (Case.filePath c).

(** ** Predicates of the statements *)

Abbreviation scoreOf := CaseSearchResult.relevanceScore.

(** Descending order of [relevanceScore]. *)
Definition descending : list CaseSearchResult.t -> Prop :=
  StronglySorted (fun a b => (scoreOf b <= scoreOf a)%Q).

(** The results of one given score, in the order of the list. *)
Definition withScore (s : Q) (l : list CaseSearchResult.t) : list CaseSearchResult.t :=
  filter (fun r => Qeq_bool (scoreOf r) s) l.

(** Every entry of the store is filed under the id of its document, and no id
    is filed twice. *)
Definition wellKeyed (cases : CaseLoader.t) : Prop :=
  NoDup (keys cases) /\ forall k c, In (k, c) cases -> Case.id c = k.

(** The fields a result copies from its document. *)
Definition fromCase (c : Case.t) (r : CaseSearchResult.t) : Prop :=
  CaseSearchResult.id r = Case.id c
  /\ CaseSearchResult.title r = Case.title c
  /\ CaseSearchResult.category r = Case.category c
  /\ CaseSearchResult.tags r = Case.tags c.

(** The entry under which a result is filed in the result mapping. *)
Definition entry (r : CaseSearchResult.t) : jsstring * CaseSearchResult.t :=
  (CaseSearchResult.id r, r).

(** Every entry of a result mapping is filed under its own id and copies a
    document of the filtered set. *)
Definition resultsFrom (filtered : list Case.t) (m : JsMap CaseSearchResult.t) : Prop :=
  forall k r, In (k, r) m ->
    k = CaseSearchResult.id r /\ exists c, In c filtered /\ fromCase c r.

(** Every entry of a mapping is filed under the id of its result. *)
Definition selfKeyed (m : JsMap CaseSearchResult.t) : Prop :=
  forall k r, In (k, r) m -> k = CaseSearchResult.id r.

(** A result copies a document of the list and carries its excerpt for the
    query. *)
Definition excerptOf (query : jsstring) (cases : list Case.t) (r : CaseSearchResult.t)
  : Prop :=
  exists c, In c cases /\ fromCase c r
    /\ CaseSearchResult.excerpt r
       = createExcerpt (Case.content c) query defaultMaxLength.

(** ** Definitions that follow the wording of the specification *)

(** The hit-count as the specification words it: the number of distinct
    query tokens that the sentence includes, case-insensitively. *)
Definition distinctHitCount (query sentence : jsstring) : nat :=
  length (filter (includes (toLowerCase sentence))
            (nodup (list_eq_dec ascii_dec) (excerptTerms query))).

(** The literal occurrences of a term in a text, overlapping ones included:
    the positions of the text at which the term starts. *)
Fixpoint occurrences (term text : jsstring) : nat :=
  (if startsWith text term then 1 else 0)
  + match text with
    | [] => 0
    | _ :: text' => occurrences term text'
    end.

(** The occurrences found by a scan from the left in which the search resumes
    behind each occurrence found: [skip] is the number of code units still to
    pass before the search resumes. *)
Fixpoint disjointOccurrences (term : jsstring) (skip : nat) (text : jsstring) : nat :=
  match text with
  | [] => 0
  | _ :: text' =>
      match skip with
      | S skip' => disjointOccurrences term skip' text'
      | 0 =>
          if startsWith text term
          then S (disjointOccurrences term (length term - 1) text')
          else disjointOccurrences term 0 text'
      end
  end.

(** The keyword score in the words of the specification, for a given way of
    counting the occurrences of a term in the composite text: the sum over the
    query terms of 3 for a hit in the title, 2 for a hit in some tag and 0.5
    for each occurrence. *)
Definition termScore (count : jsstring -> jsstring -> nat) (c : Case.t) (term : jsstring)
  : Q :=
  ((if includes (toLowerCase (Case.title c)) term then 3 else 0)
   + (if existsb (fun tag => includes (toLowerCase tag) term) (Case.tags c) then 2 else 0)
   + (1 # 2) * inject_Z (Z.of_nat (count term (searchText c))))%Q.

Definition scoreWith (count : jsstring -> jsstring -> nat) (query : jsstring) (c : Case.t)
  : Q :=
  fold_right Qplus 0%Q (map (termScore count c) (queryTerms query)).

(** A term without syntax characters: as a pattern it matches itself. *)
Definition isLiteral (term : jsstring) : bool :=
  forallb (fun c => negb (RegExp.isSyntaxCharacter c)) term.

Definition scannedOccurrences (term text : jsstring) : nat :=
  disjointOccurrences term 0 text.

(** What the code needs of the [RegExp] service on a term without syntax
    characters: the global scan finds its disjoint occurrences. *)
Definition literalEngine (matchCount : jsstring -> jsstring -> Completion nat) : Prop :=
  forall term text, term <> [] -> isLiteral term = true ->
    matchCount term text = Return (scannedOccurrences term text).

(** ** More string operations *)

(** [s.split(sep)] for a separator of one character: every occurrence of the
    separator ends a piece. *)
Fixpoint splitOn (sep : ascii) (s : jsstring) : list jsstring :=
  match s with
  | [] => [[]]
  | c :: s' =>
      let rest := splitOn sep s' in
      if Ascii.eqb c sep then [] :: rest
      else
        match rest with
        | piece :: pieces => (c :: piece) :: pieces
        | [] => [[c]]
        end
  end.

(** [parts.join(sep)] for a separator of one character. *)
Fixpoint joinWith (sep : ascii) (parts : list jsstring) : jsstring :=
  match parts with
  | [] => []
  | [p] => p
  | p :: rest => p ++ sep :: joinWith sep rest
  end.

(** [s.endsWith(suffix)] *)
Definition endsWith (s suffix : jsstring) : bool := startsWith (rev s) (rev suffix).

(** [xs.findIndex(p)]: [None] is the answer -1. *)
Fixpoint findIndex {A : Type} (p : A -> bool) (xs : list A) : option nat :=
  match xs with
  | [] => None
  | x :: xs' =>
      if p x then Some 0
      else match findIndex p xs' with
           | Some i => Some (S i)
           | None => None
           end
  end.

Definition newline : ascii := ascii_of_nat 10.

(** ** The frontmatter schema of [types/case.ts]

    The data that the YAML parser hands to the schema is a JavaScript value;
    [VOther] stands for the values that are neither primitive, array nor
    plain object (a [Date], for one). *)

Inductive value : Type :=
| VUndefined
| VNull
| VBoolean (b : bool)
| VNumber (n : Q)
| VString (s : jsstring)
| VArray (items : list value)
| VObject (fields : list (jsstring * value))
| VOther.

(** [data[key]] *)
Definition property (data : value) (key : jsstring) : value :=
  match data with
  | VObject fields =>
      match map_get fields key with
      | Some v => v
      | None => VUndefined
      end
  | _ => VUndefined
  end.

Definition categories : list jsstring :=
  [str "mobile"; str "web"; str "backend"; str "tools"; str "integrations"].

Definition difficulties : list jsstring :=
  [str "beginner"; str "intermediate"; str "advanced"].

Definition isDigit (c : ascii) : bool :=
  let n := nat_of_ascii c in (48 <=? n) && (n <=? 57).

(** The pattern [/^\d{4}-\d{2}-\d{2}$/] *)
Definition isDate (s : jsstring) : bool :=
  match s with
  | [y1; y2; y3; y4; h1; m1; m2; h2; d1; d2] =>
      forallb isDigit [y1; y2; y3; y4; m1; m2; d1; d2]
      && Ascii.eqb h1 "-"%char && Ascii.eqb h2 "-"%char
  | _ => false
  end.

Module Zod.

Definition ZodError : exn := Error (str "ZodError").

(** [z.string()] *)
Definition string (v : value) : Completion jsstring :=
  match v with
  | VString s => Return s
  | _ => Throw ZodError
  end.

(** [z.string().min(1)] *)
Definition nonEmptyString (v : value) : Completion jsstring :=
  s <- string v ;;
  if 1 <=? length s then Return s else Throw ZodError.

(** [z.enum(options)] *)
Definition enum (options : list jsstring) (v : value) : Completion jsstring :=
  s <- string v ;;
  if existsb (streq s) options then Return s else Throw ZodError.

(** [z.string().regex(pattern)], the pattern given by its test. *)
Definition matching (test : jsstring -> bool) (v : value) : Completion jsstring :=
  s <- string v ;;
  if test s then Return s else Throw ZodError.

(** [z.array(z.string())] *)
Definition arrayOfString (v : value) : Completion (list jsstring) :=
  match v with
  | VArray items => mapM string items
  | _ => Throw ZodError
  end.

(** [z.array(z.string()).min(1)] *)
Definition nonEmptyArrayOfString (v : value) : Completion (list jsstring) :=
  items <- arrayOfString v ;;
  if 1 <=? length items then Return items else Throw ZodError.

(** [z.record(z.string())] *)
Definition recordOfString (v : value) : Completion (list (jsstring * jsstring)) :=
  match v with
  | VObject fields =>
      mapM (fun kv => s <- string (snd kv) ;; Return (fst kv, s)) fields
  | _ => Throw ZodError
  end.

(** [schema.optional()] *)
Definition optional {A : Type} (schema : value -> Completion A) (v : value)
  : Completion (option A) :=
  match v with
  | VUndefined => Return None
  | _ => a <- schema v ;; Return (Some a)
  end.

(** [z.number()] *)
Definition number (v : value) : Completion Q :=
  match v with
  | VNumber n => Return n
  | _ => Throw ZodError
  end.

(** [z.number().min(least).max(most)] *)
Definition numberBetween (least most : Q) (v : value) : Completion Q :=
  n <- number v ;;
  if Qle_bool least n && Qle_bool n most then Return n else Throw ZodError.

(** [schema.default(value)] *)
Definition default {A : Type} (schema : value -> Completion A) (defaultValue : value)
  (v : value) : Completion A :=
  match v with
  | VUndefined => schema defaultValue
  | _ => schema v
  end.

End Zod.

Module CaseFrontmatter.
Record t : Type := mk {
  id : jsstring;
  title : jsstring;
  category : jsstring;
  tags : list jsstring;
  difficulty : jsstring;
  last_updated : jsstring;
  tested_versions : option (list (jsstring * jsstring));
  estimated_time : option jsstring;
  prerequisites : option (list jsstring)
}.
End CaseFrontmatter.

(** [CaseFrontmatterSchema.parse(data)] *)
Definition CaseFrontmatterSchema_parse (data : value) : Completion CaseFrontmatter.t :=
  match data with
  | VObject _ =>
      id <- Zod.nonEmptyString (property data (str "id")) ;;
      title <- Zod.nonEmptyString (property data (str "title")) ;;
      category <- Zod.enum categories (property data (str "category")) ;;
      tags <- Zod.nonEmptyArrayOfString (property data (str "tags")) ;;
      difficulty <- Zod.enum difficulties (property data (str "difficulty")) ;;
      last_updated <- Zod.matching isDate (property data (str "last_updated")) ;;
      tested_versions <-
        Zod.optional Zod.recordOfString (property data (str "tested_versions")) ;;
      estimated_time <- Zod.optional Zod.string (property data (str "estimated_time")) ;;
      prerequisites <-
        Zod.optional Zod.arrayOfString (property data (str "prerequisites")) ;;
      Return (CaseFrontmatter.mk id title category tags difficulty last_updated
                tested_versions estimated_time prerequisites)
  | _ => Throw Zod.ZodError
  end.

(** ** [CaseLoader]: the directory walk and the queries *)

(** What [readdir(dirPath, { withFileTypes: true })] lists: a directory with
    the outcome of listing it, a file with the outcome of reading it and
    parsing it with [matter] (the frontmatter data and the content), or an
    entry that is neither. *)
Inductive dirent : Type :=
| Directory (name : jsstring) (listing : Completion (list dirent))
| RegularFile (name : jsstring) (parsed : Completion (value * jsstring))
| OtherEntry (name : jsstring).

Definition direntName (entry : dirent) : jsstring :=
  match entry with
  | Directory name _ => name
  | RegularFile name _ => name
  | OtherEntry name => name
  end.

(** The state in which a method without result leaves the store when its body
    is [try { ... } catch (error) { logger.error(...) }] and the body changes
    the store with its last statement only. *)
Definition orUnchanged {A : Type} (body : Completion A) (unchanged : A) : A :=
  match body with
  | Return a => a
  | Throw _ => unchanged
  end.

Module Loader.

Section Paths.

(** [path.sep] and [path.join] of the platform. *)
Variable sep : ascii.
Variable join : jsstring -> jsstring -> jsstring.

Definition getCategoryFromPath (filePath : jsstring) : jsstring :=
  let pathParts := splitOn sep filePath in
  match findIndex (fun part => streq part (str "cases")) pathParts with
  | Some casesIndex =>
      if casesIndex <? length pathParts - 1 then
        match nth_error pathParts (casesIndex + 1) with
        | Some category =>
            if truthy (Some category) && existsb (streq category) categories
            then category
            else str "tools"
        | None => str "tools"
        end
      else str "tools"
  | None => str "tools"
  end.

(** The object literal of [loadCase]. *)
Definition caseOf (filePath : jsstring) (validated : CaseFrontmatter.t)
  (content : jsstring) : Case.t :=
  let category :=
    if truthy (Some (CaseFrontmatter.category validated))
    then CaseFrontmatter.category validated
    else getCategoryFromPath filePath in
  Case.mk (CaseFrontmatter.id validated) (CaseFrontmatter.title validated) category
    (CaseFrontmatter.tags validated) (CaseFrontmatter.difficulty validated)
    (CaseFrontmatter.last_updated validated)
    (CaseFrontmatter.tested_versions validated)
    (if truthy (CaseFrontmatter.estimated_time validated)
     then CaseFrontmatter.estimated_time validated else None)
    (CaseFrontmatter.prerequisites validated)
    (trim content) filePath.

(** The body of the [try] of [loadCase], up to the document it stores. *)
Definition readCase (filePath : jsstring) (parsed : Completion (value * jsstring))
  : Completion Case.t :=
  file <- parsed ;;
  validatedFrontmatter <- CaseFrontmatterSchema_parse (fst file) ;;
  Return (caseOf filePath validatedFrontmatter (snd file)).

Definition loadCase (cases : CaseLoader.t) (filePath : jsstring)
  (parsed : Completion (value * jsstring)) : CaseLoader.t :=
  orUnchanged
    (caseItem <- readCase filePath parsed ;;
     Return (CaseLoader.loadCase cases caseItem))
    cases.

(** One turn of [for (const entry of entries)]; a directory is the recursive
    call [loadCasesFromDirectory(fullPath)]. *)
Fixpoint loadEntry (dirPath : jsstring) (entry : dirent) (cases : CaseLoader.t)
  {struct entry} : CaseLoader.t :=
  let fullPath := join dirPath (direntName entry) in
  match entry with
  | Directory _ listing =>
      match listing with
      | Return entries =>
          (fix each (es : list dirent) (cases : CaseLoader.t) : CaseLoader.t :=
             match es with
             | [] => cases
             | e :: es' => each es' (loadEntry fullPath e cases)
             end) entries cases
      | Throw _ => cases
      end
  | RegularFile name parsed =>
      if endsWith name (str ".md") then loadCase cases fullPath parsed else cases
  | OtherEntry _ => cases
  end.

Definition loadCasesFromDirectory (dirPath : jsstring)
  (listing : Completion (list dirent)) (cases : CaseLoader.t) : CaseLoader.t :=
  match listing with
  | Return entries => fold_left (fun cases e => loadEntry dirPath e cases) entries cases
  | Throw _ => cases
  end.

(** [loadAllCases]: the store after [this.cases.clear()] and the walk from
    [casesDir]; the method returns its values. *)
Definition loadAllCases (casesDir : jsstring) (listing : Completion (list dirent))
  : CaseLoader.t :=
  loadCasesFromDirectory casesDir listing [].

(** The documents that the walk stores, in the order of the walk. *)
Fixpoint casesOfEntry (dirPath : jsstring) (entry : dirent) {struct entry}
  : list Case.t :=
  let fullPath := join dirPath (direntName entry) in
  match entry with
  | Directory _ (Return entries) =>
      (fix each (es : list dirent) : list Case.t :=
         match es with
         | [] => []
         | e :: es' => casesOfEntry fullPath e ++ each es'
         end) entries
  | Directory _ (Throw _) => []
  | RegularFile name parsed =>
      if endsWith name (str ".md") then
        match readCase fullPath parsed with
        | Return caseItem => [caseItem]
        | Throw _ => []
        end
      else []
  | OtherEntry _ => []
  end.

Definition casesOfDirectory (dirPath : jsstring) (listing : Completion (list dirent))
  : list Case.t :=
  match listing with
  | Return entries => flat_map (casesOfEntry dirPath) entries
  | Throw _ => []
  end.

End Paths.

Definition getCasesByCategory (cases : CaseLoader.t) (category : jsstring) : list Case.t :=
  filter (fun caseItem => streq (Case.category caseItem) category)
    (CaseLoader.getAllCases cases).

Definition getCasesByTag (cases : CaseLoader.t) (tag : jsstring) : list Case.t :=
  filter (fun caseItem =>
            existsb (fun t => includes (toLowerCase t) (toLowerCase tag))
              (Case.tags caseItem))
    (CaseLoader.getAllCases cases).

End Loader.

(** ** [VectorService]: the text to embed and the batches *)

Module Indexing.

Definition backtick : ascii := ascii_of_nat 96.

Definition fence : jsstring := [backtick; backtick; backtick].

(** The place of the first fence in a text. *)
Fixpoint fenceIndex (s : jsstring) : option nat :=
  if startsWith s fence then Some 0
  else
    match s with
    | [] => None
    | _ :: s' =>
        match fenceIndex s' with
        | Some i => Some (S i)
        | None => None
        end
    end.

(** [content.replace(/```[\s\S]*?```/g, '')]: from the left, each fence that
    has a fence behind it is removed with the nearest such fence and the text
    between them; [skip] is the number of code units of a removed span still
    to pass. *)
Fixpoint stripFences (skip : nat) (s : jsstring) : jsstring :=
  match s with
  | [] => []
  | c :: s' =>
      match skip with
      | S skip' => stripFences skip' s'
      | 0 =>
          if startsWith s fence then
            match fenceIndex (skipn 3 s) with
            | Some i => stripFences (i + 5) s'
            | None => c :: stripFences 0 s'
            end
          else c :: stripFences 0 s'
      end
  end.

(** [createSearchText] *)
Definition createSearchText (caseItem : Case.t) : jsstring :=
  let parts :=
    [Case.title caseItem; Case.category caseItem] ++ Case.tags caseItem
    ++ [Case.difficulty caseItem; stripFences 0 (Case.content caseItem)]
    ++ match Case.prerequisites caseItem with
       | Some prerequisites => prerequisites
       | None => []
       end in
  toLowerCase (join_space parts).




End Indexing.

(** An entry that the walk passes over: neither file nor directory, a
    directory that cannot be listed, a file whose name does not end in [.md],
    that cannot be read or parsed, or whose frontmatter the schema refuses. *)
Definition unusable (entry : dirent) : Prop :=
  match entry with
  | OtherEntry _ => True
  | Directory _ (Throw _) => True
  | Directory _ (Return _) => False
  | RegularFile name parsed =>
      endsWith name (str ".md") = false
      \/ (exists e, parsed = Throw e)
      \/ (exists data content e,
            parsed = Return (data, content)
            /\ CaseFrontmatterSchema_parse data = Throw e)
  end.

(** ** The script [validateCases] *)

Module Validate.

Definition optionalValue {A : Type} (f : A -> value) (o : option A) : value :=
  match o with
  | Some a => f a
  | None => VUndefined
  end.

(** The object literal handed to [CaseFrontmatterSchema.parse]. *)
Definition frontmatterOf (caseItem : Case.t) : value :=
  VObject
    [(str "id", VString (Case.id caseItem));
     (str "title", VString (Case.title caseItem));
     (str "category", VString (Case.category caseItem));
     (str "tags", VArray (map VString (Case.tags caseItem)));
     (str "difficulty", VString (Case.difficulty caseItem));
     (str "last_updated", VString (Case.lastUpdated caseItem));
     (str "tested_versions",
      optionalValue (fun r => VObject (map (fun kv => (fst kv, VString (snd kv))) r))
        (Case.testedVersions caseItem));
     (str "estimated_time", optionalValue VString (Case.estimatedTime caseItem));
     (str "prerequisites",
      optionalValue (fun l => VArray (map VString l)) (Case.prerequisites caseItem))].

Definition requiredSections : list jsstring := [str "install"; str "setup"; str "usage"].

Definition missingSections (caseItem : Case.t) : list jsstring :=
  let content := toLowerCase (Case.content caseItem) in
  filter (fun section =>
            negb (includes content (str "## " ++ section))
            && negb (includes content (str "# " ++ section)))
    requiredSections.

(** The body of the inner [try]: the sections to warn about. *)
Definition validateCase (caseItem : Case.t) : Completion (list jsstring) :=
  _ <- CaseFrontmatterSchema_parse (frontmatterOf caseItem) ;;
  Return (missingSections caseItem).

(** One turn of the loop on the pair [(validCount, errorCount)]. *)
Definition count (counts : nat * nat) (caseItem : Case.t) : nat * nat :=
  match validateCase caseItem with
  | Return _ => (S (fst counts), snd counts)
  | Throw _ => (fst counts, S (snd counts))
  end.

Definition validateCases (cases : list Case.t) : nat * nat :=
  fold_left count cases (0, 0).

(** [if (errorCount > 0) process.exit(1)] *)
Definition exitsWithFailure (cases : list Case.t) : bool :=
  0 <? snd (validateCases cases).

End Validate.

(** ** The tool [get-case] of the server *)

Module GetCaseParams.
Record t : Type := mk {
  id : jsstring;
  sections : option (list jsstring);
  maxTokens : Q
}.
End GetCaseParams.

(** [GetCaseSchema.parse(args)] *)
Definition GetCaseSchema_parse (args : value) : Completion GetCaseParams.t :=
  match args with
  | VObject _ =>
      id <- Zod.nonEmptyString (property args (str "id")) ;;
      sections <- Zod.optional Zod.arrayOfString (property args (str "sections")) ;;
      maxTokens <-
        Zod.default (Zod.numberBetween 500 16000) (VNumber 8000)
          (property args (str "maxTokens")) ;;
      Return (GetCaseParams.mk id sections maxTokens)
  | _ => Throw Zod.ZodError
  end.

Module GetCaseResponse.
Record t : Type := mk {
  id : jsstring;
  title : jsstring;
  category : jsstring;
  tags : list jsstring;
  difficulty : jsstring;
  last_updated : jsstring;
  tested_versions : option (list (jsstring * jsstring));
  estimated_time : option jsstring;
  prerequisites : option (list jsstring);
  content : jsstring
}.
End GetCaseResponse.

Module Server.

(** What a tool call answers: the text of an answer flagged [isError], or the
    object that [JSON.stringify] writes out. *)
Inductive toolResult : Type :=
| ErrorText (text : jsstring)
| CaseJson (response : GetCaseResponse.t).

(** [line.startsWith('#')] *)
Definition isHeader (line : jsstring) : bool := startsWith line (str "#").

Fixpoint dropHashes (line : jsstring) : jsstring :=
  match line with
  | c :: rest => if Ascii.eqb c "#"%char then dropHashes rest else line
  | [] => []
  end.

(** [line.replace(/^#+\s*/, '').toLowerCase()] *)
Definition headerTextOf (line : jsstring) : jsstring :=
  toLowerCase (if isHeader line then trimStart (dropHashes line) else line).

(** The callback of [sections.some] and its quantifier. *)
Definition sectionMatches (sections : list jsstring) (headerText : jsstring) : bool :=
  existsb (fun section =>
             includes headerText (toLowerCase section)
             || includes (toLowerCase section) headerText)
    sections.

(** The loop of [filterCaseSections] with its variable [includeSection];
    the result is [filteredLines]. *)
Fixpoint filterLines (sections : list jsstring) (lines : list jsstring)
  (includeSection : bool) : list jsstring :=
  match lines with
  | [] => []
  | line :: rest =>
      let includeSection :=
        if isHeader line then sectionMatches sections (headerTextOf line)
        else includeSection in
      if includeSection
      then line :: filterLines sections rest includeSection
      else filterLines sections rest includeSection
  end.

Definition filterCaseSections (content : jsstring) (sections : list jsstring) : jsstring :=
  trim (joinWith newline (filterLines sections (splitOn newline content) false)).

Definition truncationNote : jsstring :=
  newline :: newline :: str "[Content truncated due to token limit...]".

(** [s.substring(0, end)] for a number [end]: the end is cut to an integer
    and brought into the bounds of the string. *)
Definition substringTo (s : jsstring) (to : Q) : jsstring :=
  firstn (Z.to_nat (Qfloor to)) s.

(** The content before the cut to [maxTokens * 4] characters. *)
Definition selectedContent (caseItem : Case.t) (params : GetCaseParams.t) : jsstring :=
  match GetCaseParams.sections params with
  | Some ((_ :: _) as sections) => filterCaseSections (Case.content caseItem) sections
  | _ => Case.content caseItem
  end.

Definition truncateContent (content : jsstring) (maxTokens : Q) : jsstring :=
  let maxChars := (maxTokens * 4)%Q in
  if Qltb maxChars (inject_Z (Z.of_nat (length content)))
  then substringTo content maxChars ++ truncationNote
  else content.

Definition quote : ascii := ascii_of_nat 34.

Definition handleGetCase (cases : CaseLoader.t) (params : GetCaseParams.t) : toolResult :=
  match CaseLoader.getCase cases (GetCaseParams.id params) with
  | None =>
      ErrorText (str "Case with ID " ++ quote :: GetCaseParams.id params
                 ++ quote :: str " not found.")
  | Some caseItem =>
      CaseJson
        (GetCaseResponse.mk (Case.id caseItem) (Case.title caseItem)
           (Case.category caseItem) (Case.tags caseItem) (Case.difficulty caseItem)
           (Case.lastUpdated caseItem) (Case.testedVersions caseItem)
           (Case.estimatedTime caseItem) (Case.prerequisites caseItem)
           (truncateContent (selectedContent caseItem params)
              (GetCaseParams.maxTokens params)))
  end.

(** No header of the lines opens a selected section. *)
Definition noSelection (sections : list jsstring) (lines : list jsstring) : Prop :=
  forall line, In line lines -> isHeader line = true ->
    sectionMatches sections (headerTextOf line) = false.

End Server.

(** ** The logger *)

Module Logger.

Inductive LogLevel : Type := debug | info | warn | error.

Definition levelName (level : LogLevel) : jsstring :=
  match level with
  | debug => str "debug"
  | info => str "info"
  | warn => str "warn"
  | error => str "error"
  end.

(** [levels[name]] for the record [levels] of [shouldLog]; [None] is a value
    that is no number. *)
Definition levels (name : jsstring) : option nat :=
  if streq name (str "debug") then Some 0
  else if streq name (str "info") then Some 1
  else if streq name (str "warn") then Some 2
  else if streq name (str "error") then Some 3
  else None.

(** The constructor: [process.env.LOG_LEVEL || 'info']. *)
Definition configured (LOG_LEVEL : option jsstring) : jsstring :=
  match LOG_LEVEL with
  | Some ((_ :: _) as level) => level
  | _ => str "info"
  end.

(** [levels[level] >= levels[this.logLevel]]; a comparison with a value that
    is no number is false. *)
Definition shouldLog (logLevel : jsstring) (level : LogLevel) : bool :=
  match levels (levelName level), levels logLevel with
  | Some wanted, Some threshold => threshold <=? wanted
  | _, _ => false
  end.

End Logger.

(** ** Files for the closed examples of the walk *)

Module Sample.

Definition frontmatter (id category : string) : value :=
  VObject
    [(str "id", VString (str id));
     (str "title", VString (str "Stripe Checkout"));
     (str "category", VString (str category));
     (str "tags", VArray [VString (str "stripe"); VString (str "Payments")]);
     (str "difficulty", VString (str "beginner"));
     (str "last_updated", VString (str "2024-01-15"));
     (str "estimated_time", VString [])].

Definition body : jsstring :=
  str "Intro" ++ newline :: str "## Install" ++ newline :: str "npm i" ++ newline
  :: str "## Usage" ++ newline :: str "call it" ++ newline :: str "twice" ++ newline
  :: str "## Notes" ++ newline :: str "none" ++ [newline].

Definition good : dirent :=
  RegularFile (str "stripe.md") (Return (frontmatter "a" "web", body)).

(** The category [desktop] is not one of the schema. *)
Definition refused : dirent :=
  RegularFile (str "desktop.md") (Return (frontmatter "d" "desktop", body)).

Definition unreadable : dirent :=
  RegularFile (str "locked.md") (Throw (Error (str "EACCES"))).

Definition slashJoin (dir name : jsstring) : jsstring := dir ++ "/"%char :: name.

Definition tree : Completion (list dirent) :=
  Return [Directory (str "mobile") (Return [good; refused]);
          unreadable;
          OtherEntry (str "socket");
          Directory (str "private") (Throw (Error (str "EACCES")))].

End Sample.

(** What the schema asks of a document. *)
Definition schemaValid (c : Case.t) : Prop :=
  Case.id c <> []
  /\ Case.title c <> []
  /\ In (Case.category c) categories
  /\ Case.tags c <> []
  /\ In (Case.difficulty c) difficulties
  /\ isDate (Case.lastUpdated c) = true
  /\ Case.estimatedTime c <> Some [].

(** * Properties *)

(** ** The excerpt extractor *)

Section Excerpt.

Variable terms : list jsstring.

Let score := sentenceScore terms.

(** The loop keeps the earliest sentence of maximal score among the current
    best and the sentences still to visit. *)
Lemma bestLoop_earliest_maximum (rest : list jsstring) :
  forall best,
  exists pre post,
    best :: rest = pre ++ bestLoop terms rest best (score best) :: post
    /\ (forall s, In s pre -> score s < score (bestLoop terms rest best (score best)))
    /\ (forall s, In s post -> score s <= score (bestLoop terms rest best (score best))).
Proof.
  induction rest as [|s rest IH]; intros best; simpl.
  - exists [], []. repeat split; simpl; tauto.
  - fold score. destruct (score best <? score s) eqn:Hlt.
    + apply Nat.ltb_lt in Hlt.
      destruct (IH s) as (pre & post & Heq & Hpre & Hpost).
      exists (best :: pre), post. split; [simpl; now rewrite <- Heq|]. split; [|exact Hpost].
      intros x [<-|Hx]; [|now apply Hpre].
      destruct pre as [|p pre]; simpl in Heq; injection Heq as Hhd _.
      * now rewrite <- Hhd.
      * subst p. specialize (Hpre s (or_introl eq_refl)). lia.
    + apply Nat.ltb_ge in Hlt.
      destruct (IH best) as (pre & post & Heq & Hpre & Hpost).
      destruct pre as [|p pre]; simpl in Heq; injection Heq as Hhd Htl.
      * exists [], (s :: rest). rewrite <- Hhd. split; [reflexivity|].
        split; [intros x []|]. intros x [<-|Hx]; [exact Hlt|].
        rewrite Hhd. apply Hpost. now rewrite <- Htl.
      * subst p. exists (best :: s :: pre), post.
        split; [simpl; do 2 f_equal; exact Htl|]. split; [|exact Hpost].
        pose proof (Hpre best (or_introl eq_refl)) as Hb.
        intros x [<-|[<-|Hx]]; [exact Hb|lia|]. apply Hpre. now right.
Qed.

(** The first turn of the loop leaves the first sentence with its own score
    in the two variables, whether its score is positive or not. *)
Lemma bestLoop_first_turn (s : jsstring) (rest : list jsstring) :
  bestLoop terms (s :: rest) s 0 = bestLoop terms rest s (score s).
Proof.
  simpl. fold score. destruct (0 <? score s) eqn:H; [reflexivity|].
  apply Nat.ltb_ge in H. now replace (score s) with 0 by lia.
Qed.

End Excerpt.

(** C7 (as amended).  The sentence chosen by [createExcerpt] is the empty
    string when the content yields no sentence; otherwise it is the earliest
    sentence whose score is maximal, where the score of a sentence counts the
    whitespace tokens of the lowercased query (no length filter, repeated
    tokens counted each time) that the lowercased sentence includes.  In
    particular it is the first sentence when no sentence scores above zero. *)
Theorem chosenSentence_earliest_maximum (content query : jsstring) :
  (sentences content = [] -> chosenSentence content query = [])
  /\ (sentences content <> [] ->
      exists pre post,
        sentences content = pre ++ chosenSentence content query :: post
        /\ (forall s, In s pre ->
              sentenceScore (excerptTerms query) s
              < sentenceScore (excerptTerms query) (chosenSentence content query))
        /\ (forall s, In s post ->
              sentenceScore (excerptTerms query) s
              <= sentenceScore (excerptTerms query) (chosenSentence content query)))
  /\ ((forall s, In s (sentences content) -> sentenceScore (excerptTerms query) s = 0) ->
      chosenSentence content query = hd [] (sentences content)).
Proof.
  unfold chosenSentence.
  destruct (sentences content) as [|s0 rest] eqn:Hss; simpl hd.
  - split; [reflexivity|]. split; [congruence|reflexivity].
  - rewrite bestLoop_first_turn.
    destruct (bestLoop_earliest_maximum (excerptTerms query) rest s0)
      as (pre & post & Heq & Hpre & Hpost).
    split; [discriminate|]. split.
    + intros _. exists pre, post. auto.
    + intros Hzero. destruct pre as [|p pre]; simpl in Heq; injection Heq as Hhd Htl.
      * now symmetry.
      * subst p. specialize (Hpre s0 (or_introl eq_refl)).
        assert (In (bestLoop (excerptTerms query) rest s0
                      (sentenceScore (excerptTerms query) s0)) (s0 :: rest)) as Hin.
        { right. remember (bestLoop _ _ _ _) as b eqn:Hb in *. clear Hb.
          rewrite Htl. apply in_or_app. right. now left. }
        apply Hzero in Hin. lia.
Qed.

(** C7, the claim as stated fails: with the query ["aa aa aa bb cc"] the
    sentence ["aa"] is chosen (three of the five tokens hit it), although the
    sentence ["bb cc"] has two distinct tokens in it and ["aa"] only one. *)
Lemma chosenSentence_counts_repeated_tokens :
  chosenSentence (str "bb cc. aa.") (str "aa aa aa bb cc") = str "aa"
  /\ sentences (str "bb cc. aa.") = [str "bb cc"; str "aa"]
  /\ distinctHitCount (str "aa aa aa bb cc") (str "aa") = 1
  /\ distinctHitCount (str "aa aa aa bb cc") (str "bb cc") = 2
  /\ sentenceScore (excerptTerms (str "aa aa aa bb cc")) (str "aa") = 3
  /\ sentenceScore (excerptTerms (str "aa aa aa bb cc")) (str "bb cc") = 2.
Proof.
  split; [vm_compute; reflexivity|]. split; [vm_compute; reflexivity|].
  split; [vm_compute; reflexivity|]. split; [vm_compute; reflexivity|].
  split; vm_compute; reflexivity.
Qed.

(** C8 (as amended).  For every [maxLength] the excerpt is the chosen
    sentence itself when that sentence has at most [maxLength] characters,
    and otherwise its first [maxLength - 3] characters followed by ["..."];
    when [maxLength] is at least 3, as the default 200 of every call is, the
    excerpt has at most [maxLength] characters. *)
Theorem createExcerpt_length (content query : jsstring) (maxLength : nat) :
  (3 <= maxLength -> length (createExcerpt content query maxLength) <= maxLength)
  /\ (length (chosenSentence content query) <= maxLength ->
      createExcerpt content query maxLength = chosenSentence content query)
  /\ (maxLength < length (chosenSentence content query) ->
      createExcerpt content query maxLength
      = firstn (maxLength - 3) (chosenSentence content query) ++ str "...").
Proof.
  unfold createExcerpt, truncateExcerpt.
  destruct (maxLength <? length (chosenSentence content query)) eqn:Hlt.
  - apply Nat.ltb_lt in Hlt. split; [|split; [lia|reflexivity]].
    intros Hmax. rewrite length_app, length_firstn. simpl. lia.
  - apply Nat.ltb_ge in Hlt. split; [intros _; exact Hlt|]. split; [reflexivity|lia].
Qed.

(** C8, the claim as stated fails for [maxLength] below 3: a sentence of six
    characters cut for [maxLength = 2] gives the three characters ["..."]. *)
Lemma createExcerpt_longer_than_maxLength :
  createExcerpt (str "abcdef") (str "abc") 2 = str "..."
  /\ length (createExcerpt (str "abcdef") (str "abc") 2) = 3.
Proof. split; vm_compute; reflexivity. Qed.

(** ** The stable sort by descending relevance *)

Lemma Qltb_lt (x y : Q) : Qltb x y = true <-> (x < y)%Q.
Proof.
  unfold Qltb. rewrite negb_true_iff. split; intros H.
  - apply Qnot_le_lt. intros Hle. apply Qle_bool_iff in Hle. congruence.
  - destruct (Qle_bool y x) eqn:E; [|reflexivity].
    apply Qle_bool_iff in E. exfalso. exact (Qlt_not_le _ _ H E).
Qed.

Lemma Qltb_ge (x y : Q) : Qltb x y = false <-> (y <= x)%Q.
Proof.
  unfold Qltb. rewrite negb_false_iff. apply Qle_bool_iff.
Qed.

Lemma byRelevance_swaps (a b : CaseSearchResult.t) :
  Qltb 0 (byRelevance a b) = true <-> (scoreOf a < scoreOf b)%Q.
Proof. rewrite Qltb_lt. unfold byRelevance. split; intros H; lra. Qed.

Lemma byRelevance_keeps (a b : CaseSearchResult.t) :
  Qltb 0 (byRelevance a b) = false <-> (scoreOf b <= scoreOf a)%Q.
Proof. rewrite Qltb_ge. unfold byRelevance. split; intros H; lra. Qed.

Section StableSort.

Context {A : Type} (cmp : A -> A -> Q).

Lemma insertSorted_perm (x : A) (l : list A) :
  Permutation (insertSorted cmp x l) (x :: l).
Proof.
  induction l as [|y l IH]; simpl; [reflexivity|].
  destruct (Qltb 0 (cmp x y)); [|reflexivity].
  rewrite IH. apply perm_swap.
Qed.

Lemma js_sort_perm (l : list A) : Permutation (js_sort cmp l) l.
Proof.
  induction l as [|x l IH]; simpl; [reflexivity|].
  rewrite insertSorted_perm. now rewrite IH.
Qed.

Lemma js_sort_length (l : list A) : length (js_sort cmp l) = length l.
Proof. apply Permutation_length, js_sort_perm. Qed.

Lemma js_sort_In (l : list A) (x : A) : In x (js_sort cmp l) <-> In x l.
Proof.
  split; apply Permutation_in; [|symmetry]; apply js_sort_perm.
Qed.

End StableSort.

Lemma insertSorted_descending (x : CaseSearchResult.t) (l : list CaseSearchResult.t) :
  descending l -> descending (insertSorted byRelevance x l).
Proof.
  unfold descending. induction l as [|y l IH]; simpl; intros Hl.
  - constructor; constructor.
  - apply StronglySorted_inv in Hl as [Hl Hy].
    destruct (Qltb 0 (byRelevance x y)) eqn:Hc.
    + apply byRelevance_swaps in Hc. constructor; [now apply IH|].
      rewrite Forall_forall in *. intros z Hz.
      apply (Permutation_in _ (insertSorted_perm byRelevance x l)) in Hz.
      destruct Hz as [<-|Hz]; [now apply Qlt_le_weak|now apply Hy].
    + apply byRelevance_keeps in Hc. constructor; [now constructor|].
      constructor; [exact Hc|]. rewrite Forall_forall in *. intros z Hz.
      apply Hy in Hz. lra.
Qed.

Lemma js_sort_descending (l : list CaseSearchResult.t) :
  descending (js_sort byRelevance l).
Proof.
  induction l as [|x l IH]; simpl; [constructor|now apply insertSorted_descending].
Qed.

Lemma insertSorted_withScore (s : Q) (x : CaseSearchResult.t) (l : list CaseSearchResult.t) :
  withScore s (insertSorted byRelevance x l) = withScore s (x :: l).
Proof.
  induction l as [|y l IH]; simpl; [reflexivity|].
  destruct (Qltb 0 (byRelevance x y)) eqn:Hc; [|reflexivity].
  apply byRelevance_swaps in Hc. simpl in *. rewrite IH.
  destruct (Qeq_bool (scoreOf x) s) eqn:Hx, (Qeq_bool (scoreOf y) s) eqn:Hy;
    try reflexivity.
  apply Qeq_bool_iff in Hx, Hy. rewrite Hx, Hy in Hc. now apply Qlt_irrefl in Hc.
Qed.

(** Stability: results of equal score keep the order they had. *)
Lemma js_sort_stable (s : Q) (l : list CaseSearchResult.t) :
  withScore s (js_sort byRelevance l) = withScore s l.
Proof.
  induction l as [|x l IH]; simpl; [reflexivity|].
  rewrite insertSorted_withScore. simpl. now rewrite IH.
Qed.

(** A list already in descending order is left as it is. *)
Lemma js_sort_descending_id (l : list CaseSearchResult.t) :
  descending l -> js_sort byRelevance l = l.
Proof.
  unfold descending. induction l as [|x l IH]; simpl; intros Hl; [reflexivity|].
  apply StronglySorted_inv in Hl as [Hl Hx]. rewrite (IH Hl).
  destruct l as [|y l]; simpl; [reflexivity|].
  apply Forall_inv in Hx. apply byRelevance_keeps in Hx. now rewrite Hx.
Qed.

Lemma In_firstn {A : Type} (n : nat) (l : list A) (x : A) :
  In x (firstn n l) -> In x l.
Proof.
  intros H. rewrite <- (firstn_skipn n l). apply in_or_app. now left.
Qed.

Lemma descending_firstn (n : nat) (l : list CaseSearchResult.t) :
  descending l -> descending (firstn n l).
Proof.
  unfold descending. revert n. induction l as [|x l IH]; intros [|n] Hl; simpl;
    try constructor.
  - apply IH. now apply StronglySorted_inv in Hl.
  - apply StronglySorted_inv in Hl as [_ Hx]. rewrite Forall_forall in *.
    intros y Hy. apply Hx. eapply In_firstn, Hy.
Qed.

(** ** Insertion-ordered maps *)

Lemma streq_eq (a b : jsstring) : streq a b = true <-> a = b.
Proof. unfold streq. destruct (list_eq_dec ascii_dec a b); split; congruence. Qed.

Lemma streq_neq (a b : jsstring) : streq a b = false <-> a <> b.
Proof. unfold streq. destruct (list_eq_dec ascii_dec a b); split; congruence. Qed.

Lemma streq_refl (a : jsstring) : streq a a = true.
Proof. now apply streq_eq. Qed.

Section MapFacts.

Context {V : Type}.
Implicit Types (m : JsMap V) (k : jsstring) (v : V).

Lemma map_has_In m k : map_has m k = true <-> In k (keys m).
Proof.
  unfold map_has, keys. rewrite existsb_exists, in_map_iff. split.
  - intros (e & He & Hk). apply streq_eq in Hk. now exists e.
  - intros (e & Hk & He). exists e. split; [exact He|]. now apply streq_eq.
Qed.

Lemma map_has_not_In m k : map_has m k = false <-> ~ In k (keys m).
Proof.
  rewrite <- map_has_In. destruct (map_has m k); split; congruence.
Qed.

Lemma map_set_new m k v : ~ In k (keys m) -> map_set k v m = m ++ [(k, v)].
Proof.
  induction m as [|[k' v'] m IH]; simpl; intros Hk; [reflexivity|].
  destruct (streq k' k) eqn:E.
  - apply streq_eq in E. tauto.
  - rewrite IH; tauto.
Qed.

Lemma map_set_In m k v (e : jsstring * V) :
  In e (map_set k v m) -> e = (k, v) \/ In e m.
Proof.
  induction m as [|[k' v'] m IH]; simpl.
  - intros [<-|[]]. now left.
  - destruct (streq k' k); simpl; intros [<-|H]; auto.
    destruct (IH H); auto.
Qed.

Lemma map_set_keys m k v :
  keys (map_set k v m) = if map_has m k then keys m else keys m ++ [k].
Proof.
  induction m as [|[k' v'] m IH]; simpl; [reflexivity|].
  unfold map_has in *. simpl. destruct (streq k' k) eqn:E; simpl.
  - apply streq_eq in E. now subst.
  - rewrite IH. now destruct (existsb _ m).
Qed.

Lemma map_set_NoDup m k v : NoDup (keys m) -> NoDup (keys (map_set k v m)).
Proof.
  intros H. rewrite map_set_keys. destruct (map_has m k) eqn:E; [exact H|].
  apply map_has_not_In in E. apply NoDup_app; [exact H| repeat constructor; simpl; tauto |].
  intros x Hx [<-|[]]. contradiction.
Qed.

Lemma map_get_set_same m k v : map_get (map_set k v m) k = Some v.
Proof.
  induction m as [|[k' v'] m IH]; simpl.
  - now rewrite streq_refl.
  - destruct (streq k' k) eqn:E; simpl; [now rewrite streq_refl|now rewrite E].
Qed.

Lemma map_get_set_other m k k' v :
  k <> k' -> map_get (map_set k v m) k' = map_get m k'.
Proof.
  intros Hk. induction m as [|[k0 v0] m IH]; simpl.
  - now apply streq_neq in Hk as ->.
  - destruct (streq k0 k) eqn:E; simpl.
    + apply streq_eq in E. subst k0. now apply streq_neq in Hk as ->.
    + now rewrite IH.
Qed.

Lemma map_get_In m k v : NoDup (keys m) -> In (k, v) m -> map_get m k = Some v.
Proof.
  induction m as [|[k' v'] m IH]; simpl; intros Hnd; [tauto|].
  apply NoDup_cons_iff in Hnd as [Hk' Hnd]. intros [[= -> ->]|Hin].
  - now rewrite streq_refl.
  - destruct (streq k' k) eqn:E; [|now apply IH].
    apply streq_eq in E. subst k'. exfalso. apply Hk'.
    unfold keys. apply in_map_iff. now exists (k, v).
Qed.

End MapFacts.

(** ** The document store *)

Lemma loadCase_wellKeyed (cases : CaseLoader.t) (c : Case.t) :
  wellKeyed cases -> wellKeyed (CaseLoader.loadCase cases c).
Proof.
  intros [Hnd Hid]. split.
  - now apply map_set_NoDup.
  - intros k c' Hin. apply map_set_In in Hin as [[= -> ->]|Hin]; [reflexivity|].
    now apply Hid.
Qed.

Lemma loadAllCases_wellKeyed (parsed : list Case.t) :
  wellKeyed (CaseLoader.loadAllCases parsed).
Proof.
  unfold CaseLoader.loadAllCases.
  assert (wellKeyed []) as H0 by (split; [constructor|intros ? ? []]).
  revert H0. generalize (@nil (jsstring * Case.t)).
  induction parsed as [|c parsed IH]; simpl; intros m Hm; [exact Hm|].
  apply IH. now apply loadCase_wellKeyed.
Qed.

Lemma wellKeyed_ids (cases : CaseLoader.t) :
  wellKeyed cases -> map Case.id (CaseLoader.getAllCases cases) = keys cases.
Proof.
  intros [_ Hid]. unfold CaseLoader.getAllCases, map_values, keys.
  rewrite map_map. apply map_ext_in. intros [k c] Hin. simpl. now apply Hid.
Qed.

Lemma getAllCases_NoDup (cases : CaseLoader.t) :
  wellKeyed cases -> NoDup (map Case.id (CaseLoader.getAllCases cases)).
Proof. intros H. rewrite wellKeyed_ids by exact H. apply H. Qed.

Lemma getCase_getAllCases (cases : CaseLoader.t) (c : Case.t) :
  wellKeyed cases -> In c (CaseLoader.getAllCases cases) ->
  CaseLoader.getCase cases (Case.id c) = Some c.
Proof.
  intros [Hnd Hid] Hin. unfold CaseLoader.getAllCases, map_values in Hin.
  apply in_map_iff in Hin as ([k c'] & Hc & Hin). simpl in Hc. subst c'.
  unfold CaseLoader.getCase. apply map_get_In; [exact Hnd|].
  now rewrite (Hid _ _ Hin).
Qed.

Lemma filter_keeps_distinct_keys {Item Key : Type} (key : Item -> Key)
  (keep : Item -> bool) (items : list Item) (Hkeys : NoDup (map key items)) :
  NoDup (map key (filter keep items)).
Proof.
  induction items as [|x items IH]; simpl; [constructor|].
  simpl in Hkeys. apply NoDup_cons_iff in Hkeys as [Hx Hkeys].
  destruct (keep x); simpl; [|now apply IH].
  constructor; [|now apply IH]. intros Hin. apply Hx.
  apply in_map_iff in Hin as (y & Hy & Hin). apply filter_In in Hin as [Hin _].
  apply in_map_iff. now exists y.
Qed.

(** ** Keyword search *)

Lemma mapM_Forall2 {A B : Type} (f : A -> Completion B) (xs : list A) (ys : list B) :
  mapM f xs = Return ys -> Forall2 (fun x y => f x = Return y) xs ys.
Proof.
  revert ys. induction xs as [|x xs IH]; simpl; intros ys H.
  - injection H as <-. constructor.
  - destruct (f x) as [y|e] eqn:Hx; simpl in H; [|discriminate].
    destruct (mapM f xs) as [ys'|e] eqn:Hxs; simpl in H; [|discriminate].
    injection H as <-. constructor; [exact Hx|now apply IH].
Qed.

Lemma Forall2_In_l {A B : Type} {R : A -> B -> Prop} {xs : list A} {ys : list B} {x : A} :
  Forall2 R xs ys -> In x xs -> exists y, In y ys /\ R x y.
Proof.
  induction 1 as [|x' y' xs ys Hxy _ IH]; simpl; [tauto|].
  intros [<-|Hin].
  - exists y'. auto.
  - destruct (IH Hin) as (y & Hy & HR). exists y. auto.
Qed.

Lemma Forall2_In_r {A B : Type} {R : A -> B -> Prop} {xs : list A} {ys : list B} {y : B} :
  Forall2 R xs ys -> In y ys -> exists x, In x xs /\ R x y.
Proof.
  induction 1 as [|x' y' xs ys Hxy _ IH]; simpl; [tauto|].
  intros [<-|Hin].
  - exists x'. auto.
  - destruct (IH Hin) as (x & Hx & HR). exists x. auto.
Qed.

Lemma mapM_Throw {A B : Type} (f : A -> Completion B) (xs : list A) :
  xs <> [] -> (forall x, In x xs -> exists e, f x = Throw e) ->
  exists e, mapM f xs = Throw e.
Proof.
  destruct xs as [|x xs]; [congruence|]. intros _ H.
  destruct (H x (or_introl eq_refl)) as [e He]. exists e. simpl. now rewrite He.
Qed.

Section KeywordSearch.

Variable matchCount : jsstring -> jsstring -> Completion nat.

Lemma scoreCase_inv (query : jsstring) (terms : list jsstring) (c : Case.t)
  (r : CaseSearchResult.t) :
  scoreCase matchCount query terms c = Return r ->
  fromCase c r
  /\ keywordScore matchCount terms c = Return (scoreOf r)
  /\ CaseSearchResult.excerpt r = createExcerpt (Case.content c) query defaultMaxLength.
Proof.
  unfold scoreCase. destruct (keywordScore matchCount terms c) as [s|e]; simpl;
    [|discriminate].
  intros [= <-]. simpl. unfold fromCase. simpl. auto.
Qed.

Lemma performKeywordSearch_inv (cases : list Case.t) (query : jsstring)
  (kms : list CaseSearchResult.t) :
  performKeywordSearch matchCount cases query = Return kms ->
  exists scored,
    Forall2 (fun c r => scoreCase matchCount query (queryTerms query) c = Return r)
      cases scored
    /\ kms = js_sort byRelevance (filter (fun r => Qltb 0 (scoreOf r)) scored).
Proof.
  unfold performKeywordSearch.
  destruct (mapM _ cases) as [scored|e] eqn:Hm; simpl; [|discriminate].
  intros [= <-]. exists scored. split; [now apply mapM_Forall2|reflexivity].
Qed.

Lemma performKeywordSearch_descending (cases : list Case.t) (query : jsstring)
  (kms : list CaseSearchResult.t) :
  performKeywordSearch matchCount cases query = Return kms -> descending kms.
Proof.
  intros H. apply performKeywordSearch_inv in H as (scored & _ & ->).
  apply js_sort_descending.
Qed.

(** Each keyword match is one of the scored documents, with a positive score. *)
Lemma performKeywordSearch_sound (cases : list Case.t) (query : jsstring)
  (kms : list CaseSearchResult.t) (r : CaseSearchResult.t) :
  performKeywordSearch matchCount cases query = Return kms -> In r kms ->
  (0 < scoreOf r)%Q
  /\ exists c, In c cases /\ fromCase c r
       /\ keywordScore matchCount (queryTerms query) c = Return (scoreOf r).
Proof.
  intros H Hr. apply performKeywordSearch_inv in H as (scored & Hf & ->).
  apply js_sort_In, filter_In in Hr as [Hr Hpos]. apply Qltb_lt in Hpos.
  split; [exact Hpos|].
  destruct (Forall2_In_r Hf Hr) as (c & Hc & Hs).
  apply scoreCase_inv in Hs as (Hfrom & Hscore & _). now exists c.
Qed.

(** Each document of positive score is among the keyword matches. *)
Lemma performKeywordSearch_complete (cases : list Case.t) (query : jsstring)
  (kms : list CaseSearchResult.t) (c : Case.t) (s : Q) :
  performKeywordSearch matchCount cases query = Return kms -> In c cases ->
  keywordScore matchCount (queryTerms query) c = Return s -> (0 < s)%Q ->
  exists r, In r kms /\ fromCase c r /\ scoreOf r = s.
Proof.
  intros H Hc Hs Hpos. apply performKeywordSearch_inv in H as (scored & Hf & ->).
  destruct (Forall2_In_l Hf Hc) as (r & Hr & Hsc).
  apply scoreCase_inv in Hsc as (Hfrom & Hscore & _).
  rewrite Hs in Hscore. injection Hscore as Hscore.
  exists r. split; [|now split].
  apply js_sort_In, filter_In. split; [exact Hr|]. apply Qltb_lt. now rewrite <- Hscore.
Qed.

Lemma performKeywordSearch_ids (cases : list Case.t) (query : jsstring)
  (kms : list CaseSearchResult.t) :
  performKeywordSearch matchCount cases query = Return kms ->
  NoDup (map Case.id cases) -> NoDup (map CaseSearchResult.id kms).
Proof.
  intros H Hnd. apply performKeywordSearch_inv in H as (scored & Hf & ->).
  apply (Permutation_NoDup (l := map CaseSearchResult.id
                                   (filter (fun r => Qltb 0 (scoreOf r)) scored))).
  - apply Permutation_map. symmetry. apply js_sort_perm.
  - apply filter_keeps_distinct_keys.
    replace (map CaseSearchResult.id scored) with (map Case.id cases); [exact Hnd|].
    clear Hnd. induction Hf as [|c r cases scored Hs _ IH]; simpl; [reflexivity|].
    apply scoreCase_inv in Hs as ((Hid & _) & _). now rewrite Hid, IH.
Qed.

End KeywordSearch.

(** ** The result mapping *)

Lemma filterBy_In (field : Case.t -> jsstring) (wanted : option jsstring)
  (l : list Case.t) (c : Case.t) :
  In c (filterBy field wanted l) ->
  In c l /\ forall value, wanted = Some value -> value <> [] -> field c = value.
Proof.
  unfold filterBy. destruct wanted as [[|ch value]|]; simpl.
  - intros H. split; [exact H|]. intros v [= <-]. congruence.
  - intros H. apply filter_In in H as [H Heq]. apply streq_eq in Heq.
    split; [exact H|]. now intros v [= <-].
  - intros H. split; [exact H|]. discriminate.
Qed.

Lemma filterBy_NoDup (field : Case.t -> jsstring) (wanted : option jsstring)
  (l : list Case.t) :
  NoDup (map Case.id l) -> NoDup (map Case.id (filterBy field wanted l)).
Proof.
  unfold filterBy. destruct wanted as [[|ch value]|]; simpl; auto.
  apply filter_keeps_distinct_keys.
Qed.

Lemma find_id (filtered : list Case.t) (id : jsstring) (c : Case.t) :
  find (fun c => streq (Case.id c) id) filtered = Some c ->
  In c filtered /\ Case.id c = id.
Proof.
  intros H. apply find_some in H as [Hin Heq]. now apply streq_eq in Heq.
Qed.

Lemma vectorHit_fromCase (query : jsstring) (c : Case.t) (s : Q) :
  fromCase c (vectorHit query c s).
Proof. unfold fromCase, vectorHit. simpl. auto. Qed.

Lemma vectorStep_invariant (filtered : list Case.t) (query : jsstring)
  (m : JsMap CaseSearchResult.t) (hit : VectorSearchResult.t) :
  NoDup (keys m) /\ resultsFrom filtered m ->
  NoDup (keys (vectorStep filtered query m hit))
  /\ resultsFrom filtered (vectorStep filtered query m hit).
Proof.
  intros [Hnd Hfrom]. unfold vectorStep.
  destruct (find _ filtered) as [c|] eqn:Hfind; [|now split].
  apply find_id in Hfind as [Hin _]. split; [now apply map_set_NoDup|].
  intros k r Hkr. apply map_set_In in Hkr as [[= -> ->]|Hkr]; [|now apply Hfrom].
  split; [reflexivity|]. exists c. split; [exact Hin|apply vectorHit_fromCase].
Qed.

Lemma vectorLoop_invariant (filtered : list Case.t) (query : jsstring)
  (hits : list VectorSearchResult.t) :
  NoDup (keys (vectorLoop filtered query hits))
  /\ resultsFrom filtered (vectorLoop filtered query hits).
Proof.
  unfold vectorLoop.
  assert (NoDup (keys (@nil (jsstring * CaseSearchResult.t)))
          /\ resultsFrom filtered []) as H0
    by (split; [constructor|intros ? ? []]).
  revert H0. generalize (@nil (jsstring * CaseSearchResult.t)).
  induction hits as [|hit hits IH]; simpl; intros m Hm; [exact Hm|].
  apply IH. now apply vectorStep_invariant.
Qed.

(** The second loop appends the keyword matches, in their order, for as long
    as the mapping has fewer than [limit] entries. *)
Lemma keywordLoop_appends (limit : nat) (kms : list CaseSearchResult.t) :
  NoDup (map CaseSearchResult.id kms) ->
  forall m : JsMap CaseSearchResult.t,
  (forall r, In r kms -> ~ In (CaseSearchResult.id r) (keys m)) ->
  fold_left (keywordStep limit) kms m
  = m ++ map entry (firstn (limit - map_size m) kms).
Proof.
  induction kms as [|r kms IH]; intros Hnd m Hfresh; simpl.
  - now rewrite firstn_nil, app_nil_r.
  - apply NoDup_cons_iff in Hnd as [Hr Hnd]. unfold keywordStep at 2.
    destruct (map_size m <? limit) eqn:Hlt.
    + apply Nat.ltb_lt in Hlt.
      rewrite map_set_new by (apply Hfresh; now left).
      rewrite IH; [|exact Hnd|].
      * unfold map_size in *. rewrite length_app. simpl.
        replace (limit - length m) with (S (limit - (length m + 1))) by lia.
        simpl. now rewrite <- app_assoc.
      * intros r' Hr' Hin. unfold keys in Hin. rewrite map_app in Hin.
        apply in_app_or in Hin as [Hin|[Heq|[]]].
        -- apply (Hfresh r'); [now right|exact Hin].
        -- simpl in Heq. apply Hr. rewrite Heq. now apply in_map.
    + apply Nat.ltb_ge in Hlt. rewrite IH; [|exact Hnd|].
      * now replace (limit - map_size m) with 0 by lia.
      * intros r' Hr'. apply Hfresh. now right.
Qed.

Section ResultMapping.

Variable matchCount : jsstring -> jsstring -> Completion nat.
Variable vectorSearch : jsstring -> nat -> Completion (list VectorSearchResult.t).
Variable cases : CaseLoader.t.
Hypothesis cases_wellKeyed : wellKeyed cases.

Lemma filteredCases_In (options : Options.t) (c : Case.t) :
  In c (filteredCases cases options) ->
  In c (CaseLoader.getAllCases cases)
  /\ (forall value, Options.category options = Some value -> value <> [] ->
        Case.category c = value)
  /\ (forall value, Options.difficulty options = Some value -> value <> [] ->
        Case.difficulty c = value).
Proof.
  unfold filteredCases. intros H.
  apply filterBy_In in H as [H Hd]. apply filterBy_In in H as [H Hc]. auto.
Qed.

Lemma filteredCases_NoDup (options : Options.t) :
  NoDup (map Case.id (filteredCases cases options)).
Proof.
  unfold filteredCases. do 2 apply filterBy_NoDup.
  now apply getAllCases_NoDup.
Qed.

(** The shape of the result mapping: the entries of the vector loop, then
    the first keyword matches that fit under [limit]. *)
Lemma resultMapping_shape (query : jsstring) (options : Options.t)
  (m : JsMap CaseSearchResult.t) :
  resultMapping matchCount vectorSearch cases query options = Return m ->
  exists hits kms,
    vectorSearch query (optionsLimit options * 2) = Return hits
    /\ performKeywordSearch matchCount
         (filter (fun c => negb (map_has
                    (vectorLoop (filteredCases cases options) query hits) (Case.id c)))
            (filteredCases cases options)) query = Return kms
    /\ m = vectorLoop (filteredCases cases options) query hits
           ++ map entry
                (firstn (optionsLimit options
                         - map_size (vectorLoop (filteredCases cases options) query hits))
                   kms).
Proof.
  unfold resultMapping.
  destruct (vectorSearch query _) as [hits|e] eqn:Hv; simpl; [|discriminate].
  destruct (performKeywordSearch _ _ query) as [kms|e] eqn:Hk; simpl; [|discriminate].
  intros [= <-]. exists hits, kms. split; [reflexivity|]. split; [exact Hk|].
  apply keywordLoop_appends.
  - apply (performKeywordSearch_ids _ _ _ _ Hk).
    apply filter_keeps_distinct_keys, filteredCases_NoDup.
  - intros r Hr Hin.
    destruct (performKeywordSearch_sound _ _ _ _ r Hk Hr) as (_ & c & Hc & (Hid & _) & _).
    apply filter_In in Hc as [_ Hc]. apply negb_true_iff, map_has_not_In in Hc.
    apply Hc. now rewrite <- Hid.
Qed.

End ResultMapping.

(** ** The search operation *)

Lemma filter_all {A : Type} (p : A -> bool) (l : list A) :
  (forall x, In x l -> p x = true) -> filter p l = l.
Proof.
  induction l as [|x l IH]; simpl; intros H; [reflexivity|].
  rewrite (H x (or_introl eq_refl)). f_equal. apply IH. intros y Hy. apply H. now right.
Qed.

Lemma map_values_entries (l : list CaseSearchResult.t) : map_values (map entry l) = l.
Proof. unfold map_values. rewrite map_map. simpl. apply map_id. Qed.

(** [searchCases] always returns, and never more than [limit] results. *)
Lemma searchCases_returns (matchCount : jsstring -> jsstring -> Completion nat)
  (vectorSearch : jsstring -> nat -> Completion (list VectorSearchResult.t))
  (cases : CaseLoader.t) (query : jsstring) (options : Options.t) :
  exists results,
    searchCases matchCount vectorSearch cases query options = Return results
    /\ length results <= optionsLimit options.
Proof.
  unfold searchCases.
  destruct (resultMapping matchCount vectorSearch cases query options) as [m|e]; simpl.
  - eexists. split; [reflexivity|]. apply firstn_le_length.
  - exists []. split; [reflexivity|]. simpl. lia.
Qed.

(** C4.  For every query, store, vector service and limit [L] from 1 to 20,
    [searchCases] returns a list of at most [L] results. *)
Theorem search_length_at_most_limit
  (matchCount : jsstring -> jsstring -> Completion nat)
  (vectorSearch : jsstring -> nat -> Completion (list VectorSearchResult.t))
  (cases : CaseLoader.t) (query : jsstring)
  (category difficulty : option jsstring) (L : nat) :
  1 <= L <= 20 ->
  exists results,
    searchCases matchCount vectorSearch cases query
      (Options.mk category difficulty (Some L)) = Return results
    /\ length results <= L.
Proof.
  intros _.
  apply (searchCases_returns matchCount vectorSearch cases query
           (Options.mk category difficulty (Some L))).
Qed.

Lemma search_length_at_most_limit_witness :
  1 <= 1 <= 20
  /\ exists results,
       searchCases RegExp.matchCount
         (searchSimilar Fixture.embeddings_up Fixture.index_both) Fixture.store
         (str "stripe checkout") (Options.mk None None (Some 1)) = Return results
       /\ length results <= 1.
Proof.
  split; [lia|].
  apply (search_length_at_most_limit RegExp.matchCount
           (searchSimilar Fixture.embeddings_up Fixture.index_both) Fixture.store
           (str "stripe checkout") None None 1).
  lia.
Defined.

(** C5.  When a category filter, or a difficulty filter, is given (a
    non-empty string: the code reads the option as a condition), every result
    of [searchCases] copies the document that the store holds under the
    result's id, and the category, or the difficulty, of that document is the
    requested value.  The store is one that [loadAllCases] built. *)
Theorem search_respects_filters
  (matchCount : jsstring -> jsstring -> Completion nat)
  (vectorSearch : jsstring -> nat -> Completion (list VectorSearchResult.t))
  (parsed : list Case.t) (query : jsstring) (options : Options.t)
  (results : list CaseSearchResult.t) (r : CaseSearchResult.t) :
  searchCases matchCount vectorSearch (CaseLoader.loadAllCases parsed) query options
  = Return results ->
  In r results ->
  exists c,
    CaseLoader.getCase (CaseLoader.loadAllCases parsed) (CaseSearchResult.id r) = Some c
    /\ fromCase c r
    /\ (forall value, Options.category options = Some value -> value <> [] ->
          Case.category c = value /\ CaseSearchResult.category r = value)
    /\ (forall value, Options.difficulty options = Some value -> value <> [] ->
          Case.difficulty c = value).
Proof.
  pose proof (loadAllCases_wellKeyed parsed) as Hwk.
  set (cases := CaseLoader.loadAllCases parsed) in *.
  unfold searchCases.
  destruct (resultMapping matchCount vectorSearch cases query options) as [m|e] eqn:Hm;
    simpl; intros [= <-]; [|intros []].
  intros Hr. apply In_firstn, js_sort_In in Hr.
  apply (resultMapping_shape _ _ _ Hwk) in Hm as (hits & kms & _ & Hk & ->).
  assert (exists c, In c (filteredCases cases options) /\ fromCase c r) as (c & Hc & Hfrom).
  { unfold map_values in Hr. apply in_map_iff in Hr as ([k r'] & Heq & Hin).
    simpl in Heq. subst r'. apply in_app_or in Hin as [Hin|Hin].
    - now apply (vectorLoop_invariant (filteredCases cases options) query hits) in Hin.
    - apply in_map_iff in Hin as (r' & [= _ ->] & Hin). apply In_firstn in Hin.
      destruct (performKeywordSearch_sound _ _ _ _ _ Hk Hin) as (_ & c & Hc & Hfrom & _).
      apply filter_In in Hc as [Hc _]. now exists c. }
  apply filteredCases_In in Hc as (Hall & Hcat & Hdiff).
  exists c. destruct Hfrom as (Hid & Hrest). rewrite Hid.
  split; [now apply getCase_getAllCases|]. split; [now split|]. split.
  - intros value Hv Hne. split; [now apply Hcat|].
    destruct Hrest as (_ & -> & _). now apply Hcat.
  - exact Hdiff.
Qed.

Lemma search_respects_filters_witness :
  exists c,
    CaseLoader.getCase Fixture.store (str "a") = Some c
    /\ Case.category c = str "web".
Proof.
  destruct (search_respects_filters RegExp.matchCount
              (searchSimilar Fixture.embeddings_up Fixture.index_both)
              [Fixture.stripe; Fixture.auth] (str "stripe checkout") Fixture.webOnly
              [vectorHit (str "stripe checkout") Fixture.stripe (3 # 4)]
              (vectorHit (str "stripe checkout") Fixture.stripe (3 # 4)))
    as (c & Hget & _ & Hcat & _).
  - vm_compute. reflexivity.
  - left. reflexivity.
  - exists c. split; [exact Hget|].
    apply (Hcat (str "web")); [reflexivity|discriminate].
Defined.

(** An empty string as filter is read as no filter: the document of the
    category ["web"] is returned for the category [""]. *)
Example empty_category_is_no_filter :
  exists r,
    searchCases RegExp.matchCount
      (searchSimilar Fixture.embeddings_up Fixture.index_empty) Fixture.store
      (str "stripe") (Options.mk (Some []) None None) = Return [r]
    /\ CaseSearchResult.category r = str "web".
Proof. eexists. split; vm_compute; reflexivity. Qed.

(** C3 (as amended).  For every query and options, with [L] the limit of the
    options (5 when they give none): when keyword scoring throws, whatever
    the vector loop has put into the result mapping, [searchCases] returns
    the empty list; otherwise it returns the values of the result mapping
    sorted by descending [relevanceScore] and cut to [L].  The sort is a
    permutation that keeps the order of results of equal score, and the values
    are the vector-matched results followed by the keyword matches that fitted,
    these in their own descending order: among results of one score every
    vector-matched result precedes every keyword-matched one, and the
    keyword-matched ones keep their keyword order. *)
Theorem search_sorted_stable_truncated
  (matchCount : jsstring -> jsstring -> Completion nat)
  (vectorSearch : jsstring -> nat -> Completion (list VectorSearchResult.t))
  (parsed : list Case.t) (query : jsstring) (options : Options.t) (L : nat) :
  Options.limit options = Some L \/ (Options.limit options = None /\ L = 5) ->
  searchCases matchCount vectorSearch (CaseLoader.loadAllCases parsed) query options
  = Return
      match resultMapping matchCount vectorSearch (CaseLoader.loadAllCases parsed)
              query options with
      | Return m => firstn L (js_sort byRelevance (map_values m))
      | Throw _ => []
      end
  /\ (forall hits e,
        vectorSearch query (L * 2) = Return hits ->
        performKeywordSearch matchCount
          (filter (fun c => negb (map_has
                     (vectorLoop (filteredCases (CaseLoader.loadAllCases parsed) options)
                        query hits) (Case.id c)))
             (filteredCases (CaseLoader.loadAllCases parsed) options)) query
        = Throw e ->
        searchCases matchCount vectorSearch (CaseLoader.loadAllCases parsed) query options
        = Return [])
  /\ forall m,
       resultMapping matchCount vectorSearch (CaseLoader.loadAllCases parsed) query options
       = Return m ->
       Permutation (js_sort byRelevance (map_values m)) (map_values m)
       /\ descending (js_sort byRelevance (map_values m))
       /\ (forall s, withScore s (js_sort byRelevance (map_values m))
                     = withScore s (map_values m))
       /\ exists hits kms vectorMatched keywordMatched,
            vectorSearch query (L * 2) = Return hits
            /\ vectorMatched
               = map_values
                   (vectorLoop (filteredCases (CaseLoader.loadAllCases parsed) options)
                      query hits)
            /\ performKeywordSearch matchCount
                 (filter (fun c => negb (map_has
                            (vectorLoop
                               (filteredCases (CaseLoader.loadAllCases parsed) options)
                               query hits) (Case.id c)))
                    (filteredCases (CaseLoader.loadAllCases parsed) options)) query
               = Return kms
            /\ keywordMatched = firstn (L - length vectorMatched) kms
            /\ descending keywordMatched
            /\ map_values m = vectorMatched ++ keywordMatched
            /\ forall s, withScore s (js_sort byRelevance (map_values m))
                         = withScore s vectorMatched ++ withScore s keywordMatched.
Proof.
  intros Hlimit.
  assert (optionsLimit options = L) as HL
    by (unfold optionsLimit; destruct Hlimit as [->|[-> ->]]; reflexivity).
  clear Hlimit. subst L. split; [|split].
  - unfold searchCases.
    now destruct (resultMapping matchCount vectorSearch (CaseLoader.loadAllCases parsed)
                    query options).
  - intros hits e Hv Hk. unfold searchCases, resultMapping.
    rewrite Hv. cbn [bind]. rewrite Hk. reflexivity.
  - intros m Hm.
    split; [apply js_sort_perm|]. split; [apply js_sort_descending|].
    split; [intros s; apply js_sort_stable|].
    pose proof (resultMapping_shape _ _ _ (loadAllCases_wellKeyed parsed) _ _ _ Hm)
      as (hits & kms & Hv & Hk & ->).
    exists hits, kms. eexists. eexists.
    split; [exact Hv|]. split; [reflexivity|]. split; [exact Hk|]. split; [reflexivity|].
    split; [apply descending_firstn, (performKeywordSearch_descending _ _ _ _ Hk)|].
    assert (map_values
              (vectorLoop (filteredCases (CaseLoader.loadAllCases parsed) options) query hits
               ++ map entry
                    (firstn (optionsLimit options
                             - map_size (vectorLoop
                                 (filteredCases (CaseLoader.loadAllCases parsed) options)
                                 query hits)) kms))
            = map_values (vectorLoop (filteredCases (CaseLoader.loadAllCases parsed) options)
                            query hits)
              ++ firstn (optionsLimit options
                         - length (map_values
                             (vectorLoop
                                (filteredCases (CaseLoader.loadAllCases parsed) options)
                                query hits))) kms) as Hvalues.
    { unfold map_values at 1. rewrite map_app. fold (map_values (map entry
        (firstn (optionsLimit options
                 - map_size (vectorLoop
                               (filteredCases (CaseLoader.loadAllCases parsed) options)
                               query hits)) kms))).
      rewrite map_values_entries. unfold map_values, map_size. now rewrite length_map. }
    split; [exact Hvalues|].
    intros s. rewrite js_sort_stable, Hvalues. unfold withScore. apply filter_app.
Qed.

Lemma search_sorted_stable_truncated_witness :
  exists m,
    resultMapping RegExp.matchCount
      (searchSimilar Fixture.embeddings_up Fixture.index_both)
      (CaseLoader.loadAllCases [Fixture.stripe; Fixture.auth])
      (str "stripe checkout") (Options.mk None None (Some 1)) = Return m
    /\ map CaseSearchResult.id (map_values m) = [str "b"; str "a"]
    /\ searchCases RegExp.matchCount
         (searchSimilar Fixture.embeddings_up Fixture.index_both)
         (CaseLoader.loadAllCases [Fixture.stripe; Fixture.auth])
         (str "stripe checkout") (Options.mk None None (Some 1))
       = Return (firstn 1 (js_sort byRelevance (map_values m)))
    /\ map CaseSearchResult.id (firstn 1 (js_sort byRelevance (map_values m)))
       = [str "b"].
Proof.
  eexists. split; [vm_compute; reflexivity|]. split; [vm_compute; reflexivity|]. split.
  - destruct (search_sorted_stable_truncated RegExp.matchCount
                (searchSimilar Fixture.embeddings_up Fixture.index_both)
                [Fixture.stripe; Fixture.auth] (str "stripe checkout")
                (Options.mk None None (Some 1)) 1 (or_introl eq_refl)) as [Hreturned _].
    rewrite Hreturned. vm_compute. reflexivity.
  - vm_compute. reflexivity.
Defined.

(** The claim as first stated fails where a scoring term is no regular
    expression: for the query ["((( stripe"] the vector loop puts document
    [b] into the result mapping, then the scoring of document [a] throws, and
    the search returns nothing. *)
Example search_drops_vector_matches_on_regexp_error :
  map CaseSearchResult.id
    (map_values
       (vectorLoop (filteredCases Fixture.store Fixture.noOptions) (str "((( stripe")
          [Fixture.hit "b" (9 # 10)]))
  = [str "b"]
  /\ searchSimilar Fixture.embeddings_up Fixture.index_auth (str "((( stripe") 10
     = Return [Fixture.hit "b" (9 # 10)]
  /\ searchCases RegExp.matchCount
       (searchSimilar Fixture.embeddings_up Fixture.index_auth) Fixture.store
       (str "((( stripe") Fixture.noOptions
     = Return [].
Proof. split; [|split]; vm_compute; reflexivity. Qed.

(** X2.  [searchCases] returns a list for every query, every options value and
    every behaviour of the services it calls: no exception reaches the
    caller. *)
Theorem searchCases_never_throws
  (matchCount : jsstring -> jsstring -> Completion nat)
  (vectorSearch : jsstring -> nat -> Completion (list VectorSearchResult.t))
  (cases : CaseLoader.t) (query : jsstring) (options : Options.t) :
  exists results,
    searchCases matchCount vectorSearch cases query options = Return results
    /\ length results <= optionsLimit options.
Proof. apply searchCases_returns. Qed.

(** ** Adapter failures *)

Lemma searchSimilar_adapter_failure
  (embeddings_create : jsstring -> Completion (option (list Q)))
  (index_query : list Q -> nat -> Completion (list QueryResult.t))
  (query : jsstring) (topK : nat) :
  adapterFails embeddings_create index_query query topK ->
  searchSimilar embeddings_create index_query query topK = Return [].
Proof.
  unfold searchSimilar. intros [(e & He)|(v & e & Hv & He)].
  - unfold generateEmbedding. now rewrite He.
  - rewrite Hv. simpl. now rewrite He.
Qed.

(** X3.  [searchSimilar] returns a list of hits and never throws: when the
    embeddings endpoint or the index throws, it returns the empty list, and
    when both answer, it returns the hits of the index in their order, a
    missing score read as 0. *)
Theorem searchSimilar_returns
  (embeddings_create : jsstring -> Completion (option (list Q)))
  (index_query : list Q -> nat -> Completion (list QueryResult.t))
  (query : jsstring) (topK : nat) :
  (exists hits, searchSimilar embeddings_create index_query query topK = Return hits)
  /\ (forall e, embeddings_create query = Throw e ->
        searchSimilar embeddings_create index_query query topK = Return [])
  /\ (forall v e,
        generateEmbedding embeddings_create query = Return v ->
        index_query v topK = Throw e ->
        searchSimilar embeddings_create index_query query topK = Return [])
  /\ (forall v results,
        generateEmbedding embeddings_create query = Return v ->
        index_query v topK = Return results ->
        searchSimilar embeddings_create index_query query topK
        = Return (map (fun result =>
                         VectorSearchResult.mk (QueryResult.id result)
                           (match QueryResult.score result with
                            | Some score => score
                            | None => 0%Q
                            end)
                           (QueryResult.metadata result))
                    results)).
Proof.
  split; [|split; [|split]].
  - unfold searchSimilar.
    destruct (generateEmbedding embeddings_create query) as [v|e]; simpl;
      [|now exists []].
    destruct (index_query v topK) as [rs|e]; simpl; eexists; reflexivity.
  - intros e He. apply searchSimilar_adapter_failure. left. now exists e.
  - intros v e Hv He. apply searchSimilar_adapter_failure. right. now exists v, e.
  - intros v results Hv Hresults. unfold searchSimilar. rewrite Hv. cbn [bind].
    rewrite Hresults. reflexivity.
Qed.

(** C1 (as amended).  If the embedding call or the vector-index query fails,
    [searchSimilar] answers with no hit, and [searchCases] returns the keyword
    results alone: the first [limit] entries of the keyword ranking of the
    filtered documents, or the empty list if keyword scoring throws.  No error
    reaches the caller.  The store is one that [loadAllCases] built. *)
Theorem search_on_adapter_failure
  (matchCount : jsstring -> jsstring -> Completion nat)
  (embeddings_create : jsstring -> Completion (option (list Q)))
  (index_query : list Q -> nat -> Completion (list QueryResult.t))
  (parsed : list Case.t) (query : jsstring) (options : Options.t) :
  adapterFails embeddings_create index_query query (optionsLimit options * 2) ->
  searchSimilar embeddings_create index_query query (optionsLimit options * 2) = Return []
  /\ searchCases matchCount (searchSimilar embeddings_create index_query)
       (CaseLoader.loadAllCases parsed) query options
     = match performKeywordSearch matchCount
               (filteredCases (CaseLoader.loadAllCases parsed) options) query with
       | Return keywordMatches => Return (firstn (optionsLimit options) keywordMatches)
       | Throw _ => Return []
       end.
Proof.
  intros Hfail. apply searchSimilar_adapter_failure in Hfail.
  split; [exact Hfail|].
  pose proof (loadAllCases_wellKeyed parsed) as Hwk.
  set (cases := CaseLoader.loadAllCases parsed) in *.
  unfold searchCases, resultMapping. rewrite Hfail. simpl.
  rewrite (filter_all _ (filteredCases cases options)) by reflexivity.
  destruct (performKeywordSearch matchCount (filteredCases cases options) query)
    as [kms|e] eqn:Hk; simpl; [|reflexivity].
  rewrite keywordLoop_appends.
  - simpl. rewrite map_values_entries, Nat.sub_0_r.
    rewrite js_sort_descending_id
      by apply descending_firstn, (performKeywordSearch_descending _ _ _ _ Hk).
    now rewrite firstn_firstn, Nat.min_id.
  - apply (performKeywordSearch_ids _ _ _ _ Hk), (filteredCases_NoDup _ Hwk).
  - intros r _ [].
Qed.

Lemma search_on_adapter_failure_witness :
  adapterFails Fixture.embeddings_down Fixture.index_both (str "stripe checkout")
    (optionsLimit Fixture.noOptions * 2)
  /\ searchCases RegExp.matchCount
       (searchSimilar Fixture.embeddings_down Fixture.index_both)
       (CaseLoader.loadAllCases Fixture.parsed)
       (str "stripe checkout") Fixture.noOptions
     = match performKeywordSearch RegExp.matchCount
               (filteredCases (CaseLoader.loadAllCases Fixture.parsed) Fixture.noOptions)
               (str "stripe checkout") with
       | Return keywordMatches =>
           Return (firstn (optionsLimit Fixture.noOptions) keywordMatches)
       | Throw _ => Return []
       end.
Proof.
  assert (adapterFails Fixture.embeddings_down Fixture.index_both
            (str "stripe checkout") (optionsLimit Fixture.noOptions * 2)) as Hfail
    by (left; eexists; reflexivity).
  split; [exact Hfail|].
  exact (proj2 (search_on_adapter_failure RegExp.matchCount Fixture.embeddings_down
                  Fixture.index_both Fixture.parsed (str "stripe checkout")
                  Fixture.noOptions Hfail)).
Defined.

(** C1, the claim as stated fails: the embeddings endpoint is down, and
    [searchCases] returns the keyword-scored document [a] with the score
    10.5. *)
Lemma search_on_adapter_failure_keyword_results :
  Fixture.embeddings_down (str "stripe checkout") = Throw (Error (str "connect ECONNREFUSED"))
  /\ exists r,
       searchCases RegExp.matchCount
         (searchSimilar Fixture.embeddings_down Fixture.index_both) Fixture.store
         (str "stripe checkout") Fixture.noOptions = Return [r]
       /\ CaseSearchResult.id r = str "a"
       /\ (scoreOf r == 21 # 2)%Q.
Proof.
  split; [reflexivity|]. eexists.
  split; [vm_compute; reflexivity|]. split; vm_compute; reflexivity.
Qed.

(** ** Vector hits with one id *)

Lemma vectorStep_get_other (filtered : list Case.t) (query : jsstring)
  (m : JsMap CaseSearchResult.t) (h : VectorSearchResult.t) (k : jsstring) :
  VectorSearchResult.id h <> k ->
  map_get (vectorStep filtered query m h) k = map_get m k.
Proof.
  intros Hk. unfold vectorStep.
  destruct (find _ filtered) as [c|] eqn:Hfind; [|reflexivity].
  apply find_id in Hfind as [_ Hid]. apply map_get_set_other. now rewrite Hid.
Qed.

Lemma vectorSteps_get_other (filtered : list Case.t) (query : jsstring)
  (hs : list VectorSearchResult.t) (k : jsstring) :
  (forall h, In h hs -> VectorSearchResult.id h <> k) ->
  forall m, map_get (fold_left (vectorStep filtered query) hs m) k = map_get m k.
Proof.
  induction hs as [|h hs IH]; simpl; intros Hk m; [reflexivity|].
  rewrite IH by (intros h' Hh'; apply Hk; now right).
  apply vectorStep_get_other, Hk. now left.
Qed.

Lemma vectorStep_get_same (filtered : list Case.t) (query : jsstring)
  (m : JsMap CaseSearchResult.t) (hit : VectorSearchResult.t) (c : Case.t) :
  find (fun c => streq (Case.id c) (VectorSearchResult.id hit)) filtered = Some c ->
  map_get (vectorStep filtered query m hit) (VectorSearchResult.id hit)
  = Some (vectorHit query c (VectorSearchResult.score hit)).
Proof.
  intros Hfind. unfold vectorStep. rewrite Hfind.
  apply find_id in Hfind as [_ <-]. apply map_get_set_same.
Qed.

Lemma vectorLoop_last_hit (filtered : list Case.t) (query : jsstring)
  (before after : list VectorSearchResult.t) (hit : VectorSearchResult.t) (c : Case.t) :
  find (fun c => streq (Case.id c) (VectorSearchResult.id hit)) filtered = Some c ->
  (forall h, In h after -> VectorSearchResult.id h <> VectorSearchResult.id hit) ->
  map_get (vectorLoop filtered query (before ++ hit :: after)) (VectorSearchResult.id hit)
  = Some (vectorHit query c (VectorSearchResult.score hit)).
Proof.
  intros Hfind Hafter. unfold vectorLoop. rewrite fold_left_app. simpl.
  rewrite vectorSteps_get_other by exact Hafter.
  now apply vectorStep_get_same.
Qed.

Lemma map_get_app_l {V : Type} (m m' : JsMap V) (k : jsstring) (v : V) :
  map_get m k = Some v -> map_get (m ++ m') k = Some v.
Proof.
  induction m as [|[k' v'] m IH]; simpl; [discriminate|].
  destruct (streq k' k); auto.
Qed.

Lemma keywordLoop_NoDup (limit : nat) (kms : list CaseSearchResult.t) :
  forall m : JsMap CaseSearchResult.t,
  NoDup (keys m) -> NoDup (keys (fold_left (keywordStep limit) kms m)).
Proof.
  induction kms as [|r kms IH]; simpl; intros m Hm; [exact Hm|].
  apply IH. unfold keywordStep. destruct (map_size m <? limit); [|exact Hm].
  now apply map_set_NoDup.
Qed.

Lemma resultMapping_NoDup (matchCount : jsstring -> jsstring -> Completion nat)
  (vectorSearch : jsstring -> nat -> Completion (list VectorSearchResult.t))
  (cases : CaseLoader.t) (query : jsstring) (options : Options.t)
  (m : JsMap CaseSearchResult.t) :
  resultMapping matchCount vectorSearch cases query options = Return m ->
  NoDup (keys m).
Proof.
  unfold resultMapping.
  destruct (vectorSearch query _) as [hits|e]; simpl; [|discriminate].
  destruct (performKeywordSearch _ _ query) as [kms|e]; simpl; [|discriminate].
  intros [= <-]. apply keywordLoop_NoDup, vectorLoop_invariant.
Qed.

(** C6 (as amended).  When the vector hits hold several hits with one id of
    the filtered set, the result mapping keeps a single entry for that id, and
    the entry is built from the last of these hits: its [relevanceScore] is
    the raw score of the last hit, the earlier ones are overwritten. *)
Theorem result_mapping_keeps_last_hit
  (matchCount : jsstring -> jsstring -> Completion nat)
  (vectorSearch : jsstring -> nat -> Completion (list VectorSearchResult.t))
  (parsed : list Case.t) (query : jsstring) (options : Options.t)
  (before after : list VectorSearchResult.t) (hit : VectorSearchResult.t)
  (c : Case.t) (m : JsMap CaseSearchResult.t) :
  vectorSearch query (optionsLimit options * 2) = Return (before ++ hit :: after) ->
  (forall h, In h after -> VectorSearchResult.id h <> VectorSearchResult.id hit) ->
  find (fun c => streq (Case.id c) (VectorSearchResult.id hit))
    (filteredCases (CaseLoader.loadAllCases parsed) options) = Some c ->
  resultMapping matchCount vectorSearch (CaseLoader.loadAllCases parsed) query options
  = Return m ->
  map_get m (VectorSearchResult.id hit)
  = Some (vectorHit query c (VectorSearchResult.score hit))
  /\ scoreOf (vectorHit query c (VectorSearchResult.score hit))
     = VectorSearchResult.score hit
  /\ NoDup (keys m).
Proof.
  intros Hv Hafter Hfind Hm.
  split; [|split; [reflexivity|exact (resultMapping_NoDup _ _ _ _ _ _ Hm)]].
  apply (resultMapping_shape _ _ _ (loadAllCases_wellKeyed parsed)) in Hm
    as (hits & kms & Hv' & _ & ->).
  rewrite Hv in Hv'. injection Hv' as <-.
  apply map_get_app_l. now apply vectorLoop_last_hit.
Qed.

Lemma result_mapping_keeps_last_hit_witness :
  exists m,
    resultMapping RegExp.matchCount
      (fun _ _ => Return [Fixture.hit "a" (9 # 10); Fixture.hit "a" (1 # 10)])
      (CaseLoader.loadAllCases Fixture.parsed) (str "stripe") Fixture.noOptions = Return m
    /\ map_get m (str "a")
       = Some (vectorHit (str "stripe") Fixture.stripe (1 # 10)).
Proof.
  eexists. split; [vm_compute; reflexivity|].
  apply (result_mapping_keeps_last_hit RegExp.matchCount
           (fun _ _ => Return [Fixture.hit "a" (9 # 10); Fixture.hit "a" (1 # 10)])
           Fixture.parsed (str "stripe") Fixture.noOptions
           [Fixture.hit "a" (9 # 10)] [] (Fixture.hit "a" (1 # 10)) Fixture.stripe).
  - reflexivity.
  - intros h [].
  - vm_compute. reflexivity.
  - vm_compute. reflexivity.
Defined.

(** C6, the claim as stated fails: of two hits with the id ["a"], scores 0.9
    then 0.1, the result mapping keeps the score 0.1 of the second. *)
Lemma result_mapping_drops_first_hit :
  exists r,
    map_get (vectorLoop [Fixture.stripe] (str "stripe")
               [Fixture.hit "a" (9 # 10); Fixture.hit "a" (1 # 10)]) (str "a") = Some r
    /\ scoreOf r = (1 # 10)%Q
    /\ Qeq_bool (scoreOf r) (9 # 10) = false.
Proof.
  eexists. split; [vm_compute; reflexivity|]. split; vm_compute; reflexivity.
Qed.

(** ** Exceptions of the [RegExp] constructor *)

Lemma foldM_Throw {A B : Type} (step : B -> A -> Completion B) (xs : list A) (x : A) :
  In x xs -> (forall acc, exists e, step acc x = Throw e) ->
  forall acc, exists e, foldM step xs acc = Throw e.
Proof.
  intros Hin Hx. induction xs as [|y xs IH]; simpl; [contradiction|]. intros acc.
  destruct (step acc y) as [acc'|e] eqn:Hy; simpl; [|now exists e].
  destruct Hin as [->|Hin]; [|now apply IH].
  destruct (Hx acc) as [e He]. congruence.
Qed.

Lemma vectorLoop_keys (filtered : list Case.t) (query : jsstring)
  (hits : list VectorSearchResult.t) (k : jsstring) :
  In k (keys (vectorLoop filtered query hits)) -> In k (map VectorSearchResult.id hits).
Proof.
  unfold vectorLoop.
  assert (forall m, In k (keys (fold_left (vectorStep filtered query) hits m)) ->
                    In k (keys m) \/ In k (map VectorSearchResult.id hits)) as H.
  { induction hits as [|h hits IH]; simpl; intros m Hk; [now left|].
    apply IH in Hk as [Hk|Hk]; [|now right; right].
    unfold vectorStep in Hk. destruct (find _ filtered) as [c|] eqn:Hfind; [|now left].
    apply find_id in Hfind as [_ Hid]. rewrite map_set_keys in Hk.
    destruct (map_has m (Case.id c)); [now left|].
    apply in_app_or in Hk as [Hk|[<-|[]]]; [now left|]. right. now left. }
  intros Hk. apply H in Hk as [[]|Hk]. exact Hk.
Qed.

(** C10.  When the constructor of [RegExp] throws on a term of the query (as
    it does on ["((("]) and some filtered document is not among the vector
    hits, keyword scoring throws, the [catch] of [searchCases] absorbs the
    exception, and [searchCases] returns the empty list, whatever the titles
    of the documents hold. *)
Theorem search_absorbs_regexp_error
  (matchCount : jsstring -> jsstring -> Completion nat)
  (vectorSearch : jsstring -> nat -> Completion (list VectorSearchResult.t))
  (cases : CaseLoader.t) (query : jsstring) (options : Options.t)
  (term : jsstring) (c : Case.t) :
  In term (queryTerms query) ->
  (forall text, exists e, matchCount term text = Throw e) ->
  In c (filteredCases cases options) ->
  (forall hits, vectorSearch query (optionsLimit options * 2) = Return hits ->
     ~ In (Case.id c) (map VectorSearchResult.id hits)) ->
  searchCases matchCount vectorSearch cases query options = Return [].
Proof.
  intros Hterm Hthrow Hc Hmiss. unfold searchCases, resultMapping.
  destruct (vectorSearch query _) as [hits|e] eqn:Hv; simpl; [|reflexivity].
  specialize (Hmiss hits eq_refl).
  destruct (performKeywordSearch matchCount _ query) as [kms|e] eqn:Hk; simpl;
    [exfalso|reflexivity].
  unfold performKeywordSearch in Hk.
  destruct (mapM_Throw (scoreCase matchCount query (queryTerms query))
              (filter (fun c => negb (map_has
                         (vectorLoop (filteredCases cases options) query hits)
                         (Case.id c))) (filteredCases cases options))) as [e He].
  - intros Hnil.
    assert (In c (filter (fun c => negb (map_has
                     (vectorLoop (filteredCases cases options) query hits)
                     (Case.id c))) (filteredCases cases options))) as Hin.
    { apply filter_In. split; [exact Hc|]. apply negb_true_iff, map_has_not_In.
      intros Hkey. exact (Hmiss (vectorLoop_keys _ _ _ _ Hkey)). }
    rewrite Hnil in Hin. exact Hin.
  - intros c' _. unfold scoreCase, keywordScore.
    destruct (foldM_Throw (scoreTerm matchCount c') (queryTerms query) term Hterm)
      with (acc := 0%Q) as [e He].
    + intros acc. unfold scoreTerm. destruct (Hthrow (searchText c')) as [e He].
      exists e. now rewrite He.
    + exists e. now rewrite He.
  - rewrite He in Hk. discriminate.
Qed.

Lemma search_absorbs_regexp_error_witness :
  includes (toLowerCase (Case.title Fixture.parens)) (str "(((") = true
  /\ In Fixture.parens (CaseLoader.getAllCases (CaseLoader.loadAllCases [Fixture.parens]))
  /\ RegExp.matchCount (str "(((") (searchText Fixture.parens)
     = Throw (SyntaxError (str "Unterminated group"))
  /\ searchCases RegExp.matchCount
       (searchSimilar Fixture.embeddings_up Fixture.index_both)
       (CaseLoader.loadAllCases [Fixture.parens]) (str "(((") Fixture.noOptions
     = Return [].
Proof.
  split; [vm_compute; reflexivity|]. split; [left; reflexivity|].
  split; [vm_compute; reflexivity|].
  apply (search_absorbs_regexp_error RegExp.matchCount
           (searchSimilar Fixture.embeddings_up Fixture.index_both)
           (CaseLoader.loadAllCases [Fixture.parens]) (str "(((") Fixture.noOptions
           (str "(((") Fixture.parens).
  - left. reflexivity.
  - intros text. exists (SyntaxError (str "Unterminated group")). reflexivity.
  - left. reflexivity.
  - intros hits Hhits. vm_compute in Hhits. injection Hhits as <-.
    vm_compute. intros [H|[H|[]]]; discriminate H.
Defined.

(** ** The reference engine on terms without syntax characters *)

Module RegExpFacts.
Import RegExp.

Lemma literal_unit (c : ascii) :
  isSyntaxCharacter c = false ->
  existsb (Ascii.eqb c) (str "\^$[]{}") = false
  /\ isQuantifier c = false
  /\ Ascii.eqb c "("%char = false
  /\ Ascii.eqb c ")"%char = false
  /\ Ascii.eqb c "|"%char = false
  /\ Ascii.eqb c "."%char = false.
Proof.
  destruct c as [[] [] [] [] [] [] [] []]; intros H; try discriminate H;
    repeat split; reflexivity.
Qed.

Lemma isLiteral_cons (c : ascii) (term : jsstring) :
  isLiteral (c :: term) = true ->
  isSyntaxCharacter c = false /\ isLiteral term = true.
Proof.
  unfold isLiteral. cbn [forallb]. intros H.
  apply andb_true_iff in H as [Hc H]. now apply negb_true_iff in Hc.
Qed.

Lemma outsideFragment_literal (term : jsstring) :
  isLiteral term = true -> outsideFragment term = false.
Proof.
  induction term as [|c term IH]; [reflexivity|].
  intros H. apply isLiteral_cons in H as [Hc H].
  cbn [outsideFragment]. destruct (literal_unit c Hc) as (-> & -> & -> & _).
  rewrite (IH H). now destruct term as [|[[] [] [] [] [] [] [] []] ?].
Qed.

Lemma parse_literal (term : jsstring) :
  isLiteral term = true ->
  forall current open,
    parse term current open
    = parse [] (fold_left pushAtom (map Char term) current) open.
Proof.
  induction term as [|c term IH]; [reflexivity|].
  intros H current open. apply isLiteral_cons in H as [Hc H].
  cbn [parse map fold_left].
  destruct (literal_unit c Hc) as (_ & -> & -> & -> & -> & ->).
  now apply IH.
Qed.

Lemma pushAtoms_frame (atoms : list node) (f : frame) :
  alternatives (fold_left pushAtom atoms f) = alternatives f
  /\ terms (fold_left pushAtom atoms f) = rev atoms ++ terms f.
Proof.
  revert f. induction atoms as [|a atoms IH]; simpl; intros f; [now split|].
  destruct (IH (pushAtom f a)) as [-> ->]. simpl. now rewrite <- app_assoc.
Qed.

Lemma compile_literal (term : jsstring) :
  isLiteral term = true -> compile term = Pattern (literalNode term).
Proof.
  intros H. unfold compile. rewrite (outsideFragment_literal _ H), (parse_literal _ H).
  simpl. f_equal. unfold closeFrame.
  destruct (pushAtoms_frame (map Char term) emptyFrame) as [-> ->]. simpl.
  rewrite app_nil_r. unfold seqOf, literalNode.
  rewrite <- fold_left_rev_right, rev_involutive.
  clear H. induction term as [|c term IH]; simpl; [reflexivity|now rewrite IH].
Qed.

Lemma matcher_literal (term x : jsstring) (c : Continuation) :
  matcher (literalNode term) x c
  = if startsWith x term then c (skipn (length term) x) else None.
Proof.
  revert x. induction term as [|ch term IH]; intros x; simpl; [reflexivity|].
  destruct x as [|ch' x]; [reflexivity|]. simpl.
  destruct (Ascii.eqb ch ch'); simpl; [apply IH|reflexivity].
Qed.

End RegExpFacts.

Lemma disjointOccurrences_skip (term : jsstring) (text : jsstring) :
  forall skip,
    disjointOccurrences term skip text = disjointOccurrences term 0 (skipn skip text).
Proof.
  induction text as [|c text IH]; intros [|skip]; try reflexivity.
  simpl skipn. cbn [disjointOccurrences]. apply IH.
Qed.

Lemma startsWith_length (text term : jsstring) :
  startsWith text term = true -> length term <= length text.
Proof.
  revert text. induction term as [|c term IH]; intros [|c' text]; simpl;
    try lia; try discriminate.
  intros H. apply andb_true_iff in H as [_ H]. apply IH in H. lia.
Qed.

Lemma scan_literal (term : jsstring) :
  term <> [] ->
  forall fuel text, length text < fuel ->
    RegExp.scan (RegExp.literalNode term) fuel text
    = disjointOccurrences term 0 text.
Proof.
  intros Hterm. assert (1 <= length term) as Hlen
    by (destruct term; [congruence|simpl; lia]).
  induction fuel as [|fuel IH]; intros text Hfuel; [lia|].
  cbn [RegExp.scan]. rewrite RegExpFacts.matcher_literal.
  destruct (startsWith text term) eqn:Hs.
  - pose proof (startsWith_length _ _ Hs) as Hle.
    destruct text as [|c text]; [simpl in Hle; lia|].
    rewrite (proj2 (Nat.ltb_lt _ _)) by (rewrite length_skipn; cbn [length]; lia).
    rewrite IH by (rewrite length_skipn; cbn [length] in *; lia).
    cbn [disjointOccurrences]. rewrite Hs. f_equal.
    symmetry. rewrite disjointOccurrences_skip.
    destruct term as [|ch term]; [congruence|].
    cbn [length skipn]. now rewrite Nat.sub_succ, Nat.sub_0_r.
  - destruct text as [|c text]; [reflexivity|].
    cbn [disjointOccurrences]. rewrite Hs. apply IH. simpl in Hfuel. lia.
Qed.

(** The reference engine counts the disjoint occurrences of a term without
    syntax characters. *)
Lemma reference_engine_literal : literalEngine RegExp.matchCount.
Proof.
  intros term text Hterm Hlit. unfold RegExp.matchCount.
  rewrite (RegExpFacts.compile_literal _ Hlit). f_equal.
  apply scan_literal; [exact Hterm|lia].
Qed.

(** ** The keyword score *)

Lemma mapM_Return {A B : Type} (f : A -> Completion B) (xs : list A) :
  (forall x, In x xs -> exists y, f x = Return y) -> exists ys, mapM f xs = Return ys.
Proof.
  induction xs as [|x xs IH]; simpl; intros H; [now exists []|].
  destruct (H x (or_introl eq_refl)) as [y ->].
  destruct IH as [ys ->]; [intros x' Hx'; apply H; now right|].
  simpl. now exists (y :: ys).
Qed.

Lemma queryTerms_nonempty (query term : jsstring) :
  In term (queryTerms query) -> term <> [].
Proof.
  unfold queryTerms. intros H. apply filter_In in H as [_ H].
  apply Nat.ltb_lt in H. intros ->. simpl in H. lia.
Qed.

Lemma scoreTerm_literal (matchCount : jsstring -> jsstring -> Completion nat)
  (c : Case.t) (acc : Q) (term : jsstring) :
  literalEngine matchCount -> term <> [] -> isLiteral term = true ->
  exists s, scoreTerm matchCount c acc term = Return s
            /\ (s == acc + termScore scannedOccurrences c term)%Q.
Proof.
  intros Hengine Hterm Hlit. unfold scoreTerm.
  rewrite (Hengine term (searchText c) Hterm Hlit). simpl.
  eexists. split; [reflexivity|]. unfold termScore.
  destruct (includes _ term), (existsb _ (Case.tags c)); ring.
Qed.

Lemma keywordScore_literal (matchCount : jsstring -> jsstring -> Completion nat)
  (c : Case.t) (terms : list jsstring) :
  literalEngine matchCount ->
  (forall term, In term terms -> term <> [] /\ isLiteral term = true) ->
  forall acc, exists s,
    foldM (scoreTerm matchCount c) terms acc = Return s
    /\ (s == acc + fold_right Qplus 0 (map (termScore scannedOccurrences c) terms))%Q.
Proof.
  intros Hengine. induction terms as [|term terms IH]; intros Hterms acc; simpl.
  - exists acc. split; [reflexivity|ring].
  - destruct (Hterms term (or_introl eq_refl)) as [Hne Hlit].
    destruct (scoreTerm_literal matchCount c acc term Hengine Hne Hlit) as (s1 & -> & H1).
    simpl. destruct (IH (fun t Ht => Hterms t (or_intror Ht)) s1) as (s & -> & Hs).
    exists s. split; [reflexivity|]. rewrite Hs, H1. ring.
Qed.

Lemma keywordScore_scoreWith (matchCount : jsstring -> jsstring -> Completion nat)
  (query : jsstring) (c : Case.t) :
  literalEngine matchCount ->
  forallb isLiteral (queryTerms query) = true ->
  exists s,
    keywordScore matchCount (queryTerms query) c = Return s
    /\ (s == scoreWith scannedOccurrences query c)%Q.
Proof.
  intros Hengine Hlit. unfold keywordScore, scoreWith.
  destruct (keywordScore_literal matchCount c (queryTerms query) Hengine) with (acc := 0%Q)
    as (s & Hs & Heq).
  - intros term Hterm. split; [now apply (queryTerms_nonempty query)|].
    rewrite forallb_forall in Hlit. now apply Hlit.
  - exists s. split; [exact Hs|]. rewrite Heq. ring.
Qed.

(** C2 (as amended).  For a query whose scoring terms hold no syntax
    character of regular expressions, the keyword score of a document is the
    sum, over the whitespace tokens of the lowercased query longer than 2, of
    3 if the title includes the token, 2 if some tag does, and 0.5 times the
    number of occurrences of the token in the composite text that a scan from
    the left finds when it resumes behind each occurrence (overlapping
    occurrences are not counted).  The keyword results are the documents of
    positive score; a document of score 0 is not among them.  The score is a
    function of the query and the document alone. *)
Theorem keyword_score_literal_terms
  (matchCount : jsstring -> jsstring -> Completion nat)
  (cases : list Case.t) (query : jsstring) :
  literalEngine matchCount ->
  forallb isLiteral (queryTerms query) = true ->
  (forall c, exists s,
      keywordScore matchCount (queryTerms query) c = Return s
      /\ (s == scoreWith scannedOccurrences query c)%Q)
  /\ exists keywordMatches,
       performKeywordSearch matchCount cases query = Return keywordMatches
       /\ (forall r, In r keywordMatches ->
             (0 < scoreOf r)%Q
             /\ exists c, In c cases /\ fromCase c r
                          /\ (scoreOf r == scoreWith scannedOccurrences query c)%Q)
       /\ (forall c, In c cases -> (0 < scoreWith scannedOccurrences query c)%Q ->
             exists r, In r keywordMatches /\ fromCase c r
                       /\ (scoreOf r == scoreWith scannedOccurrences query c)%Q).
Proof.
  intros Hengine Hlit.
  pose proof (fun c => keywordScore_scoreWith matchCount query c Hengine Hlit) as Hscore.
  split; [exact Hscore|].
  destruct (mapM_Return (scoreCase matchCount query (queryTerms query)) cases) as [scored Hm].
  { intros c _. unfold scoreCase. destruct (Hscore c) as (s & -> & _). simpl.
    eexists. reflexivity. }
  assert (performKeywordSearch matchCount cases query
          = Return (js_sort byRelevance
                      (filter (fun r => Qltb 0 (scoreOf r)) scored))) as Hk
    by (unfold performKeywordSearch; now rewrite Hm).
  eexists. split; [exact Hk|]. split.
  - intros r Hr.
    destruct (performKeywordSearch_sound _ _ _ _ _ Hk Hr) as (Hpos & c & Hc & Hfrom & Hs).
    split; [exact Hpos|]. exists c. split; [exact Hc|]. split; [exact Hfrom|].
    destruct (Hscore c) as (s & Hs' & Heq). rewrite Hs in Hs'. injection Hs' as <-.
    exact Heq.
  - intros c Hc Hpos. destruct (Hscore c) as (s & Hs & Heq).
    destruct (performKeywordSearch_complete _ _ _ _ c s Hk Hc Hs) as (r & Hr & Hfrom & Hrs).
    + now rewrite Heq.
    + exists r. split; [exact Hr|]. split; [exact Hfrom|]. now rewrite Hrs.
Qed.

Lemma keyword_score_literal_terms_witness :
  forallb isLiteral (queryTerms (str "stripe checkout")) = true
  /\ exists s,
       keywordScore RegExp.matchCount (queryTerms (str "stripe checkout")) Fixture.stripe
       = Return s
       /\ (s == scoreWith scannedOccurrences (str "stripe checkout") Fixture.stripe)%Q.
Proof.
  split; [reflexivity|].
  apply (keyword_score_literal_terms RegExp.matchCount Fixture.parsed
           (str "stripe checkout") reference_engine_literal eq_refl).
Defined.

(** C2, the claim as stated fails: the term ["aaa"] occurs twice in
    ["aaaa"], at the first and at the second place, and the code counts one
    match, so that the document scores 0.5 and not 1. *)
Lemma keyword_score_skips_overlapping_occurrences :
  occurrences (str "aaa") (searchText Fixture.aaaa) = 2
  /\ (scoreWith occurrences (str "aaa") Fixture.aaaa == 1)%Q
  /\ exists s,
       keywordScore RegExp.matchCount (queryTerms (str "aaa")) Fixture.aaaa = Return s
       /\ (s == 1 # 2)%Q.
Proof.
  split; [vm_compute; reflexivity|]. split; [vm_compute; reflexivity|].
  eexists. split; vm_compute; reflexivity.
Qed.

(** C9, the failing input: the document with the content ["abc"] scores 0.5
    for the query ["ab?c"], whose term matches it once as a pattern; with the
    term appended to the content the score is still 0.5. *)
Lemma keyword_score_unescaped_term :
  Case.content Fixture.abc_appended = Case.content Fixture.abc ++ str "ab?c"
  /\ queryTerms (str "ab?c") = [str "ab?c"]
  /\ exists before after,
       keywordScore RegExp.matchCount (queryTerms (str "ab?c")) Fixture.abc
       = Return before
       /\ keywordScore RegExp.matchCount (queryTerms (str "ab?c")) Fixture.abc_appended
          = Return after
       /\ (before == 1 # 2)%Q /\ (after == 1 # 2)%Q.
Proof.
  split; [reflexivity|]. split; [reflexivity|]. eexists. eexists.
  split; [vm_compute; reflexivity|]. split; [vm_compute; reflexivity|].
  split; vm_compute; reflexivity.
Qed.

(** ** One more occurrence of a term without syntax characters *)

Lemma startsWith_app (text more term : jsstring) :
  startsWith text term = true -> startsWith (text ++ more) term = true.
Proof.
  revert text. induction term as [|c term IH]; intros [|c' text]; simpl;
    try reflexivity; try discriminate.
  intros H. apply andb_true_iff in H as [-> H]. now apply IH.
Qed.

Lemma startsWith_app_inv (text more term : jsstring) :
  startsWith (text ++ more) term = true -> length term <= length text ->
  startsWith text term = true.
Proof.
  revert text. induction term as [|c term IH]; intros [|c' text]; simpl;
    try reflexivity; try lia.
  intros H Hlen. apply andb_true_iff in H as [-> H]. apply IH; [exact H|lia].
Qed.

(** No occurrence is found where the text left after the skip is shorter
    than the term. *)
Lemma disjointOccurrences_no_room (term text : jsstring) :
  forall skip, length text < skip + length term ->
    disjointOccurrences term skip text = 0.
Proof.
  induction text as [|c text IH]; intros skip Hlen; [reflexivity|].
  cbn [disjointOccurrences]. cbn [length] in Hlen. destruct skip as [|skip].
  - destruct (startsWith (c :: text) term) eqn:Hs.
    + apply startsWith_length in Hs. cbn [length] in Hs. lia.
    + apply IH. lia.
  - apply IH. lia.
Qed.

(** More text at the end never loses an occurrence. *)
Lemma disjointOccurrences_app_le (term more text : jsstring) :
  forall skip,
    disjointOccurrences term skip text <= disjointOccurrences term skip (text ++ more).
Proof.
  induction text as [|c text IH]; intros skip; [simpl; lia|].
  cbn [disjointOccurrences app]. destruct skip as [|skip]; [|apply IH].
  destruct (startsWith (c :: text) term) eqn:Hs.
  - change (c :: text ++ more) with ((c :: text) ++ more).
    rewrite (startsWith_app _ more _ Hs). apply le_n_S, IH.
  - change (c :: text ++ more) with ((c :: text) ++ more).
    destruct (startsWith ((c :: text) ++ more) term) eqn:Hs'; [|apply IH].
    rewrite disjointOccurrences_no_room; [lia|].
    destruct (Nat.le_gt_cases (length term) (length (c :: text))) as [Hle|Hgt].
    + rewrite (startsWith_app_inv _ _ _ Hs' Hle) in Hs. discriminate.
    + cbn [length] in Hgt. lia.
Qed.

(** The term itself at the end of the text is one occurrence more. *)
Lemma disjointOccurrences_app_self (term text : jsstring) :
  term <> [] ->
  forall skip, skip <= length text ->
    disjointOccurrences term skip (text ++ term)
    = S (disjointOccurrences term skip text).
Proof.
  intros Hterm. assert (1 <= length term) as Hlen
    by (destruct term; [congruence|simpl; lia]).
  assert (startsWith term term = true) as Hself
    by (clear; induction term as [|c term IH]; simpl;
        [reflexivity|now rewrite Ascii.eqb_refl]).
  induction text as [|c text IH]; intros skip Hskip.
  - cbn [length] in Hskip. replace skip with 0 by lia. cbn [app].
    destruct term as [|ch term]; [congruence|].
    cbn [disjointOccurrences]. rewrite Hself. f_equal.
    apply disjointOccurrences_no_room. cbn [length]. lia.
  - cbn [disjointOccurrences app]. cbn [length] in Hskip.
    destruct skip as [|skip]; [|apply IH; lia].
    change (c :: text ++ term) with ((c :: text) ++ term).
    destruct (startsWith (c :: text) term) eqn:Hs.
    + rewrite (startsWith_app _ term _ Hs). f_equal. apply IH.
      apply startsWith_length in Hs. cbn [length] in Hs. lia.
    + destruct (startsWith ((c :: text) ++ term) term) eqn:Hs'; [|apply IH; lia].
      assert (length (c :: text) < length term) as Hshort.
      { destruct (Nat.le_gt_cases (length term) (length (c :: text))) as [Hle|Hgt];
          [|exact Hgt].
        rewrite (startsWith_app_inv _ _ _ Hs' Hle) in Hs. discriminate. }
      cbn [length] in Hshort.
      rewrite !disjointOccurrences_no_room; [reflexivity|lia|].
      rewrite length_app. lia.
Qed.

Lemma searchText_appendContent (c : Case.t) (more : jsstring) :
  searchText (appendContent c more) = searchText c ++ toLowerCase more.
Proof.
  unfold searchText, appendContent, toLowerCase. simpl.
  rewrite <- map_app. f_equal. rewrite <- app_assoc. cbn [app]. do 2 f_equal.
  now rewrite <- app_assoc.
Qed.

Lemma sum_lt {A : Type} (f g : A -> Q) (x : A) (xs : list A) :
  In x xs -> (f x < g x)%Q -> (forall y, In y xs -> (f y <= g y)%Q) ->
  (fold_right Qplus 0 (map f xs) < fold_right Qplus 0 (map g xs))%Q.
Proof.
  intros Hin Hx Hle.
  assert (forall ys, (forall y, In y ys -> (f y <= g y)%Q) ->
            (fold_right Qplus 0 (map f ys) <= fold_right Qplus 0 (map g ys))%Q) as Hsum.
  { induction ys as [|y ys IH]; simpl; intros H; [lra|].
    pose proof (H y (or_introl eq_refl)). pose proof (IH (fun z Hz => H z (or_intror Hz))).
    lra. }
  induction xs as [|y xs IH]; simpl; [contradiction|].
  destruct Hin as [->|Hin].
  - pose proof (Hsum xs (fun z Hz => Hle z (or_intror Hz))). lra.
  - pose proof (Hle y (or_introl eq_refl)).
    pose proof (IH Hin (fun z Hz => Hle z (or_intror Hz))). lra.
Qed.

Lemma termScore_count_le (c c' : Case.t) (term : jsstring) (n n' : nat) :
  Case.title c' = Case.title c -> Case.tags c' = Case.tags c -> n <= n' ->
  scannedOccurrences term (searchText c) = n ->
  scannedOccurrences term (searchText c') = n' ->
  (termScore scannedOccurrences c term <= termScore scannedOccurrences c' term)%Q
  /\ (n < n' ->
      (termScore scannedOccurrences c term < termScore scannedOccurrences c' term)%Q).
Proof.
  intros Ht Hg Hn Hc Hc'. unfold termScore. rewrite Ht, Hg, Hc, Hc'.
  assert (n < n' -> (inject_Z (Z.of_nat n) < inject_Z (Z.of_nat n'))%Q) as Hlt
    by (intros H; rewrite <- Zlt_Qlt; lia).
  assert (inject_Z (Z.of_nat n) <= inject_Z (Z.of_nat n'))%Q as Hle
    by (rewrite <- Zle_Qle; lia).
  split; [|intros H; specialize (Hlt H)];
    destruct (includes _ term), (existsb _ (Case.tags c)); lra.
Qed.

(** X1.  For a query whose scoring terms hold no syntax character, a space
    and one more occurrence of a scoring term (in any letter case) at the end
    of the content of a document make its keyword score strictly greater.
    The space keeps the lowercasing of the old content and of the new word
    apart. *)
Theorem keyword_score_monotone_literal_terms
  (matchCount : jsstring -> jsstring -> Completion nat)
  (query : jsstring) (c : Case.t) (term more : jsstring) :
  literalEngine matchCount ->
  forallb isLiteral (queryTerms query) = true ->
  In term (queryTerms query) ->
  toLowerCase more = term ->
  exists before after,
    keywordScore matchCount (queryTerms query) c = Return before
    /\ keywordScore matchCount (queryTerms query) (appendContent c (" "%char :: more))
       = Return after
    /\ (before < after)%Q.
Proof.
  intros Hengine Hlit Hterm Hmore.
  pose proof (fun c => keywordScore_scoreWith matchCount query c Hengine Hlit) as Hscore.
  destruct (Hscore c) as (before & Hb & Hbq).
  destruct (Hscore (appendContent c (" "%char :: more))) as (after & Ha & Haq).
  exists before, after. split; [exact Hb|]. split; [exact Ha|].
  rewrite Hbq, Haq. unfold scoreWith.
  assert (searchText (appendContent c (" "%char :: more))
          = (searchText c ++ [" "%char]) ++ term) as Htext.
  { rewrite searchText_appendContent. cbn [toLowerCase map].
    fold (toLowerCase more). rewrite Hmore, <- app_assoc. reflexivity. }
  apply (sum_lt _ _ term); [exact Hterm| |].
  - assert (scannedOccurrences term (searchText c)
            < scannedOccurrences term (searchText (appendContent c (" "%char :: more))))
      as Hone.
    { rewrite Htext. unfold scannedOccurrences.
      rewrite disjointOccurrences_app_self;
        [|now apply (queryTerms_nonempty query)|lia].
      apply Nat.lt_succ_r, disjointOccurrences_app_le. }
    apply (termScore_count_le c (appendContent c (" "%char :: more)) term _ _
             eq_refl eq_refl (Nat.lt_le_incl _ _ Hone) eq_refl eq_refl). exact Hone.
  - intros u _.
    assert (scannedOccurrences u (searchText c)
            <= scannedOccurrences u (searchText (appendContent c (" "%char :: more))))
      as Hle.
    { rewrite searchText_appendContent. apply disjointOccurrences_app_le. }
    apply (termScore_count_le c (appendContent c (" "%char :: more)) u _ _
             eq_refl eq_refl Hle eq_refl eq_refl).
Qed.

Lemma keyword_score_monotone_literal_terms_witness :
  exists before after,
    keywordScore RegExp.matchCount (queryTerms (str "stripe checkout")) Fixture.stripe
    = Return before
    /\ keywordScore RegExp.matchCount (queryTerms (str "stripe checkout"))
         (appendContent Fixture.stripe (" "%char :: str "Stripe")) = Return after
    /\ (before < after)%Q.
Proof.
  apply (keyword_score_monotone_literal_terms RegExp.matchCount (str "stripe checkout")
           Fixture.stripe (str "stripe") (str "Stripe") reference_engine_literal).
  - reflexivity.
  - left. reflexivity.
  - reflexivity.
Defined.

(** ** What every answer of the search has *)

Lemma selfKeyed_keys (m : JsMap CaseSearchResult.t) :
  selfKeyed m -> map CaseSearchResult.id (map_values m) = keys m.
Proof.
  intros H. unfold map_values, keys. rewrite map_map. apply map_ext_in.
  intros [k r] Hin. simpl. symmetry. now apply H.
Qed.

Lemma keywordLoop_selfKeyed (limit : nat) (kms : list CaseSearchResult.t) :
  forall m, selfKeyed m -> selfKeyed (fold_left (keywordStep limit) kms m).
Proof.
  induction kms as [|r kms IH]; simpl; intros m Hm; [exact Hm|].
  apply IH. unfold keywordStep. destruct (map_size m <? limit); [|exact Hm].
  intros k r' Hin. apply map_set_In in Hin as [[= -> ->]|Hin]; [reflexivity|].
  now apply Hm.
Qed.

Lemma keywordLoop_values (limit : nat) (kms : list CaseSearchResult.t) (P : CaseSearchResult.t -> Prop) :
  (forall r, In r kms -> P r) ->
  forall m, (forall r, In r (map_values m) -> P r) ->
    forall r, In r (map_values (fold_left (keywordStep limit) kms m)) -> P r.
Proof.
  induction kms as [|r0 kms IH]; simpl; intros Hk m Hm; [exact Hm|].
  apply IH; [intros r Hr; apply Hk; now right|].
  unfold keywordStep. destruct (map_size m <? limit); [|exact Hm].
  intros r Hr. unfold map_values in Hr. apply in_map_iff in Hr as ([k r'] & Heq & Hin).
  simpl in Heq. subst r'. apply map_set_In in Hin as [[= _ ->]|Hin].
  - apply Hk. now left.
  - apply Hm. unfold map_values. apply in_map_iff. now exists (k, r).
Qed.

Lemma NoDup_firstn {A : Type} (n : nat) (l : list A) : NoDup l -> NoDup (firstn n l).
Proof.
  intros H. rewrite <- (firstn_skipn n l) in H. now apply NoDup_app_remove_r in H.
Qed.

Section Answers.

Variable matchCount : jsstring -> jsstring -> Completion nat.
Variable vectorSearch : jsstring -> nat -> Completion (list VectorSearchResult.t).
Variable cases : CaseLoader.t.

Lemma resultMapping_selfKeyed (query : jsstring) (options : Options.t)
  (m : JsMap CaseSearchResult.t) :
  resultMapping matchCount vectorSearch cases query options = Return m -> selfKeyed m.
Proof.
  unfold resultMapping.
  destruct (vectorSearch query _) as [hits|e]; simpl; [|discriminate].
  destruct (performKeywordSearch _ _ query) as [kms|e]; simpl; [|discriminate].
  intros [= <-]. apply keywordLoop_selfKeyed.
  intros k r Hin.
  now apply (vectorLoop_invariant (filteredCases cases options) query hits) in Hin.
Qed.

Lemma resultMapping_excerpts (query : jsstring) (options : Options.t)
  (m : JsMap CaseSearchResult.t) (r : CaseSearchResult.t) :
  resultMapping matchCount vectorSearch cases query options = Return m ->
  In r (map_values m) -> excerptOf query (filteredCases cases options) r.
Proof.
  unfold resultMapping.
  destruct (vectorSearch query _) as [hits|e]; simpl; [|discriminate].
  destruct (performKeywordSearch _ _ query) as [kms|e] eqn:Hk; simpl; [|discriminate].
  intros [= <-]. revert r. apply keywordLoop_values.
  - intros r Hr. apply performKeywordSearch_inv in Hk as (scored & Hf & ->).
    apply js_sort_In, filter_In in Hr as [Hr _].
    destruct (Forall2_In_r Hf Hr) as (c & Hc & Hs).
    apply scoreCase_inv in Hs as (Hfrom & _ & Hex).
    apply filter_In in Hc as [Hc _]. now exists c.
  - intros r Hr. unfold map_values in Hr. apply in_map_iff in Hr as ([k r'] & Heq & Hin).
    simpl in Heq. subst r'. clear Hk. revert k r Hin. unfold vectorLoop.
    assert (forall k r, In (k, r) (@nil (jsstring * CaseSearchResult.t)) ->
              excerptOf query (filteredCases cases options) r) as H0 by (intros ? ? []).
    revert H0. generalize (@nil (jsstring * CaseSearchResult.t)).
    induction hits as [|hit hits IH]; simpl; intros m0 Hm0; [exact Hm0|].
    apply IH. unfold vectorStep.
    destruct (find _ (filteredCases cases options)) as [c|] eqn:Hfind; [|exact Hm0].
    apply find_id in Hfind as [Hc _].
    intros k r Hin. apply map_set_In in Hin as [[= _ ->]|Hin]; [|now apply (Hm0 k)].
    exists c. split; [exact Hc|]. split; [apply vectorHit_fromCase|reflexivity].
Qed.

End Answers.

(** X4.  [searchCases] never returns two results with the same id, whatever
    the vector service answers (hits with one id several times included) and
    whatever the store holds. *)
Theorem search_results_distinct
  (matchCount : jsstring -> jsstring -> Completion nat)
  (vectorSearch : jsstring -> nat -> Completion (list VectorSearchResult.t))
  (cases : CaseLoader.t) (query : jsstring) (options : Options.t)
  (results : list CaseSearchResult.t) :
  searchCases matchCount vectorSearch cases query options = Return results ->
  NoDup (map CaseSearchResult.id results).
Proof.
  unfold searchCases.
  destruct (resultMapping matchCount vectorSearch cases query options) as [m|e] eqn:Hm;
    simpl; intros [= <-]; [|constructor].
  rewrite <- firstn_map. apply NoDup_firstn.
  apply (Permutation_NoDup (l := map CaseSearchResult.id (map_values m))).
  - apply Permutation_map. symmetry. apply js_sort_perm.
  - rewrite (selfKeyed_keys m (resultMapping_selfKeyed _ _ _ _ _ _ Hm)).
    exact (resultMapping_NoDup _ _ _ _ _ _ Hm).
Qed.

Lemma search_results_distinct_witness :
  exists results,
    searchCases RegExp.matchCount
      (fun _ _ => Return [Fixture.hit "a" (9 # 10); Fixture.hit "a" (1 # 10)])
      Fixture.store (str "auth") Fixture.noOptions = Return results
    /\ map CaseSearchResult.id results = [str "b"; str "a"]
    /\ NoDup (map CaseSearchResult.id results).
Proof.
  eexists. split; [vm_compute; reflexivity|]. split; [vm_compute; reflexivity|].
  apply (search_results_distinct RegExp.matchCount
           (fun _ _ => Return [Fixture.hit "a" (9 # 10); Fixture.hit "a" (1 # 10)])
           Fixture.store (str "auth") Fixture.noOptions).
  vm_compute. reflexivity.
Defined.

(** X5.  Every result of [searchCases], vector-matched or keyword-matched,
    copies a document of the store that passes the filters, and its excerpt is
    the excerpt of that document's content for the query, of at most 200
    characters. *)
Theorem search_excerpts_bounded
  (matchCount : jsstring -> jsstring -> Completion nat)
  (vectorSearch : jsstring -> nat -> Completion (list VectorSearchResult.t))
  (cases : CaseLoader.t) (query : jsstring) (options : Options.t)
  (results : list CaseSearchResult.t) (r : CaseSearchResult.t) :
  searchCases matchCount vectorSearch cases query options = Return results ->
  In r results ->
  length (CaseSearchResult.excerpt r) <= 200
  /\ exists c,
       In c (filteredCases cases options) /\ fromCase c r
       /\ CaseSearchResult.excerpt r = createExcerpt (Case.content c) query 200.
Proof.
  unfold searchCases.
  destruct (resultMapping matchCount vectorSearch cases query options) as [m|e] eqn:Hm;
    simpl; intros [= <-]; [|intros []].
  intros Hr. apply In_firstn, js_sort_In in Hr.
  destruct (resultMapping_excerpts _ _ _ _ _ _ _ Hm Hr) as (c & Hc & Hfrom & Hex).
  split; [|now exists c].
  rewrite Hex. unfold createExcerpt, truncateExcerpt, defaultMaxLength.
  destruct (200 <? length (chosenSentence (Case.content c) query)) eqn:Hlt.
  - rewrite length_app, length_firstn. change (length (str "...")) with 3. lia.
  - now apply Nat.ltb_ge in Hlt.
Qed.

Lemma search_excerpts_bounded_witness :
  exists r,
    searchCases RegExp.matchCount
      (searchSimilar Fixture.embeddings_up Fixture.index_empty) Fixture.store
      (str "stripe") Fixture.noOptions = Return [r]
    /\ length (CaseSearchResult.excerpt r) <= 200
    /\ CaseSearchResult.excerpt r = str "Use Stripe for checkout".
Proof.
  eexists. split; [vm_compute; reflexivity|]. split; [|vm_compute; reflexivity].
  apply (search_excerpts_bounded RegExp.matchCount
           (searchSimilar Fixture.embeddings_up Fixture.index_empty) Fixture.store
           (str "stripe") Fixture.noOptions _ _ eq_refl).
  left. reflexivity.
Defined.

(** ** Lookup and listing after a load *)

Lemma find_app {A : Type} (p : A -> bool) (l1 l2 : list A) :
  find p (l1 ++ l2) = match find p l1 with Some x => Some x | None => find p l2 end.
Proof.
  induction l1 as [|x l1 IH]; simpl; [reflexivity|]. now destruct (p x).
Qed.

Lemma map_get_set {V : Type} (m : JsMap V) (k k' : jsstring) (v : V) :
  map_get (map_set k v m) k' = if streq k k' then Some v else map_get m k'.
Proof.
  destruct (streq k k') eqn:E.
  - apply streq_eq in E. subst k'. apply map_get_set_same.
  - apply streq_neq in E. now apply map_get_set_other.
Qed.

Lemma map_get_Some_In {V : Type} (m : JsMap V) (k : jsstring) (v : V) :
  map_get m k = Some v -> In (k, v) m.
Proof.
  induction m as [|[k' v'] m IH]; simpl; [discriminate|].
  destruct (streq k' k) eqn:E.
  - apply streq_eq in E. intros [= ->]. left. now subst.
  - intros H. right. now apply IH.
Qed.

Lemma loadCases_get (parsed : list Case.t) (id : jsstring) :
  forall cases : CaseLoader.t,
    map_get (fold_left CaseLoader.loadCase parsed cases) id
    = match find (fun c => streq (Case.id c) id) (rev parsed) with
      | Some c => Some c
      | None => map_get cases id
      end.
Proof.
  induction parsed as [|c parsed IH]; intros cases; simpl; [reflexivity|].
  rewrite IH, find_app. destruct (find _ (rev parsed)); [reflexivity|].
  simpl. unfold CaseLoader.loadCase. rewrite map_get_set.
  now destruct (streq (Case.id c) id).
Qed.

Lemma getCase_loadAllCases (parsed : list Case.t) (id : jsstring) :
  CaseLoader.getCase (CaseLoader.loadAllCases parsed) id
  = find (fun c => streq (Case.id c) id) (rev parsed).
Proof.
  unfold CaseLoader.getCase, CaseLoader.loadAllCases. rewrite loadCases_get.
  now destruct (find _ (rev parsed)).
Qed.

(** X6.  After [loadAllCases], [getCase(id)] is the document loaded last
    among those with that id, and [undefined] when no loaded document has the
    id: a later document replaces an earlier one with the same id. *)
Theorem getCase_last_loaded (parsed : list Case.t) (id : jsstring) :
  CaseLoader.getCase (CaseLoader.loadAllCases parsed) id
  = find (fun c => streq (Case.id c) id) (rev parsed)
  /\ (CaseLoader.getCase (CaseLoader.loadAllCases parsed) id = None
      <-> ~ In id (map Case.id parsed)).
Proof.
  split; [apply getCase_loadAllCases|]. rewrite getCase_loadAllCases. split.
  - intros Hnone Hin. apply in_map_iff in Hin as (c & Hid & Hin).
    apply in_rev in Hin. pose proof (find_none _ _ Hnone c Hin) as Hne.
    apply streq_neq in Hne. contradiction.
  - intros Hnot. destruct (find _ (rev parsed)) as [c|] eqn:Hfind; [|reflexivity].
    apply find_some in Hfind as [Hin Heq]. apply streq_eq in Heq.
    exfalso. apply Hnot. apply in_map_iff. exists c. split; [exact Heq|].
    now apply in_rev.
Qed.

(** X7.  After [loadAllCases], [getAllCases] lists no id twice, and a
    document is listed exactly when it is the one loaded last among the
    documents with its id. *)
Theorem getAllCases_last_loaded (parsed : list Case.t) :
  NoDup (map Case.id (CaseLoader.getAllCases (CaseLoader.loadAllCases parsed)))
  /\ forall c,
       In c (CaseLoader.getAllCases (CaseLoader.loadAllCases parsed))
       <-> find (fun c' => streq (Case.id c') (Case.id c)) (rev parsed) = Some c.
Proof.
  pose proof (loadAllCases_wellKeyed parsed) as Hwk.
  split; [now apply getAllCases_NoDup|]. intros c.
  rewrite <- getCase_loadAllCases. split.
  - intros Hin. now apply (getCase_getAllCases _ _ Hwk).
  - intros Hget. apply map_get_Some_In in Hget.
    unfold CaseLoader.getAllCases, map_values. apply in_map_iff.
    now exists (Case.id c, c).
Qed.

(** ** Substrings *)

Lemma startsWith_iff (s prefix : jsstring) :
  startsWith s prefix = true <-> exists rest, s = prefix ++ rest.
Proof.
  revert s. induction prefix as [|p prefix IH]; intros s; simpl.
  - split; [intros _; now exists s|reflexivity].
  - destruct s as [|c s].
    + split; [discriminate|]. intros [rest H]. discriminate.
    + rewrite andb_true_iff, IH. split.
      * intros [Hc [rest ->]]. apply Ascii.eqb_eq in Hc. subst. now exists rest.
      * intros [rest [= -> ->]]. split; [apply Ascii.eqb_refl|now exists rest].
Qed.

Lemma includes_iff (s term : jsstring) :
  includes s term = true <-> exists before after, s = before ++ term ++ after.
Proof.
  induction s as [|c s IH]; simpl.
  - rewrite orb_false_r, startsWith_iff. split.
    + intros [rest H]. now exists [], rest.
    + intros ([|b before] & after & H); [now exists after|discriminate].
  - rewrite orb_true_iff, startsWith_iff, IH. split.
    + intros [[rest H]|(before & after & ->)].
      * now exists [], rest.
      * now exists (c :: before), after.
    + intros ([|b before] & after & H).
      * left. now exists after.
      * right. injection H as -> ->. now exists before, after.
Qed.

(** X8.  [getCasesByTag(tag)] returns exactly the documents of the store
    one of whose tags, lowercased, holds the lowercased [tag] as a substring.
    So a document is found by each of its tags written in any letter case,
    and the empty [tag] finds every document that has a tag. *)
Theorem getCasesByTag_substring (cases : CaseLoader.t) (tag : jsstring) (c : Case.t) :
  (In c (Loader.getCasesByTag cases tag)
   <-> In c (CaseLoader.getAllCases cases)
       /\ exists t before after,
            In t (Case.tags c)
            /\ toLowerCase t = before ++ toLowerCase tag ++ after)
  /\ (forall t,
        In c (CaseLoader.getAllCases cases) ->
        In t (Case.tags c) ->
        toLowerCase t = toLowerCase tag ->
        In c (Loader.getCasesByTag cases tag))
  /\ (In c (Loader.getCasesByTag cases [])
      <-> In c (CaseLoader.getAllCases cases) /\ Case.tags c <> []).
Proof.
  assert (forall wanted,
            In c (Loader.getCasesByTag cases wanted)
            <-> In c (CaseLoader.getAllCases cases)
                /\ exists t before after,
                     In t (Case.tags c)
                     /\ toLowerCase t = before ++ toLowerCase wanted ++ after) as Hiff.
  { intros wanted. unfold Loader.getCasesByTag. rewrite filter_In, existsb_exists.
    split; intros [Hin H]; (split; [exact Hin|]).
    - destruct H as (t & Ht & Hinc). apply includes_iff in Hinc as (b & a & Heq).
      now exists t, b, a.
    - destruct H as (t & b & a & Ht & Heq). exists t. split; [exact Ht|].
      apply includes_iff. now exists b, a. }
  split; [apply Hiff|]. split.
  - intros t Hin Htag Heq. apply Hiff. split; [exact Hin|].
    exists t, [], []. split; [exact Htag|]. now rewrite Heq, app_nil_r.
  - rewrite Hiff. split; intros [Hin H]; (split; [exact Hin|]).
    + destruct H as (t & _ & _ & Ht & _). intros Hnil. now rewrite Hnil in Ht.
    + destruct (Case.tags c) as [|t ts]; [congruence|].
      exists t, [], (toLowerCase t). split; [now left|reflexivity].
Qed.

(** ** The directory walk *)

Section DirentInduction.

Variable P : dirent -> Prop.
Hypothesis listed :
  forall name entries, Forall P entries -> P (Directory name (Return entries)).
Hypothesis unlisted : forall name e, P (Directory name (Throw e)).
Hypothesis file : forall name parsed, P (RegularFile name parsed).
Hypothesis other : forall name, P (OtherEntry name).

Fixpoint dirent_nested_ind (entry : dirent) : P entry :=
  match entry with
  | Directory name (Return entries) =>
      listed name entries
        ((fix all (es : list dirent) : Forall P es :=
            match es with
            | [] => Forall_nil P
            | e :: es' => Forall_cons e (dirent_nested_ind e) (all es')
            end) entries)
  | Directory name (Throw e) => unlisted name e
  | RegularFile name parsed => file name parsed
  | OtherEntry name => other name
  end.

End DirentInduction.

Section Walk.

Variable sep : ascii.
Variable join : jsstring -> jsstring -> jsstring.

Lemma loadCase_refines (cases : CaseLoader.t) (filePath : jsstring)
  (parsed : Completion (value * jsstring)) :
  Loader.loadCase sep cases filePath parsed
  = fold_left CaseLoader.loadCase
      (match Loader.readCase sep filePath parsed with
       | Return caseItem => [caseItem]
       | Throw _ => []
       end) cases.
Proof.
  unfold Loader.loadCase. now destruct (Loader.readCase sep filePath parsed).
Qed.

Lemma loadEntry_refines (entry : dirent) :
  forall dirPath cases,
    Loader.loadEntry sep join dirPath entry cases
    = fold_left CaseLoader.loadCase (Loader.casesOfEntry sep join dirPath entry) cases.
Proof.
  induction entry as [name entries IH|name e|name parsed|name]
    using dirent_nested_ind; intros dirPath cases; simpl; try reflexivity.
  - generalize (join dirPath name) as fullPath. intros fullPath. revert cases.
    induction IH as [|e es He _ IHes]; intros cases; [reflexivity|].
    rewrite fold_left_app, <- He. apply IHes.
  - destruct (endsWith name _); [apply loadCase_refines|reflexivity].
Qed.

Lemma loadCasesFromDirectory_refines (dirPath : jsstring)
  (listing : Completion (list dirent)) (cases : CaseLoader.t) :
  Loader.loadCasesFromDirectory sep join dirPath listing cases
  = fold_left CaseLoader.loadCase
      (Loader.casesOfDirectory sep join dirPath listing) cases.
Proof.
  destruct listing as [entries|e]; simpl; [|reflexivity]. revert cases.
  induction entries as [|entry entries IH]; intros cases; simpl; [reflexivity|].
  now rewrite fold_left_app, <- loadEntry_refines.
Qed.

(** X9.  The store that [loadAllCases] builds by walking a directory tree is
    the store obtained from the documents that are read, parsed and accepted
    by the schema, taken in the order of the walk, by one [cases.set] each:
    the files in between leave no trace. *)
Theorem loadAllCases_walk (casesDir : jsstring) (listing : Completion (list dirent)) :
  Loader.loadAllCases sep join casesDir listing
  = CaseLoader.loadAllCases (Loader.casesOfDirectory sep join casesDir listing).
Proof. apply loadCasesFromDirectory_refines. Qed.

Lemma casesOfEntry_unusable (dirPath : jsstring) (entry : dirent) :
  unusable entry -> Loader.casesOfEntry sep join dirPath entry = [].
Proof.
  destruct entry as [name [entries|e]|name parsed|name]; simpl; try reflexivity;
    [contradiction|].
  intros [->|[[e ->]|(data & content & e & -> & Hparse)]]; try reflexivity.
  - now destruct (endsWith name _).
  - destruct (endsWith name _); [|reflexivity].
    unfold Loader.readCase. cbn [bind fst]. now rewrite Hparse.
Qed.

(** X10.  An entry that is neither file nor directory, a directory that
    cannot be listed, a file whose name does not end in [.md], that cannot be
    read or parsed, or whose frontmatter the schema refuses, changes nothing:
    the walk stores what it stores without that entry. *)
Theorem walk_skips_unusable_entries (dirPath : jsstring)
  (before after : list dirent) (entry : dirent) (cases : CaseLoader.t) :
  unusable entry ->
  Loader.loadCasesFromDirectory sep join dirPath (Return (before ++ entry :: after)) cases
  = Loader.loadCasesFromDirectory sep join dirPath (Return (before ++ after)) cases.
Proof.
  intros Hbad. rewrite !loadCasesFromDirectory_refines. simpl.
  rewrite !flat_map_app. simpl. now rewrite (casesOfEntry_unusable dirPath entry Hbad).
Qed.

End Walk.

(** ** The schema and the store *)

Ltac bind_inv H :=
  repeat match type of H with
         | bind ?c _ = Return _ =>
             let E := fresh "E" in
             destruct c eqn:E; cbn [bind] in H; [|discriminate H]
         | (if ?b then _ else _) = Return _ =>
             let E := fresh "E" in
             destruct b eqn:E; [|discriminate H]
         end.

Lemma zod_string_inv (v : value) (s : jsstring) :
  Zod.string v = Return s -> v = VString s.
Proof. destruct v; simpl; intros H; try discriminate H. now injection H as ->. Qed.

Lemma zod_nonEmptyString_inv (v : value) (s : jsstring) :
  Zod.nonEmptyString v = Return s -> v = VString s /\ s <> [].
Proof.
  unfold Zod.nonEmptyString. intros H. bind_inv H. injection H as <-.
  split; [now apply zod_string_inv|]. intros ->. discriminate.
Qed.

Lemma zod_enum_inv (options : list jsstring) (v : value) (s : jsstring) :
  Zod.enum options v = Return s -> v = VString s /\ In s options.
Proof.
  unfold Zod.enum. intros H. bind_inv H. injection H as <-.
  split; [now apply zod_string_inv|].
  apply existsb_exists in E0 as (o & Ho & Heq). apply streq_eq in Heq. now subst.
Qed.

Lemma zod_enum_ok (options : list jsstring) (s : jsstring) :
  In s options -> Zod.enum options (VString s) = Return s.
Proof.
  intros Hin. unfold Zod.enum. simpl.
  replace (existsb (streq s) options) with true; [reflexivity|].
  symmetry. apply existsb_exists. exists s. split; [exact Hin|apply streq_refl].
Qed.

Lemma categories_nonempty (s : jsstring) : In s categories -> s <> [].
Proof. intros H ->. simpl in H. repeat destruct H as [H|H]; discriminate || exact H. Qed.

(** What an accepted frontmatter holds. *)
Lemma CaseFrontmatterSchema_parse_inv (data : value) (fm : CaseFrontmatter.t) :
  CaseFrontmatterSchema_parse data = Return fm ->
  CaseFrontmatter.id fm <> []
  /\ CaseFrontmatter.title fm <> []
  /\ In (CaseFrontmatter.category fm) categories
  /\ CaseFrontmatter.tags fm <> []
  /\ In (CaseFrontmatter.difficulty fm) difficulties
  /\ isDate (CaseFrontmatter.last_updated fm) = true.
Proof.
  unfold CaseFrontmatterSchema_parse. destruct data; try discriminate.
  intros H. bind_inv H. injection H as <-. simpl.
  apply zod_nonEmptyString_inv in E as [_ Hid].
  apply zod_nonEmptyString_inv in E0 as [_ Htitle].
  apply zod_enum_inv in E1 as [_ Hcat]. apply zod_enum_inv in E3 as [_ Hdiff].
  unfold Zod.nonEmptyArrayOfString in E2. bind_inv E2. injection E2 as <-.
  unfold Zod.matching in E4. bind_inv E4. injection E4 as <-.
  repeat split; try assumption. intros ->. discriminate.
Qed.

Section StoredDocuments.

Variable sep : ascii.
Variable join : jsstring -> jsstring -> jsstring.

Lemma readCase_inv (filePath : jsstring) (parsed : Completion (value * jsstring))
  (c : Case.t) :
  Loader.readCase sep filePath parsed = Return c ->
  exists data content fm,
    parsed = Return (data, content)
    /\ CaseFrontmatterSchema_parse data = Return fm
    /\ c = Loader.caseOf sep filePath fm content.
Proof.
  unfold Loader.readCase. intros H. bind_inv H. injection H as <-.
  destruct a as [data content]. now exists data, content, a0.
Qed.

Lemma caseOf_category (filePath : jsstring) (fm : CaseFrontmatter.t) (content : jsstring) :
  In (CaseFrontmatter.category fm) categories ->
  Case.category (Loader.caseOf sep filePath fm content) = CaseFrontmatter.category fm.
Proof.
  intros Hcat. apply categories_nonempty in Hcat. unfold Loader.caseOf. simpl.
  now destruct (CaseFrontmatter.category fm).
Qed.

Lemma readCase_schemaValid (filePath : jsstring) (parsed : Completion (value * jsstring))
  (c : Case.t) :
  Loader.readCase sep filePath parsed = Return c -> schemaValid c.
Proof.
  intros H. apply readCase_inv in H as (data & content & fm & _ & Hfm & ->).
  apply CaseFrontmatterSchema_parse_inv in Hfm as (Hid & Ht & Hc & Hg & Hd & Hl).
  unfold schemaValid. rewrite (caseOf_category _ _ _ Hc). simpl.
  repeat split; try assumption.
  now destruct (CaseFrontmatter.estimated_time fm) as [[|? ?]|].
Qed.

Lemma casesOfEntry_schemaValid (entry : dirent) :
  forall dirPath c, In c (Loader.casesOfEntry sep join dirPath entry) -> schemaValid c.
Proof.
  induction entry as [name entries IH|name e|name parsed|name]
    using dirent_nested_ind; intros dirPath c; simpl; try contradiction.
  - generalize (join dirPath name) as fullPath. intros fullPath.
    induction IH as [|e es He _ IHes]; [contradiction|].
    intros Hin. apply in_app_or in Hin as [Hin|Hin]; [now apply (He fullPath)|].
    now apply IHes.
  - destruct (endsWith name _); [|contradiction].
    destruct (Loader.readCase sep (join dirPath name) parsed) as [c'|e] eqn:Hread;
      [|contradiction].
    intros [<-|[]]. now apply (readCase_schemaValid _ _ _ Hread).
Qed.

Lemma getAllCases_loaded (parsed : list Case.t) (c : Case.t) :
  In c (CaseLoader.getAllCases (CaseLoader.loadAllCases parsed)) -> In c parsed.
Proof.
  intros Hin.
  apply (getCase_getAllCases _ _ (loadAllCases_wellKeyed parsed)) in Hin.
  rewrite getCase_loadAllCases in Hin. apply find_some in Hin as [Hin _].
  now apply in_rev.
Qed.

Lemma stored_schemaValid (casesDir : jsstring) (listing : Completion (list dirent))
  (c : Case.t) :
  In c (CaseLoader.getAllCases (Loader.loadAllCases sep join casesDir listing)) ->
  schemaValid c.
Proof.
  unfold Loader.loadAllCases. rewrite loadCasesFromDirectory_refines.
  intros Hin. apply getAllCases_loaded in Hin.
  destruct listing as [entries|e]; simpl in Hin; [|contradiction].
  apply in_flat_map in Hin as (entry & _ & Hin).
  now apply (casesOfEntry_schemaValid entry casesDir).
Qed.

(** X11.  Every document that is in the store after [loadAllCases] meets the
    schema: its id and its title are not empty, its category is one of the
    five and its difficulty one of the three of the schema, it has a tag, its
    [lastUpdated] has the shape [YYYY-MM-DD], and its [estimatedTime] is
    never the empty string. *)
Theorem stored_documents_meet_schema (casesDir : jsstring)
  (listing : Completion (list dirent)) (c : Case.t) :
  In c (CaseLoader.getAllCases (Loader.loadAllCases sep join casesDir listing)) ->
  Case.id c <> []
  /\ Case.title c <> []
  /\ In (Case.category c) categories
  /\ Case.tags c <> []
  /\ In (Case.difficulty c) difficulties
  /\ isDate (Case.lastUpdated c) = true
  /\ Case.estimatedTime c <> Some [].
Proof. apply stored_schemaValid. Qed.

End StoredDocuments.

(** X12.  The document that [loadCase] stores for a file takes nothing but
    its [filePath] from the path: whatever the directory and the separator,
    the other fields, the category among them, are those of the frontmatter
    and the content ([getCategoryFromPath] is never the source of a stored
    category). *)
Theorem stored_document_ignores_path (sep sep' : ascii) (filePath filePath' : jsstring)
  (parsed : Completion (value * jsstring)) (c : Case.t) :
  Loader.readCase sep filePath parsed = Return c ->
  Loader.readCase sep' filePath' parsed
  = Return (Case.mk (Case.id c) (Case.title c) (Case.category c) (Case.tags c)
              (Case.difficulty c) (Case.lastUpdated c) (Case.testedVersions c)
              (Case.estimatedTime c) (Case.prerequisites c) (Case.content c)
              filePath')
  /\ exists data content,
       parsed = Return (data, content)
       /\ property data (str "category") = VString (Case.category c).
Proof.
  intros H. apply readCase_inv in H as (data & content & fm & -> & Hfm & ->).
  pose proof (CaseFrontmatterSchema_parse_inv _ _ Hfm) as (_ & _ & Hc & _).
  split.
  - unfold Loader.readCase. cbn [bind fst snd]. rewrite Hfm. cbn [bind].
    rewrite (caseOf_category sep _ _ _ Hc). unfold Loader.caseOf.
    pose proof (categories_nonempty _ Hc) as Hne.
    destruct (CaseFrontmatter.category fm); [congruence|reflexivity].
  - exists data, content. split; [reflexivity|].
    rewrite (caseOf_category sep _ _ _ Hc).
    unfold CaseFrontmatterSchema_parse in Hfm. destruct data; try discriminate.
    bind_inv Hfm. injection Hfm as <-. apply zod_enum_inv in E1 as [Hp _].
    exact Hp.
Qed.

Lemma walk_skips_unusable_entries_witness :
  unusable Sample.refused
  /\ Loader.loadCasesFromDirectory "/"%char Sample.slashJoin (str "cases")
       (Return ([Sample.good] ++ Sample.refused :: [Sample.unreadable])) []
     = Loader.loadCasesFromDirectory "/"%char Sample.slashJoin (str "cases")
         (Return ([Sample.good] ++ [Sample.unreadable])) [].
Proof.
  assert (unusable Sample.refused) as Hbad.
  { right. right. eexists. eexists. exists Zod.ZodError. split; reflexivity. }
  split; [exact Hbad|].
  exact (walk_skips_unusable_entries "/"%char Sample.slashJoin (str "cases")
           [Sample.good] [Sample.unreadable] Sample.refused [] Hbad).
Defined.

Lemma stored_documents_meet_schema_witness :
  exists c,
    CaseLoader.getAllCases
      (Loader.loadAllCases "/"%char Sample.slashJoin (str "cases") Sample.tree) = [c]
    /\ Case.id c = str "a"
    /\ In (Case.category c) categories
    /\ Case.estimatedTime c = None.
Proof.
  eexists. split; [vm_compute; reflexivity|]. split; [reflexivity|].
  split; [|reflexivity].
  refine (proj1 (proj2 (proj2
    (stored_documents_meet_schema "/"%char Sample.slashJoin (str "cases") Sample.tree
       _ _)))).
  vm_compute. left. reflexivity.
Defined.

Lemma stored_document_ignores_path_witness :
  exists c,
    Loader.readCase "/"%char (str "cases/mobile/stripe.md")
      (Return (Sample.frontmatter "a" "web", Sample.body)) = Return c
    /\ Case.category c = str "web"
    /\ exists c',
         Loader.readCase "\"%char (str "stripe.md")
           (Return (Sample.frontmatter "a" "web", Sample.body)) = Return c'
         /\ Case.category c' = str "web" /\ Case.filePath c' = str "stripe.md".
Proof.
  eexists. split; [vm_compute; reflexivity|]. split; [reflexivity|].
  eexists. split.
  - refine (proj1 (stored_document_ignores_path "/"%char "\"%char
                     (str "cases/mobile/stripe.md") (str "stripe.md")
                     (Return (Sample.frontmatter "a" "web", Sample.body)) _ _)).
    vm_compute. reflexivity.
  - split; reflexivity.
Defined.

(** ** The category of a path *)

Lemma splitOn_nonempty (sep : ascii) (s : jsstring) : splitOn sep s <> [].
Proof.
  destruct s as [|c s]; simpl; [discriminate|].
  destruct (Ascii.eqb c sep); [discriminate|]. now destruct (splitOn sep s).
Qed.

Lemma splitOn_piece (sep : ascii) (piece rest : jsstring) :
  ~ In sep piece -> splitOn sep (piece ++ sep :: rest) = piece :: splitOn sep rest.
Proof.
  induction piece as [|c piece IH]; simpl; intros Hsep.
  - now rewrite Ascii.eqb_refl.
  - destruct (Ascii.eqb c sep) eqn:E; [apply Ascii.eqb_eq in E; tauto|].
    rewrite IH by tauto. reflexivity.
Qed.

Lemma splitOn_single (sep : ascii) (piece : jsstring) :
  ~ In sep piece -> splitOn sep piece = [piece].
Proof.
  induction piece as [|c piece IH]; simpl; intros Hsep; [reflexivity|].
  destruct (Ascii.eqb c sep) eqn:E; [apply Ascii.eqb_eq in E; tauto|].
  rewrite IH by tauto. reflexivity.
Qed.

(** Splitting what was joined gives the pieces back. *)
Lemma splitOn_joinWith (sep : ascii) (parts : list jsstring) :
  parts <> [] -> (forall p, In p parts -> ~ In sep p) ->
  splitOn sep (joinWith sep parts) = parts.
Proof.
  induction parts as [|p parts IH]; [congruence|]. intros _ Hsep.
  destruct parts as [|q parts].
  - simpl. apply splitOn_single, Hsep. now left.
  - change (joinWith sep (p :: q :: parts)) with (p ++ sep :: joinWith sep (q :: parts)).
    rewrite splitOn_piece by (apply Hsep; now left).
    rewrite IH; [reflexivity|discriminate|]. intros r Hr. apply Hsep. now right.
Qed.

(** Joining what was split gives the string back. *)
Lemma joinWith_splitOn (sep : ascii) (s : jsstring) :
  joinWith sep (splitOn sep s) = s.
Proof.
  induction s as [|c s IH]; [reflexivity|]. simpl.
  pose proof (splitOn_nonempty sep s) as Hne.
  destruct (Ascii.eqb c sep) eqn:E.
  - apply Ascii.eqb_eq in E. subst c.
    destruct (splitOn sep s) as [|piece pieces]; [congruence|].
    cbn [joinWith app]. cbn [joinWith] in IH. now rewrite IH.
  - destruct (splitOn sep s) as [|piece pieces]; [congruence|].
    destruct pieces; cbn [joinWith app] in *; now rewrite IH.
Qed.

Lemma findIndex_first {A : Type} (p : A -> bool) (before : list A) (x : A) (after : list A) :
  (forall y, In y before -> p y = false) -> p x = true ->
  findIndex p (before ++ x :: after) = Some (length before).
Proof.
  induction before as [|y before IH]; simpl; intros Hb Hx; [now rewrite Hx|].
  rewrite (Hb y (or_introl eq_refl)), IH; auto.
Qed.

Lemma findIndex_none {A : Type} (p : A -> bool) (xs : list A) :
  (forall y, In y xs -> p y = false) -> findIndex p xs = None.
Proof.
  induction xs as [|y xs IH]; simpl; intros H; [reflexivity|].
  rewrite (H y (or_introl eq_refl)), IH; auto.
Qed.

(** X13.  [getCategoryFromPath] always answers one of the five categories.
    For a path whose first component ["cases"] is followed by a component
    [c], the answer is [c] if [c] is one of the five and ["tools"] if not;
    without a component ["cases"] the answer is ["tools"]. *)
Theorem getCategoryFromPath_answer (sep : ascii) (filePath : jsstring) :
  In (Loader.getCategoryFromPath sep filePath) categories
  /\ (forall before c after,
        (forall p, In p (before ++ str "cases" :: c :: after) -> ~ In sep p) ->
        ~ In (str "cases") before ->
        filePath = joinWith sep (before ++ str "cases" :: c :: after) ->
        Loader.getCategoryFromPath sep filePath
        = if existsb (streq c) categories then c else str "tools")
  /\ (~ In (str "cases") (splitOn sep filePath) ->
      Loader.getCategoryFromPath sep filePath = str "tools").
Proof.
  assert (In (str "tools") categories) as Htools by (simpl; tauto).
  split; [|split].
  - unfold Loader.getCategoryFromPath.
    destruct (findIndex _ _) as [i|]; [|exact Htools].
    destruct (i <? _); [|exact Htools].
    destruct (nth_error _ _) as [c|]; [|exact Htools].
    destruct (truthy (Some c) && existsb (streq c) categories) eqn:E; [|exact Htools].
    apply andb_true_iff in E as [_ E]. apply existsb_exists in E as (o & Ho & Heq).
    apply streq_eq in Heq. now subst.
  - intros before c after Hsep Hnot ->. unfold Loader.getCategoryFromPath.
    rewrite splitOn_joinWith; [|now destruct before|exact Hsep].
    rewrite findIndex_first;
      [|intros y Hy; apply streq_neq; intros ->; contradiction|apply streq_refl].
    rewrite (proj2 (Nat.ltb_lt _ _)) by (rewrite length_app; simpl; lia).
    rewrite nth_error_app2 by lia.
    replace (length before + 1 - length before) with 1 by lia. cbn [nth_error].
    destruct (existsb (streq c) categories) eqn:E.
    + assert (c <> []) as Hne.
      { apply existsb_exists in E as (o & Ho & Heq). apply streq_eq in Heq. subst o.
        now apply categories_nonempty in Ho. }
      destruct c; [congruence|reflexivity].
    + now rewrite andb_false_r.
  - intros Hnot. unfold Loader.getCategoryFromPath.
    rewrite findIndex_none; [reflexivity|].
    intros y Hy. apply streq_neq. intros ->. contradiction.
Qed.

(** ** The script [validateCases] on a loaded store *)

Lemma mapM_string (l : list jsstring) : mapM Zod.string (map VString l) = Return l.
Proof. induction l as [|x l IH]; simpl; [reflexivity|]. now rewrite IH. Qed.

Lemma mapM_record (r : list (jsstring * jsstring)) :
  mapM (fun kv : jsstring * value => s <- Zod.string (snd kv) ;; Return (fst kv, s))
    (map (fun kv : jsstring * jsstring => (fst kv, VString (snd kv))) r)
  = Return r.
Proof.
  induction r as [|[k v] r IH]; simpl; [reflexivity|]. now rewrite IH.
Qed.

(** The schema gives back the fields of a document that meets it. *)
Lemma parse_frontmatterOf (c : Case.t) :
  schemaValid c ->
  CaseFrontmatterSchema_parse (Validate.frontmatterOf c)
  = Return (CaseFrontmatter.mk (Case.id c) (Case.title c) (Case.category c)
              (Case.tags c) (Case.difficulty c) (Case.lastUpdated c)
              (Case.testedVersions c) (Case.estimatedTime c) (Case.prerequisites c)).
Proof.
  intros (Hid & Htitle & Hcat & Htags & Hdiff & Hdate & _).
  unfold CaseFrontmatterSchema_parse, Validate.frontmatterOf.
  change (property (VObject ?f) (str "id")) with (VString (Case.id c)).
  change (property (VObject ?f) (str "title")) with (VString (Case.title c)).
  change (property (VObject ?f) (str "category")) with (VString (Case.category c)).
  change (property (VObject ?f) (str "tags")) with (VArray (map VString (Case.tags c))).
  change (property (VObject ?f) (str "difficulty")) with (VString (Case.difficulty c)).
  change (property (VObject ?f) (str "last_updated"))
    with (VString (Case.lastUpdated c)).
  change (property (VObject ?f) (str "tested_versions"))
    with (Validate.optionalValue
            (fun r => VObject (map (fun kv => (fst kv, VString (snd kv))) r))
            (Case.testedVersions c)).
  change (property (VObject ?f) (str "estimated_time"))
    with (Validate.optionalValue VString (Case.estimatedTime c)).
  change (property (VObject ?f) (str "prerequisites"))
    with (Validate.optionalValue (fun l => VArray (map VString l))
            (Case.prerequisites c)).
  rewrite (zod_enum_ok _ _ Hcat), (zod_enum_ok _ _ Hdiff).
  unfold Zod.nonEmptyString, Zod.nonEmptyArrayOfString, Zod.arrayOfString, Zod.matching.
  cbn [Zod.string bind]. rewrite mapM_string, Hdate. cbn [bind].
  destruct (Case.id c) as [|? ?]; [congruence|].
  destruct (Case.title c) as [|? ?]; [congruence|].
  destruct (Case.tags c) as [|? ?]; [congruence|]. cbn [length Nat.leb bind].
  destruct (Case.testedVersions c) as [versions|], (Case.estimatedTime c) as [time|],
    (Case.prerequisites c) as [needed|];
    cbn [Validate.optionalValue Zod.optional Zod.recordOfString Zod.string
           Zod.arrayOfString bind];
    rewrite ?mapM_record, ?mapM_string; reflexivity.
Qed.

Lemma validateCases_counts (cases : list Case.t) :
  (forall c, In c cases -> schemaValid c) ->
  forall valid errors,
    fold_left Validate.count cases (valid, errors) = (valid + length cases, errors).
Proof.
  induction cases as [|c cases IH]; intros Hvalid valid errors; simpl.
  - f_equal. lia.
  - unfold Validate.count at 2, Validate.validateCase.
    rewrite (parse_frontmatterOf c) by (apply Hvalid; now left). simpl.
    rewrite IH by (intros c' Hc'; apply Hvalid; now right). f_equal. lia.
Qed.

(** X14.  On the documents that [loadAllCases] returns, the script
    [validateCases] counts every document as valid and none as an error, and
    does not exit with a failure: the schema accepts again what it accepted
    when the document was loaded. *)
Theorem validateCases_accepts_loaded (sep : ascii) (join : jsstring -> jsstring -> jsstring)
  (casesDir : jsstring) (listing : Completion (list dirent)) :
  Validate.validateCases
    (CaseLoader.getAllCases (Loader.loadAllCases sep join casesDir listing))
  = (length (CaseLoader.getAllCases (Loader.loadAllCases sep join casesDir listing)), 0)
  /\ Validate.exitsWithFailure
       (CaseLoader.getAllCases (Loader.loadAllCases sep join casesDir listing))
     = false.
Proof.
  assert (Validate.validateCases
            (CaseLoader.getAllCases (Loader.loadAllCases sep join casesDir listing))
          = (length (CaseLoader.getAllCases
                       (Loader.loadAllCases sep join casesDir listing)), 0)) as H.
  { unfold Validate.validateCases. rewrite validateCases_counts; [reflexivity|].
    intros c. apply stored_schemaValid. }
  split; [exact H|]. unfold Validate.exitsWithFailure. now rewrite H.
Qed.

Lemma includes_tail (s : jsstring) (c : ascii) (term : jsstring) :
  includes s (c :: term) = true -> includes s term = true.
Proof.
  intros H. apply includes_iff in H as (before & after & ->). apply includes_iff.
  exists (before ++ [c]), after. now rewrite <- app_assoc.
Qed.

(** X15.  The script reports a required section as missing exactly when the
    lowercased content nowhere holds ["# "] followed by the name of the
    section: the test for ["## "] adds nothing, and a header of any depth, or
    such text inside a line, counts as the section. *)
Theorem missingSections_single_test (caseItem : Case.t) :
  Validate.missingSections caseItem
  = filter (fun section =>
              negb (includes (toLowerCase (Case.content caseItem))
                      (str "# " ++ section)))
      Validate.requiredSections.
Proof.
  unfold Validate.missingSections. apply filter_ext. intros section.
  destruct (includes _ (str "## " ++ section)) eqn:Hdeep; [|reflexivity].
  change (str "## " ++ section) with ("#"%char :: str "# " ++ section) in Hdeep.
  now rewrite (includes_tail _ _ _ Hdeep).
Qed.

(** ** The tool [get-case] *)

Section GetCase.
Import Server.

Lemma filterLines_noSelection (sections lines : list jsstring) :
  noSelection sections lines -> filterLines sections lines false = [].
Proof.
  induction lines as [|line lines IH]; intros Hno; [reflexivity|].
  cbn [filterLines].
  assert (noSelection sections lines) as Hrest
    by (intros l Hl; apply Hno; now right).
  destruct (isHeader line) eqn:Hh; [|now apply IH].
  rewrite (Hno line (or_introl eq_refl) Hh). now apply IH.
Qed.

Lemma filterLines_body (sections body rest : list jsstring) (b : bool) :
  (forall line, In line body -> isHeader line = false) ->
  filterLines sections (body ++ rest) b
  = (if b then body else []) ++ filterLines sections rest b.
Proof.
  induction body as [|line body IH]; intros Hbody; [now destruct b|].
  cbn [filterLines app]. rewrite (Hbody line (or_introl eq_refl)).
  rewrite IH by (intros l Hl; apply Hbody; now right). now destruct b.
Qed.

(** A section, that is a header line and the lines without [#] at their start
    behind it, is kept whole or dropped whole, on its header alone. *)
Lemma filterLines_section (sections : list jsstring) (header : jsstring)
  (body rest : list jsstring) (b : bool) :
  isHeader header = true ->
  (forall line, In line body -> isHeader line = false) ->
  filterLines sections (header :: body ++ rest) b
  = (if sectionMatches sections (headerTextOf header) then header :: body else [])
    ++ filterLines sections rest (sectionMatches sections (headerTextOf header)).
Proof.
  intros Hh Hbody. cbn [filterLines]. rewrite Hh.
  rewrite (filterLines_body _ _ _ _ Hbody).
  now destruct (sectionMatches sections (headerTextOf header)).
Qed.

Lemma filterLines_after_section (sections rest : list jsstring) :
  noSelection sections rest ->
  (rest = [] \/ exists header rest', rest = header :: rest' /\ isHeader header = true) ->
  forall b, filterLines sections rest b = [].
Proof.
  intros Hno [->|(header & rest' & -> & Hh)] b; [reflexivity|].
  cbn [filterLines]. rewrite Hh, (Hno header (or_introl eq_refl) Hh).
  apply filterLines_noSelection. intros l Hl. apply Hno. now right.
Qed.

(** X16.  When one header of the content opens a requested section, and no
    other header does, [filterCaseSections] returns that header line and the
    lines behind it up to the next line that starts with [#], joined by
    newlines and trimmed; the lines before the header and from the next header
    on are left out. *)
Theorem filterCaseSections_one_section (sections before body after : list jsstring)
  (header : jsstring) :
  (forall line, In line (before ++ header :: body ++ after) -> ~ In newline line) ->
  noSelection sections before ->
  isHeader header = true ->
  sectionMatches sections (headerTextOf header) = true ->
  (forall line, In line body -> isHeader line = false) ->
  noSelection sections after ->
  (after = [] \/ exists next after', after = next :: after' /\ isHeader next = true) ->
  filterCaseSections (joinWith newline (before ++ header :: body ++ after)) sections
  = trim (joinWith newline (header :: body)).
Proof.
  intros Hnl Hbefore Hh Hm Hbody Hafter Hnext. unfold filterCaseSections.
  rewrite splitOn_joinWith; [|now destruct before|exact Hnl].
  replace (filterLines sections (before ++ header :: body ++ after) false)
    with (header :: body); [reflexivity|].
  assert (forall pre, noSelection sections pre ->
            forall rest, filterLines sections (pre ++ header :: rest) false
                         = filterLines sections (header :: rest) false) as Hpre.
  { induction pre as [|line pre IH]; intros Hno rest; [reflexivity|].
    cbn [filterLines app].
    assert (noSelection sections pre) as Hrest
      by (intros l Hl; apply Hno; now right).
    destruct (isHeader line) eqn:Hl; [|now apply IH].
    rewrite (Hno line (or_introl eq_refl) Hl). now apply IH. }
  rewrite (Hpre before Hbefore), (filterLines_section _ _ _ _ _ Hh Hbody), Hm.
  rewrite (filterLines_after_section _ _ Hafter Hnext). now rewrite app_nil_r.
Qed.

Lemma filterCaseSections_one_section_witness :
  filterCaseSections Sample.body [str "usage"]
  = str "## Usage" ++ newline :: str "call it" ++ newline :: str "twice".
Proof.
  assert (Sample.body
          = joinWith newline
              ([str "Intro"; str "## Install"; str "npm i"]
               ++ str "## Usage" :: [str "call it"; str "twice"]
               ++ [str "## Notes"; str "none"; []])) as -> by reflexivity.
  rewrite (filterCaseSections_one_section [str "usage"]
             [str "Intro"; str "## Install"; str "npm i"] [str "call it"; str "twice"]
             [str "## Notes"; str "none"; []] (str "## Usage")).
  - reflexivity.
  - intros line Hin Hnl. simpl in Hin.
    repeat (destruct Hin as [<-|Hin];
            [vm_compute in Hnl;
             repeat (destruct Hnl as [Hnl|Hnl]; [discriminate Hnl|]); exact Hnl|]).
    exact Hin.
  - intros line Hin Hh. simpl in Hin.
    repeat (destruct Hin as [<-|Hin]; [try discriminate Hh; reflexivity|]).
    contradiction.
  - reflexivity.
  - reflexivity.
  - intros line Hin. simpl in Hin.
    repeat (destruct Hin as [<-|Hin]; [reflexivity|]). contradiction.
  - intros line Hin Hh. simpl in Hin.
    repeat (destruct Hin as [<-|Hin]; [try discriminate Hh; reflexivity|]).
    contradiction.
  - right. eexists. eexists. split; reflexivity.
Defined.

End GetCase.

Section GetCaseEdges.
Import Server.

Lemma trim_nil : trim [] = [].
Proof. reflexivity. Qed.

(** X17.  When no header of the content opens a requested section (when the
    content has no line that starts with [#], or when the list of sections is
    empty), [filterCaseSections] returns the empty string, not the content. *)
Theorem filterCaseSections_nothing_selected (content : jsstring)
  (sections : list jsstring) :
  (noSelection sections (splitOn newline content) ->
   filterCaseSections content sections = [])
  /\ ((forall line, In line (splitOn newline content) -> isHeader line = false) ->
      filterCaseSections content sections = [])
  /\ filterCaseSections content [] = [].
Proof.
  assert (forall ss, noSelection ss (splitOn newline content) ->
            filterCaseSections content ss = []) as H.
  { intros ss Hno. unfold filterCaseSections.
    now rewrite (filterLines_noSelection _ _ Hno). }
  split; [apply H|]. split.
  - intros Hplain. apply H. intros line Hin Hh. rewrite (Hplain line Hin) in Hh.
    discriminate.
  - apply H. intros line _ _. reflexivity.
Qed.

Lemma includes_nil (s : jsstring) : includes s [] = true.
Proof. destruct s; reflexivity. Qed.

(** X18.  A line that holds nothing but [#] marks and white space behind them
    is a header that every request for sections selects: with a list of
    sections that is not empty, the line and the lines behind it, up to the
    next line that starts with [#], are kept, whatever the names asked for. *)
Theorem bare_header_selects (sections : list jsstring) (header : jsstring)
  (body rest : list jsstring) (b : bool) :
  sections <> [] ->
  isHeader header = true ->
  trimStart (dropHashes header) = [] ->
  (forall line, In line body -> isHeader line = false) ->
  filterLines sections (header :: body ++ rest) b
  = header :: body ++ filterLines sections rest true.
Proof.
  intros Hs Hh Hbare Hbody.
  assert (sectionMatches sections (headerTextOf header) = true) as Hm.
  { unfold headerTextOf. rewrite Hh, Hbare. destruct sections as [|s ss]; [congruence|].
    simpl. now rewrite includes_nil, orb_true_r. }
  now rewrite (filterLines_section _ _ _ _ _ Hh Hbody), Hm.
Qed.

Lemma bare_header_selects_witness :
  filterCaseSections
    (str "## Usage" ++ newline :: str "run" ++ newline :: str "#" ++ newline
     :: str "cleanup") [str "install"]
  = str "#" ++ newline :: str "cleanup"
  /\ filterLines [str "install"] (str "#" :: [str "cleanup"] ++ []) false
     = str "#" :: [str "cleanup"] ++ filterLines [str "install"] [] true.
Proof.
  split; [vm_compute; reflexivity|].
  apply (bare_header_selects [str "install"] (str "#") [str "cleanup"] [] false).
  - discriminate.
  - reflexivity.
  - reflexivity.
  - intros line [<-|[]]. reflexivity.
Defined.

(** X19.  On a store that [loadAllCases] built, [get-case] answers with the
    error text [Case with ID "<id>" not found.] exactly when no loaded
    document has the id; otherwise it answers with the fields of the document
    loaded last with that id. *)
Theorem handleGetCase_found (parsed : list Case.t) (params : GetCaseParams.t) :
  (~ In (GetCaseParams.id params) (map Case.id parsed) ->
   handleGetCase (CaseLoader.loadAllCases parsed) params
   = ErrorText (str "Case with ID " ++ quote :: GetCaseParams.id params
                ++ quote :: str " not found."))
  /\ (In (GetCaseParams.id params) (map Case.id parsed) ->
      exists c response,
        find (fun c => streq (Case.id c) (GetCaseParams.id params)) (rev parsed) = Some c
        /\ handleGetCase (CaseLoader.loadAllCases parsed) params = CaseJson response
        /\ GetCaseResponse.id response = GetCaseParams.id params
        /\ GetCaseResponse.title response = Case.title c
        /\ GetCaseResponse.category response = Case.category c
        /\ GetCaseResponse.tags response = Case.tags c
        /\ GetCaseResponse.difficulty response = Case.difficulty c
        /\ GetCaseResponse.content response
           = truncateContent (selectedContent c params) (GetCaseParams.maxTokens params)).
Proof.
  unfold handleGetCase. rewrite getCase_loadAllCases. split.
  - intros Hnot. destruct (find _ (rev parsed)) as [c|] eqn:Hfind; [|reflexivity].
    apply find_some in Hfind as [Hin Heq]. apply streq_eq in Heq.
    exfalso. apply Hnot. apply in_map_iff. exists c. split; [exact Heq|].
    now apply in_rev.
  - intros Hin. destruct (find _ (rev parsed)) as [c|] eqn:Hfind.
    + pose proof (find_some _ _ Hfind) as [_ Heq]. apply streq_eq in Heq.
      eexists. eexists. split; [reflexivity|]. split; [reflexivity|].
      simpl. repeat split. exact Heq.
    + apply in_map_iff in Hin as (c & Hid & Hin). apply in_rev in Hin.
      pose proof (find_none _ _ Hfind c Hin) as Hne. apply streq_neq in Hne.
      contradiction.
Qed.

Lemma Qfloor_bounds_length (n : nat) (q : Q) :
  (inject_Z (Z.of_nat n) <= q)%Q -> n <= Z.to_nat (Qfloor q).
Proof.
  intros Hle. apply Qfloor_resp_le in Hle. rewrite Qfloor_Z in Hle. lia.
Qed.

(** X20.  The content that [get-case] returns has at most [maxTokens * 4]
    characters (rounded down) and the 43 of the truncation note; it is the
    selected content itself when that has at most [maxTokens * 4] characters,
    and otherwise its first [maxTokens * 4] characters (rounded down)
    followed by the note. *)
Theorem handleGetCase_content_bound (cases : CaseLoader.t) (params : GetCaseParams.t)
  (response : GetCaseResponse.t) :
  handleGetCase cases params = CaseJson response ->
  length (GetCaseResponse.content response)
  <= Z.to_nat (Qfloor (GetCaseParams.maxTokens params * 4)) + 43
  /\ exists caseItem,
       CaseLoader.getCase cases (GetCaseParams.id params) = Some caseItem
       /\ ((inject_Z (Z.of_nat (length (selectedContent caseItem params)))
            <= GetCaseParams.maxTokens params * 4)%Q ->
           GetCaseResponse.content response = selectedContent caseItem params)
       /\ ((GetCaseParams.maxTokens params * 4
            < inject_Z (Z.of_nat (length (selectedContent caseItem params))))%Q ->
           GetCaseResponse.content response
           = firstn (Z.to_nat (Qfloor (GetCaseParams.maxTokens params * 4)))
               (selectedContent caseItem params)
             ++ truncationNote).
Proof.
  unfold handleGetCase.
  destruct (CaseLoader.getCase cases (GetCaseParams.id params)) as [c|]; [|discriminate].
  intros [= <-]. cbn [GetCaseResponse.content]. unfold truncateContent.
  destruct (Qltb (GetCaseParams.maxTokens params * 4)
              (inject_Z (Z.of_nat (length (selectedContent c params)))))
    eqn:Hlt.
  - apply Qltb_lt in Hlt. split.
    + unfold substringTo. rewrite length_app, length_firstn.
      change (length truncationNote) with 43. lia.
    + exists c. split; [reflexivity|]. split; [|reflexivity].
      intros Hle. exfalso. apply (Qlt_not_le _ _ Hlt Hle).
  - apply Qltb_ge in Hlt. split.
    + apply Qfloor_bounds_length in Hlt. lia.
    + exists c. split; [reflexivity|]. split; [reflexivity|].
      intros Hgt. exfalso. apply (Qlt_not_le _ _ Hgt Hlt).
Qed.

Lemma handleGetCase_content_bound_witness :
  exists response,
    handleGetCase
      (Loader.loadAllCases "/"%char Sample.slashJoin (str "cases") Sample.tree)
      (GetCaseParams.mk (str "a") (Some [str "usage"]) (9 # 4)) = CaseJson response
    /\ GetCaseResponse.content response = str "## Usage" ++ newline :: truncationNote
    /\ length (GetCaseResponse.content response) <= 9 + 43.
Proof.
  eexists. split; [vm_compute; reflexivity|]. split; [vm_compute; reflexivity|].
  apply (handleGetCase_content_bound
           (Loader.loadAllCases "/"%char Sample.slashJoin (str "cases") Sample.tree)
           (GetCaseParams.mk (str "a") (Some [str "usage"]) (9 # 4))).
  vm_compute. reflexivity.
Defined.

Lemma GetCaseSchema_parse_inv (args : value) (params : GetCaseParams.t) :
  GetCaseSchema_parse args = Return params ->
  GetCaseParams.id params <> []
  /\ (500 <= GetCaseParams.maxTokens params <= 16000)%Q
  /\ (property args (str "maxTokens") = VUndefined ->
      GetCaseParams.maxTokens params = 8000%Q).
Proof.
  unfold GetCaseSchema_parse. destruct args; try discriminate.
  set (args := VObject fields). intros H.
  destruct (Zod.nonEmptyString (property args (str "id"))) as [id|e] eqn:Eid;
    [|discriminate].
  destruct (Zod.optional Zod.arrayOfString (property args (str "sections")))
    as [sections|e]; [|discriminate].
  destruct (Zod.default (Zod.numberBetween 500 16000) (VNumber 8000)
              (property args (str "maxTokens"))) as [maxTokens|e] eqn:Emax;
    [|discriminate].
  cbn [bind] in H. injection H as <-. cbn [GetCaseParams.id GetCaseParams.maxTokens].
  split; [|split].
  - unfold Zod.nonEmptyString in Eid.
    destruct (Zod.string (property args (str "id"))) as [s|e]; [|discriminate].
    cbn [bind] in Eid. destruct s; [discriminate|]. injection Eid as <-. discriminate.
  - assert (forall v, Zod.numberBetween 500 16000 v = Return maxTokens ->
              (500 <= maxTokens <= 16000)%Q) as Hbetween.
    { intros v Hv. unfold Zod.numberBetween in Hv.
      destruct (Zod.number v) as [n|e]; [|discriminate]. cbn [bind] in Hv.
      destruct (Qle_bool 500 n && Qle_bool n 16000) eqn:Hb; [|discriminate].
      injection Hv as <-. apply andb_true_iff in Hb as [Hlo Hhi].
      split; now apply Qle_bool_iff. }
    unfold Zod.default in Emax.
    destruct (property args (str "maxTokens")); now apply Hbetween in Emax.
  - intros Hundef. rewrite Hundef in Emax. vm_compute in Emax. now injection Emax as <-.
Qed.

Lemma truncateContent_length (content : jsstring) (maxTokens : Q) :
  length (truncateContent content maxTokens) <= Z.to_nat (Qfloor (maxTokens * 4)) + 43.
Proof.
  unfold truncateContent.
  destruct (Qltb (maxTokens * 4) (inject_Z (Z.of_nat (length content)))) eqn:Hlt.
  - unfold substringTo. rewrite length_app, length_firstn.
    change (length truncationNote) with 43. lia.
  - apply Qltb_ge, Qfloor_bounds_length in Hlt. lia.
Qed.

Lemma truncateContent_short (content : jsstring) (maxTokens : Q) :
  (inject_Z (Z.of_nat (length content)) <= maxTokens * 4)%Q ->
  truncateContent content maxTokens = content.
Proof.
  intros Hle. unfold truncateContent. apply Qltb_ge in Hle. now rewrite Hle.
Qed.

(** X24.  For the arguments that [GetCaseSchema] accepts, the content that
    the tool [get-case] returns has at most 64043 characters, and a selected
    content of at most 2000 characters is returned whole; when the arguments
    give no [maxTokens], a selected content of at most 32000 characters is
    returned whole. *)
Theorem getCase_tool_content_bound (cases : CaseLoader.t) (args : value)
  (params : GetCaseParams.t) (response : GetCaseResponse.t) :
  GetCaseSchema_parse args = Return params ->
  handleGetCase cases params = CaseJson response ->
  (Z.of_nat (length (GetCaseResponse.content response)) <= 64043)%Z
  /\ exists caseItem,
       CaseLoader.getCase cases (GetCaseParams.id params) = Some caseItem
       /\ ((Z.of_nat (length (selectedContent caseItem params)) <= 2000)%Z ->
           GetCaseResponse.content response = selectedContent caseItem params)
       /\ (property args (str "maxTokens") = VUndefined ->
           (Z.of_nat (length (selectedContent caseItem params)) <= 32000)%Z ->
           GetCaseResponse.content response = selectedContent caseItem params).
Proof.
  intros Hparse. apply GetCaseSchema_parse_inv in Hparse as (_ & [Hlo Hhi] & Hdefault).
  unfold handleGetCase.
  destruct (CaseLoader.getCase cases (GetCaseParams.id params)) as [c|]; [|discriminate].
  intros [= <-]. cbn [GetCaseResponse.content]. split; [|exists c; split; [reflexivity|split]].
  - pose proof (truncateContent_length (selectedContent c params)
                  (GetCaseParams.maxTokens params)) as Hlen.
    assert (GetCaseParams.maxTokens params * 4 <= inject_Z 64000)%Q as Hmax
      by (change (inject_Z 64000) with 64000%Q; lra).
    assert (0 <= GetCaseParams.maxTokens params * 4)%Q as Hmin by lra.
    apply Qfloor_resp_le in Hmax. rewrite Qfloor_Z in Hmax.
    apply Qfloor_resp_le in Hmin. change (Qfloor 0) with 0%Z in Hmin. lia.
  - intros Hshort. apply truncateContent_short.
    apply Qle_trans with (inject_Z 2000).
    + now rewrite <- Zle_Qle.
    + change (inject_Z 2000) with 2000%Q. lra.
  - intros Hundef Hshort. apply truncateContent_short. rewrite (Hdefault Hundef).
    apply Qle_trans with (inject_Z 32000).
    + now rewrite <- Zle_Qle.
    + vm_compute. discriminate.
Qed.

Lemma getCase_tool_content_bound_witness :
  exists response,
    handleGetCase
      (Loader.loadAllCases "/"%char Sample.slashJoin (str "cases") Sample.tree)
      (GetCaseParams.mk (str "a") (Some [str "usage"]) 8000) = CaseJson response
    /\ GetCaseResponse.content response
       = str "## Usage" ++ newline :: str "call it" ++ newline :: str "twice"
    /\ (Z.of_nat (length (GetCaseResponse.content response)) <= 64043)%Z.
Proof.
  eexists. split; [vm_compute; reflexivity|]. split; [vm_compute; reflexivity|].
  apply (getCase_tool_content_bound
           (Loader.loadAllCases "/"%char Sample.slashJoin (str "cases") Sample.tree)
           (VObject [(str "id", VString (str "a"));
                     (str "sections", VArray [VString (str "usage")])])
           (GetCaseParams.mk (str "a") (Some [str "usage"]) 8000)).
  - vm_compute. reflexivity.
  - vm_compute. reflexivity.
Defined.

End GetCaseEdges.

(** ** The logger *)

(** X21.  The logger takes its threshold from [LOG_LEVEL].  When that is
    one of the four level names, a message is logged exactly when its level
    is the threshold or comes after it in debug, info, warn, error: errors
    always, and with [error] nothing else.  Without [LOG_LEVEL], or with an
    empty one, the threshold is [info]: every level but [debug] is logged.
    With any other string (a misspelt or capitalised name) nothing is logged,
    errors included. *)
Theorem shouldLog_threshold (LOG_LEVEL : option jsstring) :
  (forall threshold level,
     LOG_LEVEL = Some (Logger.levelName threshold) ->
     Logger.configured LOG_LEVEL = Logger.levelName threshold
     /\ Logger.shouldLog (Logger.configured LOG_LEVEL) Logger.error = true
     /\ (Logger.shouldLog (Logger.configured LOG_LEVEL) level = true
         <-> In level
               (match threshold with
                | Logger.debug => [Logger.debug; Logger.info; Logger.warn; Logger.error]
                | Logger.info => [Logger.info; Logger.warn; Logger.error]
                | Logger.warn => [Logger.warn; Logger.error]
                | Logger.error => [Logger.error]
                end)))
  /\ (LOG_LEVEL = None \/ LOG_LEVEL = Some [] ->
      forall level,
        Logger.shouldLog (Logger.configured LOG_LEVEL) level = true
        <-> level <> Logger.debug)
  /\ (forall name,
        LOG_LEVEL = Some name -> name <> [] ->
        (forall threshold, name <> Logger.levelName threshold) ->
        forall level, Logger.shouldLog (Logger.configured LOG_LEVEL) level = false).
Proof.
  split; [|split].
  - intros threshold level ->.
    split; [now destruct threshold|]. split; [now destruct threshold|].
    destruct threshold, level; vm_compute; split; intros H;
      try reflexivity; try discriminate H; try tauto;
      repeat (destruct H as [H|H]; [discriminate H|]); contradiction.
  - intros [->| ->] level; destruct level; split; try discriminate;
      try reflexivity; intros H; congruence.
  - intros name -> Hname Hnone level.
    assert (Logger.configured (Some name) = name) as -> by (now destruct name).
    unfold Logger.shouldLog.
    assert (Logger.levels name = None) as ->.
    { unfold Logger.levels.
      destruct (streq name (str "debug")) eqn:Ed;
        [apply streq_eq in Ed; now destruct (Hnone Logger.debug)|].
      destruct (streq name (str "info")) eqn:Ei;
        [apply streq_eq in Ei; now destruct (Hnone Logger.info)|].
      destruct (streq name (str "warn")) eqn:Ew;
        [apply streq_eq in Ew; now destruct (Hnone Logger.warn)|].
      destruct (streq name (str "error")) eqn:Ee;
        [apply streq_eq in Ee; now destruct (Hnone Logger.error)|].
      reflexivity. }
    now destruct (Logger.levels (Logger.levelName level)).
Qed.

(** ** The text to embed *)

Section EmbeddingText.
Import Indexing.

Lemma toLowerCase_unit_idempotent (c : ascii) :
  toLowerCase_unit (toLowerCase_unit c) = toLowerCase_unit c.
Proof. destruct c as [[] [] [] [] [] [] [] []]; vm_compute; reflexivity. Qed.

Lemma startsWith_fence_backtick (c : ascii) (s : jsstring) :
  c <> backtick -> startsWith (c :: s) fence = false.
Proof.
  intros Hc. unfold fence. cbn [startsWith].
  destruct (Ascii.eqb backtick c) eqn:E; [|reflexivity].
  apply Ascii.eqb_eq in E. congruence.
Qed.

Lemma stripFences_plain (plain rest : jsstring) :
  ~ In backtick plain -> stripFences 0 (plain ++ rest) = plain ++ stripFences 0 rest.
Proof.
  induction plain as [|c plain IH]; intros Hplain; [reflexivity|].
  cbn [app stripFences]. rewrite startsWith_fence_backtick by (intros ->; apply Hplain; now left).
  rewrite IH by (intros H; apply Hplain; now right). reflexivity.
Qed.

Lemma fenceIndex_plain (plain rest : jsstring) :
  ~ In backtick plain -> fenceIndex (plain ++ fence ++ rest) = Some (length plain).
Proof.
  induction plain as [|c plain IH]; intros Hplain.
  - reflexivity.
  - cbn [app length fenceIndex].
    rewrite startsWith_fence_backtick by (intros ->; apply Hplain; now left).
    rewrite IH by (intros H; apply Hplain; now right). reflexivity.
Qed.

Lemma stripFences_skip (span rest : jsstring) :
  forall skip, skip = length span ->
    stripFences skip (span ++ rest) = stripFences 0 rest.
Proof.
  induction span as [|c span IH]; intros skip ->; [reflexivity|].
  cbn [app length stripFences]. now apply IH.
Qed.

Lemma stripFences_fence (tail : jsstring) :
  stripFences 0 (fence ++ tail)
  = match fenceIndex tail with
    | Some i => stripFences (i + 5) ([backtick; backtick] ++ tail)
    | None => backtick :: stripFences 0 ([backtick; backtick] ++ tail)
    end.
Proof. reflexivity. Qed.

Lemma fenceIndex_none (s : jsstring) : ~ In backtick s -> fenceIndex s = None.
Proof.
  induction s as [|u s IH]; intros Hs; [reflexivity|]. cbn [fenceIndex].
  rewrite startsWith_fence_backtick by (intros ->; apply Hs; now left).
  rewrite IH by (intros H; apply Hs; now right). reflexivity.
Qed.

Lemma stripFences_block (body rest : jsstring) :
  ~ In backtick body ->
  stripFences 0 (fence ++ body ++ fence ++ rest) = stripFences 0 rest.
Proof.
  intros Hbody. rewrite stripFences_fence, (fenceIndex_plain _ _ Hbody).
  rewrite !app_assoc. apply stripFences_skip.
  rewrite !length_app. cbn [length fence]. lia.
Qed.

Lemma stripFences_open (body : jsstring) :
  ~ In backtick body -> stripFences 0 (fence ++ body) = fence ++ body.
Proof.
  intros Hbody. rewrite stripFences_fence, (fenceIndex_none _ Hbody).
  unfold fence at 1. cbn [app]. f_equal.
  destruct body as [|u body]; [reflexivity|].
  assert (u <> backtick) as Hu by (intros ->; apply Hbody; now left).
  assert (forall s, stripFences 0 (backtick :: backtick :: u :: s)
                    = backtick :: backtick :: stripFences 0 (u :: s)) as Hstep.
  { intros s. cbn [stripFences]. unfold fence. cbn [startsWith].
    destruct (Ascii.eqb backtick u) eqn:E;
      [apply Ascii.eqb_eq in E; congruence|].
    rewrite !Bool.andb_false_r. reflexivity. }
  rewrite Hstep. do 2 f_equal.
  rewrite <- (app_nil_r (u :: body)) at 1.
  rewrite (stripFences_plain (u :: body) []) by exact Hbody.
  apply app_nil_r.
Qed.

(** X22.  The text that [createSearchText] hands to the embedding holds no
    capital letter, and a fenced block of the content adds nothing to it: the
    text is the same as for the content without the two fences and what
    stands between them (for a block and a text before it that hold no
    backtick).  A fence that is never closed stays in the text. *)
Theorem createSearchText_drops_fenced_blocks (c : Case.t) (before body after : jsstring) :
  ~ In backtick before -> ~ In backtick body ->
  createSearchText (withContent c (before ++ fence ++ body ++ fence ++ after))
  = createSearchText (withContent c (before ++ after))
  /\ Forall (fun unit => toLowerCase_unit unit = unit)
       (createSearchText (withContent c (before ++ fence ++ body ++ fence ++ after)))
  /\ stripFences 0 (before ++ fence ++ body) = before ++ fence ++ body.
Proof.
  intros Hbefore Hbody. split; [|split].
  - unfold createSearchText, withContent. cbn [Case.title Case.category Case.tags
      Case.difficulty Case.content Case.prerequisites].
    rewrite !(stripFences_plain before) by exact Hbefore.
    now rewrite stripFences_block.
  - unfold createSearchText, toLowerCase. apply Forall_forall. intros unit Hin.
    apply in_map_iff in Hin as (u & <- & _). apply toLowerCase_unit_idempotent.
  - rewrite (stripFences_plain before) by exact Hbefore. f_equal.
    now apply stripFences_open.
Qed.

Lemma createSearchText_drops_fenced_blocks_witness :
  createSearchText
    (withContent Fixture.stripe (str "Run " ++ fence ++ str "npm i" ++ fence ++ str " first"))
  = str "stripe checkout web stripe web beginner run  first".
Proof.
  assert (~ In backtick (str "Run ")) as Hbefore.
  { intros H. vm_compute in H.
    repeat (destruct H as [H|H]; [discriminate H|]). exact H. }
  assert (~ In backtick (str "npm i")) as Hbody.
  { intros H. vm_compute in H.
    repeat (destruct H as [H|H]; [discriminate H|]). exact H. }
  rewrite (proj1 (createSearchText_drops_fenced_blocks Fixture.stripe (str "Run ")
                    (str "npm i") (str " first") Hbefore Hbody)).
  vm_compute. reflexivity.
Defined.

(** ** The batches of [indexCases] *)




End EmbeddingText.
